(** * csim: a set-associative LRU cache simulator

    A shallow embedding of [csim.c].  The program keeps its cache in
    malloc'ed singly linked lists of [cache_line_t] cells, one list per set,
    reached through the array [cache]; everything else is a global variable.
    The embedding keeps that shape: a heap of cells addressed by location,
    an array of head pointers, and the globals gathered in one record that
    every function threads through.  Operations that C leaves undefined
    (dereferencing NULL, indexing outside [cache], a shift count outside the
    width of the type) make the embedded function return [None]. *)

From Stdlib Require Import ZArith Ascii String.
From stdpp Require Import prelude.

Local Open Scope Z_scope.

(** ** Machine integers *)

(** [int] is 32 bits wide and signed, [mem_addr_t] is 64 bits wide and
    unsigned.  Values are kept in [Z]; [to_int] and [to_ull] are the
    conversions into the two types, which wrap around.  A result of [int]
    arithmetic that leaves the range of [int] wraps around too, as on the
    two's complement machines the program is built for. *)

Definition INT_MAX : Z := 2 ^ 31 - 1.

Definition to_int (z : Z) : Z := (z + 2 ^ 31) mod 2 ^ 32 - 2 ^ 31.
Definition to_ull (z : Z) : Z := z mod 2 ^ 64.

(** [x << n] at type [int]: the count must lie in [0, 32); bits shifted
    out of the word are lost (two's complement). *)
Definition shl_int (x n : Z) : option Z :=
  if (0 <=? n) && (n <? 32) then Some (to_int (Z.shiftl x n)) else None.

(** [x >> n] at type [mem_addr_t]: the count must lie in [0, 64). *)
Definition shr_ull (x n : Z) : option Z :=
  if (0 <=? n) && (n <? 64) then Some (Z.shiftr x n) else None.

(** [S = pow(2,s)]: the double is converted to [int].  A negative exponent
    gives a value below one, which truncates to zero; an exponent above 30
    does not fit. *)
Definition pow2_int (e : Z) : option Z :=
  if e <? 0 then Some 0
  else if e <=? 30 then Some (2 ^ e)
  else None.

(** ** Data model *)

(** A pointer to a cache line is a heap location or NULL. *)
Abbreviation ptr := (option nat) (only parsing).

Record cache_line_t := Line {
  valid : Z;
  tag : Z;
  next : ptr
}.

(** The globals of the program, with the heap the lines live in.  [S_sets]
    is the global [S]. *)
Record state := State {
  verbosity : Z;
  s : Z;
  b : Z;
  E : Z;
  trace_file : option string;
  S_sets : Z;
  miss_count : Z;
  hit_count : Z;
  eviction_count : Z;
  cache : list ptr;
  mem : list cache_line_t
}.

Definition set_verbosity (v : Z) (st : state) : state :=
  State v (s st) (b st) (E st) (trace_file st) (S_sets st)
        (miss_count st) (hit_count st) (eviction_count st) (cache st) (mem st).
Definition set_s (v : Z) (st : state) : state :=
  State (verbosity st) v (b st) (E st) (trace_file st) (S_sets st)
        (miss_count st) (hit_count st) (eviction_count st) (cache st) (mem st).
Definition set_b (v : Z) (st : state) : state :=
  State (verbosity st) (s st) v (E st) (trace_file st) (S_sets st)
        (miss_count st) (hit_count st) (eviction_count st) (cache st) (mem st).
Definition set_E (v : Z) (st : state) : state :=
  State (verbosity st) (s st) (b st) v (trace_file st) (S_sets st)
        (miss_count st) (hit_count st) (eviction_count st) (cache st) (mem st).
Definition set_trace_file (f : option string) (st : state) : state :=
  State (verbosity st) (s st) (b st) (E st) f (S_sets st)
        (miss_count st) (hit_count st) (eviction_count st) (cache st) (mem st).
Definition set_S (v : Z) (st : state) : state :=
  State (verbosity st) (s st) (b st) (E st) (trace_file st) v
        (miss_count st) (hit_count st) (eviction_count st) (cache st) (mem st).
Definition set_cache (c : list ptr) (st : state) : state :=
  State (verbosity st) (s st) (b st) (E st) (trace_file st) (S_sets st)
        (miss_count st) (hit_count st) (eviction_count st) c (mem st).
Definition set_mem (m : list cache_line_t) (st : state) : state :=
  State (verbosity st) (s st) (b st) (E st) (trace_file st) (S_sets st)
        (miss_count st) (hit_count st) (eviction_count st) (cache st) m.

(** [x++] on an [int] counter. *)
Definition incr_miss (st : state) : state :=
  State (verbosity st) (s st) (b st) (E st) (trace_file st) (S_sets st)
        (to_int (miss_count st + 1)) (hit_count st) (eviction_count st)
        (cache st) (mem st).
Definition incr_hit (st : state) : state :=
  State (verbosity st) (s st) (b st) (E st) (trace_file st) (S_sets st)
        (miss_count st) (to_int (hit_count st + 1)) (eviction_count st)
        (cache st) (mem st).
Definition incr_evict (st : state) : state :=
  State (verbosity st) (s st) (b st) (E st) (trace_file st) (S_sets st)
        (miss_count st) (hit_count st) (to_int (eviction_count st + 1))
        (cache st) (mem st).

(** The state the program starts in: the initialisers of the globals and
    an empty heap. *)
Definition initial_state : state :=
  State 0 0 0 0 None 0 0 0 0 [] [].

(** ** Memory accesses *)

(** [*p] *)
Definition load (p : ptr) (st : state) : option cache_line_t :=
  l ← p; mem st !! l.

(** [p->next] *)
Definition load_next (p : ptr) (st : state) : option ptr :=
  c ← load p st; Some (next c).

Definition store (p : ptr) (f : cache_line_t → cache_line_t) (st : state)
  : option state :=
  l ← p; c ← mem st !! l; Some (set_mem (<[l := f c]> (mem st)) st).

(** [p->valid = v], [p->tag = t], [p->next = q] *)
Definition store_valid (p : ptr) (v : Z) : state → option state :=
  store p (λ c, Line v (tag c) (next c)).
Definition store_tag (p : ptr) (t : Z) : state → option state :=
  store p (λ c, Line (valid c) t (next c)).
Definition store_next (p : ptr) (q : ptr) : state → option state :=
  store p (λ c, Line (valid c) (tag c) q).

(** [malloc(sizeof(cache_line_t))]: a fresh cell at the end of the heap;
    its contents are whatever the allocator left there. *)
Definition malloc_line (st : state) : ptr * state :=
  (Some (length (mem st)), set_mem (mem st ++ [Line 0 0 None]) st).

(** [cache[i]] and [cache[i] = p]; the index is an [int]. *)
Definition cache_at (i : Z) (st : state) : option ptr :=
  if i <? 0 then None else cache st !! Z.to_nat i.

Definition cache_store (i : Z) (p : ptr) (st : state) : option state :=
  _ ← cache_at i st; Some (set_cache (<[Z.to_nat i := p]> (cache st)) st).

(** ** initCache *)

(** The inner loop, [for (j = 1; j < E; j++)], with the number of
    iterations left as the structural argument. *)
Fixpoint init_lines (n : nat) (prev : ptr) (st : state) : option state :=
  match n with
  | O => Some st
  | S n' =>
      let '(line, st) := malloc_line st in
      st ← store_next prev line st;
      let prev := line in
      st ← store_valid line 0 st;
      st ← store_tag line 0 st;
      st ← store_next line None st;
      init_lines n' prev st
  end.

(** The outer loop, [for (i = 0; i < S; i++)]. *)
Fixpoint init_sets (n : nat) (i : Z) (st : state) : option state :=
  match n with
  | O => Some st
  | S n' =>
      let '(set, st) := malloc_line st in
      st ← store_valid set 0 st;
      st ← store_tag set 0 st;
      st ← store_next set None st;
      let prev := set in
      st ← cache_store i set st;
      st ← init_lines (Z.to_nat (E st - 1)) prev st;
      init_sets n' (i + 1) st
  end.

Definition initCache (st : state) : option state :=
  n_sets ← pow2_int (s st);
  let st := set_S n_sets st in
  let st := set_cache (replicate (Z.to_nat n_sets) None) st in
  init_sets (Z.to_nat n_sets) 0 st.

(** ** accessData *)

(** The search loop [while (!match && e > 1)], entered with [match == 0];
    the structural argument is [e - 1].  The result carries [match]. *)
Fixpoint hit_scan (n : nat) (s_bits t_bits : Z) (line : ptr) (st : state)
  : option (bool * state) :=
  match n with
  | O => Some (false, st)
  | S n' =>
      ln ← load_next line st;
      nx ← load ln st;
      if (t_bits =? tag nx) && (valid nx =? 1) then
        let st := incr_hit st in
        next_first ← load_next line st;
        after_next_first ← (ln ← load_next line st; load_next ln st);
        st ← store_next line after_next_first st;
        curr_first ← cache_at s_bits st;
        st ← cache_store s_bits next_first st;
        st ← store_next next_first curr_first st;
        Some (true, st)
      else
        ln ← load_next line st;
        let line := if ln is Some _ then ln else line in
        hit_scan n' s_bits t_bits line st
  end.

(** The condition of the loop that looks for an open line, without the
    leading [e &&]. *)
Definition open_cond (check : ptr) (st : state) : option bool :=
  cn ← load_next check st;
  if cn is Some _ then
    nx ← load cn st;
    if valid nx =? 1 then
      Some (bool_decide (next nx ≠ None))
    else Some false
  else Some false.

(** [while (... ) check = check->next;] with fuel: a list that ends is
    walked in no more steps than the heap has cells. *)
Fixpoint find_open (fuel : nat) (check : ptr) (st : state) : option ptr :=
  match fuel with
  | O => None
  | S fuel' =>
      c ← open_cond check st;
      if (c : bool) then (cn ← load_next check st; find_open fuel' cn st)
      else Some check
  end.

(** The chain [if (!e) ... else if ... else if ... else ...] that puts
    the new line in place, with [check] where the loop left it. *)
Definition fill_line (s_bits t_bits e : Z) (check : ptr) (st : state)
  : option state :=
  if e =? 0 then
    st ← store_tag check t_bits st;
    store_valid check 1 st
  else
    cn ← load_next check st;
    cnv ← (if cn is Some _ then c ← load cn st; Some (valid c =? 0)
           else Some false);
    if (cnv : bool) then
      after_next ← (cn ← load_next check st; load_next cn st);
      curr_first ← cache_at s_bits st;
      cn ← load_next check st;
      st ← cache_store s_bits cn st;
      cn ← load_next check st;
      st ← store_next cn curr_first st;
      cn ← load_next check st;
      st ← store_tag cn t_bits st;
      cn ← load_next check st;
      st ← store_valid cn 1 st;
      store_next check after_next st
    else if cn is None then
      st ← store_tag check t_bits st;
      st ← store_valid check 1 st;
      Some (incr_evict st)
    else
      let st := incr_evict st in
      cn ← load_next check st;
      st ← store_tag cn t_bits st;
      cn ← load_next check st;
      st ← store_valid cn 1 st;
      curr_first ← cache_at s_bits st;
      cn ← load_next check st;
      st ← store_next cn curr_first st;
      cn ← load_next check st;
      st ← cache_store s_bits cn st;
      store_next check None st.

(** The body of [if (match == 0)]. *)
Definition miss_fill (s_bits t_bits : Z) (st : state) : option state :=
  check ← cache_at s_bits st;
  let st := incr_miss st in
  c ← load check st;
  let e := if valid c =? 0 then 0 else 1 in
  check ← (if e =? 0 then Some check
           else find_open (length (mem st)) check st);
  fill_line s_bits t_bits e check st.

(** The address arithmetic at the head of [accessData]. *)
Definition mask_of (st : state) : option Z :=
  one ← shl_int 1 (s st);
  m ← shl_int (to_int (one - 1)) (b st);
  Some (to_ull m).

Definition s_bits_of (addr : Z) (st : state) : option Z :=
  mask ← mask_of st;
  let m := Z.land mask addr in
  sh ← shr_ull m (b st);
  Some (to_int sh).

Definition t_bits_of (addr : Z) (st : state) : option Z :=
  shr_ull addr (to_int (s st + b st)).

Definition accessData (addr : Z) (st : state) : option state :=
  s_bits ← s_bits_of addr st;
  t_bits ← t_bits_of addr st;
  line ← cache_at s_bits st;
  c ← load line st;
  let hit0 := (t_bits =? tag c) && (valid c =? 1) in
  let st := if hit0 then incr_hit st else st in
  '(match_, st) ← (if hit0 then Some (true, st)
                   else hit_scan (Z.to_nat (E st - 1)) s_bits t_bits line st);
  if (match_ : bool) then Some st else miss_fill s_bits t_bits st.

(** ** freeCache *)

(** [while (start->next != NULL)] unlinks and frees the second cell until
    the first one is alone.  The heap of the model keeps a freed cell where
    it was: nothing is allocated or read after [freeCache]. *)
Fixpoint free_lines (fuel : nat) (start : ptr) (st : state) : option state :=
  match fuel with
  | O => None
  | S fuel' =>
      sn ← load_next start st;
      if sn is Some _ then
        temp ← load_next start st;
        snn ← load_next temp st;
        st ← store_next start snn st;
        free_lines fuel' start st
      else Some st
  end.

Fixpoint free_sets (n : nat) (i : Z) (st : state) : option state :=
  match n with
  | O => Some st
  | S n' =>
      start ← cache_at i st;
      st ← free_lines (S (length (mem st))) start st;
      free_sets n' (i + 1) st
  end.

Definition freeCache (st : state) : option state :=
  n_sets ← pow2_int (s st);
  let st := set_S n_sets st in
  free_sets (Z.to_nat n_sets) 0 st.

(** ** Output and termination *)

(** What the program writes, one constructor per [printf]/[fprintf] site
    (the eleven lines of [printUsage] are one event).  [OutSummary] is the
    line [printSummary] prints, [OutResults] the line it writes into the
    file [.csim_results], and [OutAssertion] the report of its [assert]
    when that file did not open. *)
Inductive output :=
  | OutMissingArg (prog : string)
  | OutUsage (prog : string)
  | OutAccess (c : ascii) (addr len : Z)
  | OutNewline
  | OutOpenError (file : string)
  | OutSummary (hits misses evictions : Z)
  | OutResults (hits misses evictions : Z)
  | OutAssertion.

(** A function either hands control back, or has called [exit], or has
    been stopped by [abort] on a failed [assert]. *)
Inductive result :=
  | Running (st : state) (out : list output)
  | Exited (code : Z) (st : state) (out : list output)
  | Aborted (st : state) (out : list output).

(** [f(); exit(code);] *)
Definition then_exit (code : Z) (r : result) : result :=
  match r with
  | Running st out => Exited code st out
  | Exited _ _ _ | Aborted _ _ => r
  end.

(** ** printUsage and printSummary *)

Definition printUsage (prog : string) (st : state) (out : list output)
  : result :=
  Exited 0 st (out ++ [OutUsage prog]).

(** [fopen_w name] says whether [fopen(name, "w")] gives a file.
    [printSummary] prints the summary, opens [.csim_results] and asserts
    that it did open: with no file the [assert] reports and aborts
    (the source does not define [NDEBUG]); with a file the summary is
    written into it as well. *)
Definition printSummary (fopen_w : string → bool)
    (hits misses evictions : Z) (st : state) (out : list output)
  : result :=
  let out := out ++ [OutSummary hits misses evictions] in
  if fopen_w ".csim_results"%string then
    Running st (out ++ [OutResults hits misses evictions])
  else Aborted st (out ++ [OutAssertion]).

(** ** replayTrace *)

Definition NUL : ascii := Ascii.zero.

(** [fgets(buf, 1000, fp)] that read the characters [ln]: they overwrite
    the head of [buf] and a terminator follows them. *)
Definition fgets (ln : list ascii) (buf : list ascii) : list ascii :=
  ln ++ NUL :: drop (S (length ln)) buf.

(** [buf[i]] *)
Definition buf_at (buf : list ascii) (i : nat) : ascii :=
  default NUL (buf !! i).

Definition is_access (c : ascii) : bool :=
  Ascii.eqb c "S" || Ascii.eqb c "L" || Ascii.eqb c "M".

(** The locals of [replayTrace] next to the globals and the output. *)
Record replay_state := Replay {
  r_buf : list ascii;
  r_addr : Z;
  r_len : Z;
  r_st : state;
  r_out : list output
}.

Section ReplayTrace.

(** [sscanf(str, "%llx,%u", &addr, &len)] is the C library's: given the
    characters from [str] on and the current [addr] and [len], it gives
    their new values. *)
Variable sscanf : list ascii → Z * Z → Z * Z.

(** [fopen], and for a file that opens what the successive calls of
    [fgets(buf, 1000, fp)] deliver, in order: each time at least one
    character, a line of the file with its newline (or a piece of a line
    that is longer than the buffer). *)
Variable fopen : string → option (list (list ascii)).

(** [fopen] for writing: whether the file can be opened. *)
Variable fopen_w : string → bool.

(** What [buf] holds before the first [fgets]. *)
Variable buf0 : list ascii.

(** One turn of [while (fgets(buf, 1000, trace_fp) != NULL)]. *)
Definition replay_line (ln : list ascii) (r : replay_state)
  : option replay_state :=
  let buf := fgets ln (r_buf r) in
  let c := buf_at buf 1 in
  if is_access c then
    let '(a, l) := sscanf (drop 3 buf) (r_addr r, r_len r) in
    let addr := to_ull a in
    let out := r_out r in
    let out := if verbosity (r_st r) =? 0 then out
               else out ++ [OutAccess c addr l] in
    let out := if verbosity (r_st r) =? 0 then out
               else out ++ [OutNewline] in
    st ← accessData addr (r_st r);
    st ← (if Ascii.eqb c "M" then accessData addr st else Some st);
    Some (Replay buf addr l st out)
  else Some (Replay buf (r_addr r) (r_len r) (r_st r) (r_out r)).

Fixpoint replay_lines (lines : list (list ascii)) (r : replay_state)
  : option replay_state :=
  match lines with
  | [] => Some r
  | ln :: lines' => r ← replay_line ln r; replay_lines lines' r
  end.

Definition replayTrace (trace_fn : string) (st : state)
    (out : list output) : option result :=
  match fopen trace_fn with
  | None => Some (Exited 1 st (out ++ [OutOpenError trace_fn]))
  | Some lines =>
      r ← replay_lines lines (Replay buf0 0 0 st out);
      Some (Running (r_st r) (r_out r))
  end.

(** ** main *)

(** What [getopt] returns for one option of ["s:E:b:t:vh"]; a numeric
    argument is given as [atoi] read it. *)
Inductive option_arg :=
  | Opt_s (n : Z)
  | Opt_E (n : Z)
  | Opt_b (n : Z)
  | Opt_t (file : string)
  | Opt_v
  | Opt_h
  | Opt_other.

(** The [getopt] loop. *)
Fixpoint parse_args (prog : string) (opts : list option_arg)
    (st : state) (out : list output) : result :=
  match opts with
  | [] => Running st out
  | o :: opts' =>
      match o with
      | Opt_s n => parse_args prog opts' (set_s n st) out
      | Opt_E n => parse_args prog opts' (set_E n st) out
      | Opt_b n => parse_args prog opts' (set_b n st) out
      | Opt_t f => parse_args prog opts' (set_trace_file (Some f) st) out
      | Opt_v => parse_args prog opts' (set_verbosity 1 st) out
      | Opt_h => then_exit 0 (printUsage prog st out)
      | Opt_other => then_exit 1 (printUsage prog st out)
      end
  end.

Definition missing_arg (st : state) : bool :=
  (s st =? 0) || (E st =? 0) || (b st =? 0)
  || bool_decide (trace_file st = None).

Definition main (prog : string) (opts : list option_arg) : option result :=
  match parse_args prog opts initial_state [] with
  | Running st out =>
      if missing_arg st then
        let out := out ++ [OutMissingArg prog] in
        Some (then_exit 1 (printUsage prog st out))
      else
        st ← initCache st;
        r ← replayTrace (default EmptyString (trace_file st)) st out;
        match r with
        | Running st out =>
            st ← freeCache st;
            Some (then_exit 0
                    (printSummary fopen_w (hit_count st) (miss_count st)
                       (eviction_count st) st out))
        | r => Some r
        end
  | r => Some r
  end.

End ReplayTrace.

(** A reading of ["%llx,%u"] for the traces Valgrind writes: hexadecimal
    digits, a comma, decimal digits.  Used to run examples. *)
Definition hex_digit (c : ascii) : option Z :=
  let n := Z.of_N (N_of_ascii c) in
  if (48 <=? n) && (n <=? 57) then Some (n - 48)
  else if (97 <=? n) && (n <=? 102) then Some (n - 87)
  else if (65 <=? n) && (n <=? 70) then Some (n - 55)
  else None.

Definition dec_digit (c : ascii) : option Z :=
  let n := Z.of_N (N_of_ascii c) in
  if (48 <=? n) && (n <=? 57) then Some (n - 48) else None.

Fixpoint scan_digits (digit : ascii → option Z) (base : Z) (acc : Z)
    (seen : bool) (l : list ascii) : option Z * list ascii :=
  match l with
  | c :: l' =>
      match digit c with
      | Some d => scan_digits digit base (acc * base + d) true l'
      | None => (if seen then Some acc else None, l)
      end
  | [] => (if seen then Some acc else None, l)
  end.

Definition scan_llx_u (str : list ascii) (old : Z * Z) : Z * Z :=
  match scan_digits hex_digit 16 0 false str with
  | (Some a, rest) =>
      match rest with
      | c :: rest' =>
          if Ascii.eqb c ","
          then match scan_digits dec_digit 10 0 false rest' with
               | (Some l, _) => (a, l)
               | (None, _) => (a, snd old)
               end
          else (a, snd old)
      | [] => (a, snd old)
      end
  | (None, _) => old
  end.

(** ** The canonical LRU set of the specification *)

Inductive outcome := Hit | MissClean | MissEvict.

Fixpoint remove_tag (t : Z) (set : list Z) : list Z :=
  match set with
  | [] => []
  | x :: set' => if x =? t then set' else x :: remove_tag t set'
  end.

(** Follows the words of the specification, section 4.2: a set is the
    list of the tags of its valid lines, most recently used first.  A tag
    that is present moves to the front; a tag that is absent is put in
    front, after the last tag has been dropped when the set already holds
    [assoc] of them. *)
Definition lru_access (assoc : nat) (t : Z) (set : list Z)
  : list Z * outcome :=
  if bool_decide (t ∈ set) then (t :: remove_tag t set, Hit)
  else if bool_decide (length set < assoc)%nat then (t :: set, MissClean)
  else (t :: removelast set, MissEvict).

(** What an outcome does to the three counters. *)
Definition count_outcome (o : outcome) (hme : Z * Z * Z) : Z * Z * Z :=
  let '(h, m, e) := hme in
  match o with
  | Hit => (to_int (h + 1), m, e)
  | MissClean => (h, to_int (m + 1), e)
  | MissEvict => (h, to_int (m + 1), to_int (e + 1))
  end.

Definition counters (st : state) : Z * Z * Z :=
  (hit_count st, miss_count st, eviction_count st).

(** The state an access with outcome [o] leaves: the counters moved, the
    array of heads [c] and the heap [m]. *)
Definition after_access (o : outcome) (c : list ptr) (m : list cache_line_t)
    (st : state) : state :=
  let '(h, ms, e) := count_outcome o (counters st) in
  State (verbosity st) (s st) (b st) (E st) (trace_file st) (S_sets st)
        ms h e c m.

(** ** The address decoder of the specification *)

(** Follows the words of the specification, section 4.1:
    [setIndex = (address >> b) mod 2^s] and [tag = address >> (s + b)]. *)
Definition set_index (addr : Z) (st : state) : Z :=
  Z.shiftr addr (b st) mod 2 ^ s st.

Definition tag_of (addr : Z) (st : state) : Z :=
  Z.shiftr addr (s st + b st).

(** ** Reading a set out of the heap *)

(** The cells met from [p] on, following [next] until NULL. *)
Fixpoint walk (fuel : nat) (p : ptr) (h : list cache_line_t)
  : option (list cache_line_t) :=
  match p with
  | None => Some []
  | Some l =>
      match fuel with
      | O => None
      | S fuel' => c ← h !! l; r ← walk fuel' (next c) h; Some (c :: r)
      end
  end.

(** The lines of set [i], most recently used first. *)
Definition set_lines (i : nat) (st : state) : option (list cache_line_t) :=
  p ← cache st !! i; walk (length (mem st)) p (mem st).

Definition valid_tags (ls : list cache_line_t) : list Z :=
  tag <$> filter (λ c, valid c = 1) ls.

(** The tags of the valid lines of set [i]. *)
Definition set_tags (i : nat) (st : state) : option (list Z) :=
  valid_tags <$> set_lines i st.

(** ** Runs *)

(** The geometries for which the arithmetic of [initCache] and
    [accessData] stays inside [int]. *)
Definition good_geometry (st : state) : Prop :=
  0 ≤ s st ≤ 30 ∧ 0 ≤ b st ∧ s st + b st ≤ 31 ∧ 1 ≤ E st.

Definition is_addr (a : Z) : Prop := 0 ≤ a < 2 ^ 64.

(** A sequence of calls of [accessData]. *)
Fixpoint access_all (addrs : list Z) (st : state) : option state :=
  match addrs with
  | [] => Some st
  | a :: addrs' => st ← accessData a st; access_all addrs' st
  end.

(** The states [accessData] can be called in: [initCache] has run on
    globals [st0], and any number of accesses have followed. *)
Inductive reachable (st0 : state) : state → Prop :=
  | reach_init st :
      initCache st0 = Some st → reachable st0 st
  | reach_access st addr st' :
      reachable st0 st → is_addr addr → accessData addr st = Some st' →
      reachable st0 st'.

(** The invariant of the specification, section 3, on every set. *)
Definition set_invariant (st : state) : Prop :=
  ∀ i : nat, (i < Z.to_nat (S_sets st))%nat →
    ∃ ts, set_tags i st = Some ts
          ∧ Z.of_nat (length ts) ≤ E st ∧ NoDup ts.

(** ** Representation of a set *)

(** A line of a set as the proofs see it: where it lives and what it
    holds. *)
Record aline := ALine {
  a_loc : nat;
  a_valid : bool;
  a_tag : Z
}.

Definition cell_of (a : aline) (nx : ptr) : cache_line_t :=
  Line (if a_valid a then 1 else 0) (a_tag a) nx.

(** The pointer that leads into [l], or [q] when [l] is empty. *)
Definition ptr_to (l : list aline) (q : ptr) : ptr :=
  match l with
  | [] => q
  | a :: _ => Some (a_loc a)
  end.

(** The cells of [l] are linked in this order and the last links to [q]. *)
Fixpoint seg (h : list cache_line_t) (l : list aline) (q : ptr) : Prop :=
  match l with
  | [] => True
  | a :: l' => h !! a_loc a = Some (cell_of a (ptr_to l' q)) ∧ seg h l' q
  end.

Fixpoint cells_of (l : list aline) (q : ptr) : list cache_line_t :=
  match l with
  | [] => []
  | a :: l' => cell_of a (ptr_to l' q) :: cells_of l' q
  end.

Definition locs (l : list aline) : list nat := a_loc <$> l.

Definition atags (l : list aline) : list Z :=
  a_tag <$> filter (λ a, a_valid a = true) l.

(** The lines [initCache] makes: not valid, tag zero. *)
Definition fresh_line (k : nat) : aline := ALine k false 0.

Definition fresh_lines (k n : nat) : list aline := fresh_line <$> seq k n.

Definition unused (a : aline) : Prop := a_valid a = false ∧ a_tag a = 0.

(** ** The steps of accessData on a represented set *)

Definition is_hit (t : Z) (a : aline) : bool :=
  (t =? a_tag a) && a_valid a.

Definition fill (t : Z) (a : aline) : aline := ALine (a_loc a) true t.

(** [hit_scan] with [line] the last cell of [pre] and [rest] after it. *)
Fixpoint scan_list (n : nat) (t : Z) (pre rest : list aline)
  : option (list aline) :=
  match n, rest with
  | S n', nx :: post =>
      if is_hit t nx then Some (nx :: pre ++ post)
      else scan_list n' t (pre ++ [nx]) post
  | _, _ => None
  end.

(** How far [find_open] walks from the head of [l]. *)
Fixpoint open_pos (l : list aline) : nat :=
  match l with
  | _ :: ((nx :: _ :: _) as l') => if a_valid nx then S (open_pos l') else O
  | _ => O
  end.

(** [miss_fill] on the list, with whether a line was evicted. *)
Definition miss_list (t : Z) (l : list aline) : list aline * bool :=
  match l with
  | [] => (l, false)
  | hd :: tl =>
      if a_valid hd then
        let k := open_pos l in
        match l !! k, l !! S k with
        | Some c, Some nx =>
            if a_valid nx then (fill t nx :: take (S k) l, true)
            else (fill t nx :: take (S k) l ++ drop (S (S k)) l, false)
        | Some c, None => (<[k := fill t c]> l, true)
        | None, _ => (l, false)
        end
      else (fill t hd :: tl, false)
  end.

(** [accessData] on the list of its set. *)
Definition access_list (n : nat) (t : Z) (l : list aline)
  : list aline * outcome :=
  match l with
  | [] => (l, MissClean)
  | hd :: tl =>
      if is_hit t hd then (l, Hit)
      else match scan_list n t [hd] tl with
           | Some l' => (l', Hit)
           | None =>
               let '(l', ev) := miss_list t l in
               (l', if ev then MissEvict else MissClean)
           end
  end.

(** ** The invariant of the heap *)

(** The lists [sets] are in the heap [m]: each is a NULL-terminated list
    of [assoc] cells, and no cell is in two places. *)
Record sets_ok (assoc : Z) (m : list cache_line_t)
    (sets : list (list aline)) : Prop := {
  ok_seg : ∀ i l, sets !! i = Some l → seg m l None;
  ok_size : ∀ i l, sets !! i = Some l → Z.of_nat (length l) = assoc;
  ok_nodup : ∀ i l, sets !! i = Some l → NoDup (locs l);
  ok_disj : ∀ i j li lj x, i ≠ j →
            sets !! i = Some li → sets !! j = Some lj →
            x ∈ locs li → x ∉ locs lj
}.

(** [sets] lists, for every set, its lines in list order.  The geometry is
    good and [cache] has one head per set. *)
Record wf (st : state) (sets : list (list aline)) : Prop := {
  wf_geom : good_geometry st;
  wf_S : S_sets st = 2 ^ s st;
  wf_len : length sets = Z.to_nat (S_sets st);
  wf_cache : cache st = (λ l, ptr_to l None) <$> sets;
  wf_sets : sets_ok (E st) (mem st) sets
}.

(** The invariant the proofs carry: the heap is well formed and no set
    holds a tag twice. *)
Definition inv (st : state) (sets : list (list aline)) : Prop :=
  wf st sets ∧ Forall (λ l, NoDup (atags l)) sets.

(** ** Vocabulary of the statements, and inputs to run *)

(** The globals after the command line has set [s], [E] and [b]. *)
Definition config (s0 e0 b0 : Z) : state :=
  set_b b0 (set_E e0 (set_s s0 initial_state)).

(** The cache [initCache] builds for that geometry. *)
Definition fresh_cache (s0 e0 b0 : Z) : state :=
  default initial_state (initCache (config s0 e0 b0)).

(** The second character of a line, [NUL] when it has none. *)
Definition second_char (ln : list ascii) : ascii :=
  default NUL (ln !! 1%nat).

(** Follows the words of the specification, section 8: the accesses a
    line stands for, one for an [L] or [S] record and two for an [M]
    record. *)
Definition line_accesses (ln : list ascii) : Z :=
  let c := second_char ln in
  if Ascii.eqb c "M" then 2
  else if Ascii.eqb c "L" || Ascii.eqb c "S" then 1
  else 0.

Definition trace_accesses (lines : list (list ascii)) : Z :=
  foldr (λ ln n, line_accesses ln + n) 0 lines.

(** A line is recognised when its second character is one of the three
    letters. *)
Definition recognised (ln : list ascii) : Prop :=
  second_char ln = "L"%char ∨ second_char ln = "S"%char
  ∨ second_char ln = "M"%char.

(** The condition of the check in [main], as a proposition. *)
Definition missing (st : state) : Prop :=
  s st = 0 ∨ E st = 0 ∨ b st = 0 ∨ trace_file st = None.

(** Lines of a trace, as [fgets] delivers them. *)
Definition trace_lines (l : list string) : list (list ascii) :=
  list_ascii_of_string <$> l.

(** [replayTrace] about to read its first line on a new cache. *)
Definition fresh_replay (s0 e0 b0 : Z) : replay_state :=
  Replay [] 0 0 (fresh_cache s0 e0 b0) [].

(** A file system with one trace, whatever the name asked for. *)
Definition one_file (l : list string) (name : string)
  : option (list (list ascii)) :=
  Some (trace_lines l).

(** The counters after a trace has been replayed on a new cache. *)
Definition replay_counts (s0 e0 b0 : Z) (l : list string)
  : option (Z * Z * Z) :=
  r ← replay_lines scan_llx_u (trace_lines l) (fresh_replay s0 e0 b0);
  Some (counters (r_st r)).

(** The number of valid lines in the whole cache. *)
Definition valid_lines (st : state) : nat :=
  sum_list ((λ i, length (default [] (set_tags i st)))
              <$> seq 0 (length (cache st))).

(** The first [n] accesses of a trace that goes round [addrs] again and
    again. *)
Fixpoint round_robin (n : nat) (addrs : list Z) : list Z :=
  match n, addrs with
  | S n', a :: rest => a :: round_robin n' (rest ++ [a])
  | _, _ => []
  end.

(** Move-to-front: [t] becomes the most recent of the tags [acc]. *)
Definition mtf (acc : list Z) (t : Z) : list Z := t :: remove_tag t acc.

(** The different tags of a history (oldest access first), the most
    recently used first. *)
Definition mru (tags : list Z) : list Z := foldl mtf [] tags.

(** The tags of the accesses of a trace that fall in set [i]. *)
Definition set_history (i : nat) (st : state) (addrs : list Z) : list Z :=
  (λ a, tag_of a st) <$> filter (λ a, Z.to_nat (set_index a st) = i) addrs.

(** A file system in which no file can be opened. *)
Definition no_file (name : string) : option (list (list ascii)) := None.

(** A directory in which every file can be written, and one in which
    none can. *)
Definition writable (name : string) : bool := true.
Definition read_only (name : string) : bool := false.

(** * Proofs *)

Set Warnings "-clear-no-such-hyp".

Arguments to_int : simpl never.
Arguments to_ull : simpl never.

(** ** Machine integers *)

Lemma to_int_small z : - 2 ^ 31 ≤ z < 2 ^ 31 → to_int z = z.
Proof.
  intros Hz. unfold to_int.
  rewrite Z.mod_small by lia. lia.
Qed.

Lemma to_ull_small z : 0 ≤ z < 2 ^ 64 → to_ull z = z.
Proof. intros Hz. unfold to_ull. by rewrite Z.mod_small. Qed.

Lemma to_int_succ_ne z : to_int (z + 1) ≠ z.
Proof.
  unfold to_int. intros Heq.
  pose proof (Z.div_mod (z + 1 + 2 ^ 31) (2 ^ 32)) as Hdm.
  lia.
Qed.

Lemma pow2_le_mono a c : 0 ≤ a ≤ c → 2 ^ a ≤ 2 ^ c.
Proof. intros. apply Z.pow_le_mono_r; lia. Qed.

Lemma mask_of_spec st :
  0 ≤ s st → 0 ≤ b st → s st + b st ≤ 31 →
  mask_of st = Some (Z.shiftl (Z.ones (s st)) (b st)).
Proof.
  intros Hs Hb Hsb. unfold mask_of, shl_int.
  assert (Hp : 0 < 2 ^ s st) by (apply Z.pow_pos_nonneg; lia).
  assert (Hps : 2 ^ s st ≤ 2 ^ 31) by (apply pow2_le_mono; lia).
  assert (Hpb : 0 < 2 ^ b st) by (apply Z.pow_pos_nonneg; lia).
  assert (Hsum : 2 ^ s st * 2 ^ b st ≤ 2 ^ 31).
  { rewrite <- Z.pow_add_r by lia. apply pow2_le_mono; lia. }
  destruct (decide (s st = 31)) as [H31|H31].
  - (* only b = 0 is left, and the mask is all ones below bit 31 *)
    assert (b st = 0) as Hb0 by lia.
    rewrite H31, Hb0. reflexivity.
  - assert (Hps' : 2 ^ s st ≤ 2 ^ 30) by (apply pow2_le_mono; lia).
    replace ((0 <=? s st) && (s st <? 32)) with true
      by (symmetry; apply andb_true_iff; lia).
    replace ((0 <=? b st) && (b st <? 32)) with true
      by (symmetry; apply andb_true_iff; lia).
    cbn [mbind option_bind].
    rewrite Z.shiftl_1_l.
    rewrite (to_int_small (2 ^ s st)) by lia.
    rewrite (to_int_small (2 ^ s st - 1)) by lia.
    rewrite Z.shiftl_mul_pow2 by lia.
    rewrite to_int_small by nia.
    rewrite to_ull_small by nia.
    rewrite Z.ones_equiv, Z.shiftl_mul_pow2 by lia.
    f_equal; lia.
Qed.

Lemma s_bits_of_spec addr st :
  0 ≤ s st ≤ 30 → 0 ≤ b st → s st + b st ≤ 31 →
  s_bits_of addr st = Some (Z.shiftr addr (b st) mod 2 ^ s st).
Proof.
  intros Hs Hb Hsb. unfold s_bits_of.
  rewrite mask_of_spec by lia. cbn [mbind option_bind].
  unfold shr_ull.
  replace ((0 <=? b st) && (b st <? 64)) with true
    by (symmetry; apply andb_true_iff; lia).
  cbn [mbind option_bind]. f_equal.
  rewrite Z.shiftr_land, Z.shiftr_shiftl_l, Z.sub_diag, Z.shiftl_0_r by lia.
  rewrite Z.land_comm, Z.land_ones by lia.
  assert (Hps : 2 ^ s st ≤ 2 ^ 30) by (apply pow2_le_mono; lia).
  pose proof (Z.mod_pos_bound (Z.shiftr addr (b st)) (2 ^ s st)) as Hm.
  assert (0 < 2 ^ s st) by (apply Z.pow_pos_nonneg; lia).
  apply to_int_small. lia.
Qed.

Lemma t_bits_of_spec addr st :
  0 ≤ s st → 0 ≤ b st → s st + b st ≤ 31 →
  t_bits_of addr st = Some (Z.shiftr addr (s st + b st)).
Proof.
  intros Hs Hb Hsb. unfold t_bits_of, shr_ull.
  rewrite to_int_small by lia.
  replace ((0 <=? s st + b st) && (s st + b st <? 64)) with true
    by (symmetry; apply andb_true_iff; lia).
  done.
Qed.

(** ** Segments of the heap *)

Lemma ptr_to_app l1 l2 q : ptr_to (l1 ++ l2) q = ptr_to l1 (ptr_to l2 q).
Proof. by destruct l1. Qed.

Lemma seg_app h l1 l2 q :
  seg h (l1 ++ l2) q ↔ seg h l1 (ptr_to l2 q) ∧ seg h l2 q.
Proof.
  induction l1 as [|a l1 IH]; simpl; [tauto|].
  rewrite ptr_to_app, IH. tauto.
Qed.

Lemma seg_frame h h' l q :
  (∀ k, k ∈ locs l → h' !! k = h !! k) → seg h l q → seg h' l q.
Proof.
  unfold locs. induction l as [|a l IH]; simpl; [done|].
  intros Hk [Ha Hl]. split.
  - rewrite Hk; [done|]. apply elem_of_cons. by left.
  - apply IH; [|done]. intros k Hin. apply Hk. apply elem_of_cons. by right.
Qed.

Lemma seg_locs_lt h l q k : seg h l q → k ∈ locs l → (k < length h)%nat.
Proof.
  unfold locs. induction l as [|a l IH]; simpl; [set_solver|].
  intros [Ha Hl] Hin. apply elem_of_cons in Hin.
  destruct Hin as [Heq|Hin']; [|by apply IH].
  subst k. by apply lookup_lt_Some in Ha.
Qed.

Lemma seg_insert h l q k c :
  k ∉ locs l → seg h l q → seg (<[k:=c]> h) l q.
Proof.
  intros Hk. apply seg_frame. intros k' Hin.
  apply list_lookup_insert_ne. intros ->. done.
Qed.

Lemma seg_grow h l q c : seg h l q → seg (h ++ [c]) l q.
Proof.
  intros Hs. eapply seg_frame; [|done]. intros k Hin.
  apply lookup_app_l. by eapply seg_locs_lt.
Qed.

Lemma seg_lookup h l q i a :
  seg h l q → l !! i = Some a →
  h !! a_loc a = Some (cell_of a (ptr_to (drop (S i) l) q)).
Proof.
  revert i. induction l as [|a' l IH]; intros i Hs Hi; [done|].
  destruct Hs as [Ha Hl]. destruct i as [|i]; simpl in *.
  - injection Hi as ->. by rewrite drop_0.
  - by apply IH.
Qed.

Lemma nodup_bound (l : list nat) n :
  NoDup l → (∀ x, x ∈ l → (x < n)%nat) → (length l ≤ n)%nat.
Proof.
  intros Hnd Hlt.
  assert (l ⊆+ seq 0 n) as Hsub.
  { apply NoDup_submseteq; [done|]. intros x Hx. apply elem_of_seq.
    specialize (Hlt x Hx). lia. }
  apply submseteq_length in Hsub. by rewrite length_seq in Hsub.
Qed.

Lemma seg_length h l q :
  seg h l q → NoDup (locs l) → (length l ≤ length h)%nat.
Proof.
  intros Hs Hnd. replace (length l) with (length (locs l))
    by (unfold locs; apply length_fmap).
  apply nodup_bound; [done|]. intros x Hx. by eapply seg_locs_lt.
Qed.

Lemma walk_seg h l fuel :
  seg h l None → (length l ≤ fuel)%nat →
  walk fuel (ptr_to l None) h = Some (cells_of l None).
Proof.
  revert fuel. induction l as [|a l IH]; intros fuel Hs Hf.
  - by destruct fuel.
  - destruct Hs as [Ha Hl]. destruct fuel as [|fuel]; simpl in *; [lia|].
    rewrite Ha. simpl. rewrite IH by (done || lia). done.
Qed.

Lemma valid_tags_cells l q : valid_tags (cells_of l q) = atags l.
Proof.
  unfold valid_tags, atags. induction l as [|a l IH]; [done|].
  simpl. rewrite !filter_cons. simpl.
  destruct (a_valid a); simpl; repeat case_decide; try done.
  simpl. f_equal. exact IH.
Qed.

(** ** One step of the program on the state *)

Lemma load_Some k c st : mem st !! k = Some c → load (Some k) st = Some c.
Proof. done. Qed.

Lemma load_next_Some k c st :
  mem st !! k = Some c → load_next (Some k) st = Some (next c).
Proof. intros H. unfold load_next. by rewrite (load_Some _ _ _ H). Qed.

Lemma store_Some k c f st :
  mem st !! k = Some c →
  store (Some k) f st = Some (set_mem (<[k := f c]> (mem st)) st).
Proof. intros H. unfold store. simpl. by rewrite H. Qed.

Lemma cache_store_Some i p q st :
  cache_at i st = Some p →
  cache_store i q st = Some (set_cache (<[Z.to_nat i := q]> (cache st)) st).
Proof. intros H. unfold cache_store. by rewrite H. Qed.

Lemma valid_cell_eqb a q : (valid (cell_of a q) =? 1) = a_valid a.
Proof. by destruct a as [? [] ?]. Qed.

Lemma valid_cell_eqb0 a q : (valid (cell_of a q) =? 0) = negb (a_valid a).
Proof. by destruct a as [? [] ?]. Qed.

Lemma ptr_to_mid pre cur rest q q' :
  ptr_to (pre ++ cur :: rest) q = ptr_to (pre ++ [cur]) q'.
Proof. by destruct pre. Qed.

Lemma is_hit_cell t a q :
  (t =? tag (cell_of a q)) && (valid (cell_of a q) =? 1) = is_hit t a.
Proof. unfold is_hit. by rewrite valid_cell_eqb. Qed.


Lemma hit_scan_S n i t line st :
  hit_scan (S n) i t line st =
    (ln ← load_next line st;
     nx ← load ln st;
     if (t =? tag nx) && (valid nx =? 1) then
       let st := incr_hit st in
       next_first ← load_next line st;
       after_next_first ← (ln ← load_next line st; load_next ln st);
       st ← store_next line after_next_first st;
       curr_first ← cache_at i st;
       st ← cache_store i next_first st;
       st ← store_next next_first curr_first st;
       Some (true, st)
     else
       ln ← load_next line st;
       let line := if ln is Some _ then ln else line in
       hit_scan n i t line st).
Proof. done. Qed.

Lemma cache_at_set_mem i m st : cache_at i (set_mem m st) = cache_at i st.
Proof. done. Qed.
Lemma cache_at_incr_hit i st : cache_at i (incr_hit st) = cache_at i st.
Proof. done. Qed.
Lemma cache_at_incr_miss i st : cache_at i (incr_miss st) = cache_at i st.
Proof. done. Qed.
Lemma cache_at_incr_evict i st : cache_at i (incr_evict st) = cache_at i st.
Proof. done. Qed.

Ltac bind_step := cbn [mbind option_bind].

(** [k ∉ locs l] from the pieces of a [NoDup] that has been taken apart. *)
Ltac notin_locs :=
  unfold locs in *; set_solver.

Lemma hit_scan_sim n : ∀ st i t pre cur rest,
  cache_at i st = Some (ptr_to (pre ++ cur :: rest) None) →
  seg (mem st) (pre ++ cur :: rest) None →
  NoDup (locs (pre ++ cur :: rest)) →
  (n ≤ length rest)%nat →
  match scan_list n t (pre ++ [cur]) rest with
  | Some l' =>
      ∃ m', hit_scan n i t (Some (a_loc cur)) st =
              Some (true, set_mem m'
                      (set_cache (<[Z.to_nat i := ptr_to l' None]> (cache st))
                         (incr_hit st)))
            ∧ seg m' l' None
            ∧ length m' = length (mem st)
            ∧ (∀ k, k ∉ locs (pre ++ cur :: rest) → m' !! k = mem st !! k)
  | None => hit_scan n i t (Some (a_loc cur)) st = Some (false, st)
  end.
Proof.
  induction n as [|n IH]; intros st i t pre cur rest Hc Hs Hnd Hn.
  { done. }
  destruct rest as [|nx post]; [simpl in Hn; lia|].
  pose proof Hs as Hs0. pose proof Hnd as Hnd0.
  apply seg_app in Hs as [Hpre [Hcur [Hnx Hpost]]].
  simpl in Hcur.
  unfold locs in Hnd. rewrite fmap_app, !fmap_cons in Hnd.
  apply NoDup_app in Hnd as (Hnd1 & Hnd2 & Hnd3).
  apply NoDup_cons in Hnd3 as [Hnd3 Hnd4].
  apply NoDup_cons in Hnd4 as [Hnd4 Hnd5].
  assert (Hne : a_loc cur ≠ a_loc nx)
    by (intros Heq; apply Hnd3; rewrite Heq; left).
  assert (Hlc : (a_loc cur < length (mem st))%nat)
    by (by apply lookup_lt_Some in Hcur).
  assert (Hln : (a_loc nx < length (mem st))%nat)
    by (by apply lookup_lt_Some in Hnx).
  simpl scan_list. rewrite hit_scan_S.
  rewrite (load_next_Some _ _ _ Hcur). bind_step. cbn [next cell_of].
  rewrite (load_Some _ _ _ Hnx). bind_step.
  rewrite is_hit_cell.
  destruct (is_hit t nx) eqn:Hhit.
  - cbv zeta.
    rewrite (load_next_Some _ _ (incr_hit st) Hcur). bind_step.
    cbn [next cell_of].
    rewrite (load_next_Some _ _ (incr_hit st) Hnx). bind_step.
    cbn [next cell_of].
    unfold store_next.
    rewrite (store_Some _ _ _ (incr_hit st) Hcur). bind_step.
    rewrite cache_at_set_mem, cache_at_incr_hit, Hc. bind_step.
    erewrite cache_store_Some
      by (rewrite cache_at_set_mem, cache_at_incr_hit; exact Hc).
    bind_step.
    erewrite store_Some; cycle 1.
    { cbn [mem set_mem set_cache]. rewrite list_lookup_insert_ne by done.
      exact Hnx. }
    bind_step.
    cbn [mem set_mem set_cache incr_hit cache valid tag next cell_of].
    eexists. split; [reflexivity|].
    split; [|split].
    + split.
      * rewrite list_lookup_insert_eq by (by rewrite length_insert).
        unfold cell_of. do 2 f_equal. by destruct pre.
      * apply seg_app. split; [apply seg_app; split|].
        -- apply seg_insert; [notin_locs|]. apply seg_insert; [notin_locs|].
           exact Hpre.
        -- split; [|done].
           rewrite list_lookup_insert_ne by done.
           by rewrite list_lookup_insert_eq.
        -- apply seg_insert; [notin_locs|]. apply seg_insert; [notin_locs|].
           exact Hpost.
    + by rewrite !length_insert.
    + intros k Hk. unfold locs in Hk. rewrite fmap_app, !fmap_cons in Hk.
      rewrite !list_lookup_insert_ne; [done|set_solver..].
  - specialize (IH st i t (pre ++ [cur]) nx post).
    rewrite <- !app_assoc in IH. rewrite <- app_assoc.
    simpl in IH, Hn. apply IH; [done..|lia].
Qed.

Lemma find_open_S fuel check st :
  find_open (S fuel) check st =
    (c ← open_cond check st;
     if (c : bool) then (cn ← load_next check st; find_open fuel cn st)
     else Some check).
Proof. done. Qed.

Lemma open_pos_cons c nx n2 l :
  open_pos (c :: nx :: n2 :: l)
  = if a_valid nx then S (open_pos (nx :: n2 :: l)) else O.
Proof. done. Qed.

Lemma open_pos_bound l : open_pos l = O ∨ (open_pos l + 2 ≤ length l)%nat.
Proof.
  induction l as [|c l IH]; [by left|].
  destruct l as [|nx [|n2 l]]; [by left..|].
  rewrite open_pos_cons. destruct (a_valid nx); [|by left].
  right. cbn [length] in *. destruct IH as [->|IH]; lia.
Qed.

Lemma open_pos_stop l nx :
  l !! S (open_pos l) = Some nx → a_valid nx = true →
  l !! S (S (open_pos l)) = None.
Proof.
  induction l as [|c l IH]; [done|].
  destruct l as [|nx' [|n2 l]]; [done..|].
  rewrite open_pos_cons. destruct (a_valid nx') eqn:Hv.
  - intros Hl Hnx. apply IH; done.
  - intros Hl Hnx. simpl in Hl. congruence.
Qed.

Lemma find_open_sim l : ∀ fuel st c l0,
  l = c :: l0 → seg (mem st) l None → (open_pos l < fuel)%nat →
  find_open fuel (Some (a_loc c)) st
  = Some (ptr_to (drop (open_pos l) l) None).
Proof.
  induction l as [|c' l IH]; intros fuel st c l0 Hl Hs Hf; [done|].
  injection Hl as -> ->.
  destruct fuel as [|fuel]; [lia|].
  rewrite find_open_S. unfold open_cond.
  destruct Hs as [Hc Hs].
  rewrite (load_next_Some _ _ _ Hc). bind_step. cbn [next cell_of].
  destruct l0 as [|nx l1]; [done|].
  destruct Hs as [Hnx Hs1]. cbn [ptr_to].
  rewrite (load_Some _ _ _ Hnx). bind_step.
  rewrite valid_cell_eqb. cbn [next cell_of].
  destruct l1 as [|n2 l2].
  - cbn [open_pos ptr_to]. destruct (a_valid nx); done.
  - rewrite open_pos_cons in Hf |- *. destruct (a_valid nx) eqn:Hv; [|done].
    cbn [ptr_to]. rewrite bool_decide_true by done. bind_step.
    erewrite IH; [done|done|by split|lia].
Qed.

Ltac lookup_tac :=
  cbn [mem set_mem set_cache incr_evict incr_miss incr_hit];
  repeat first
    [ rewrite list_lookup_insert_eq by (rewrite ?length_insert; assumption)
    | rewrite list_lookup_insert_ne by assumption ];
  first [eassumption | reflexivity].

Ltac cache_tac :=
  rewrite ?cache_at_set_mem, ?cache_at_incr_evict, ?cache_at_incr_miss,
    ?cache_at_incr_hit; eassumption.

Ltac exec_step :=
  first
    [ progress (cbn [mbind option_bind next cell_of])
    | erewrite load_next_Some by lookup_tac
    | erewrite load_Some by lookup_tac
    | erewrite store_Some by lookup_tac
    | erewrite cache_store_Some by cache_tac
    | rewrite cache_at_set_mem
    | rewrite cache_at_incr_evict
    | rewrite cache_at_incr_miss
    | rewrite cache_at_incr_hit ].

Ltac exec_load_next :=
  erewrite load_next_Some by lookup_tac; bind_step; cbn [next cell_of].
Ltac exec_load :=
  erewrite load_Some by lookup_tac; bind_step.
Ltac exec_store :=
  erewrite store_Some by lookup_tac; bind_step.

Lemma fill_line_e0 i t check st :
  fill_line i t 0 check st =
    (st ← store_tag check t st; store_valid check 1 st).
Proof. done. Qed.

Lemma fill_line_e1 i t check st :
  fill_line i t 1 check st =
   (cn ← load_next check st;
    cnv ← (if cn is Some _ then c ← load cn st; Some (valid c =? 0)
           else Some false);
    if (cnv : bool) then
      after_next ← (cn ← load_next check st; load_next cn st);
      curr_first ← cache_at i st;
      cn ← load_next check st;
      st ← cache_store i cn st;
      cn ← load_next check st;
      st ← store_next cn curr_first st;
      cn ← load_next check st;
      st ← store_tag cn t st;
      cn ← load_next check st;
      st ← store_valid cn 1 st;
      store_next check after_next st
    else if cn is None then
      st ← store_tag check t st;
      st ← store_valid check 1 st;
      Some (incr_evict st)
    else
      let st := incr_evict st in
      cn ← load_next check st;
      st ← store_tag cn t st;
      cn ← load_next check st;
      st ← store_valid cn 1 st;
      curr_first ← cache_at i st;
      cn ← load_next check st;
      st ← store_next cn curr_first st;
      cn ← load_next check st;
      st ← cache_store i cn st;
      store_next check None st).
Proof. done. Qed.

(** The head is invalid: it is filled where it is. *)
Lemma fill_line_head i t hd tl st :
  seg (mem st) (hd :: tl) None →
  NoDup (locs (hd :: tl)) →
  ∃ m', fill_line i t 0 (Some (a_loc hd)) st = Some (set_mem m' st)
        ∧ seg m' (fill t hd :: tl) None
        ∧ length m' = length (mem st)
        ∧ (∀ k, k ∉ locs (hd :: tl) → m' !! k = mem st !! k).
Proof.
  intros Hs Hnd. pose proof Hs as [Hhd Htl].
  unfold locs in Hnd. rewrite fmap_cons in Hnd.
  apply NoDup_cons in Hnd as [Hnd1 Hnd2].
  assert (Hlt : (a_loc hd < length (mem st))%nat)
    by (by apply lookup_lt_Some in Hhd).
  rewrite fill_line_e0. unfold store_tag, store_valid.
  exec_store. exec_store.
  cbn [mem set_mem valid tag next cell_of].
  eexists. split; [reflexivity|]. split; [|split].
  - split.
    + by rewrite list_lookup_insert_eq by (by rewrite length_insert).
    + apply seg_insert; [notin_locs|]. by apply seg_insert; [notin_locs|].
  - by rewrite !length_insert.
  - intros k Hk. rewrite !list_lookup_insert_ne; [done|notin_locs..].
Qed.

(** [check] is the last cell: it is overwritten, which evicts it. *)
Lemma fill_line_last i t pre ck st :
  seg (mem st) (pre ++ [ck]) None →
  NoDup (locs (pre ++ [ck])) →
  ∃ m', fill_line i t 1 (Some (a_loc ck)) st
          = Some (incr_evict (set_mem m' st))
        ∧ seg m' (pre ++ [fill t ck]) None
        ∧ length m' = length (mem st)
        ∧ (∀ k, k ∉ locs (pre ++ [ck]) → m' !! k = mem st !! k).
Proof.
  intros Hs Hnd. pose proof Hs as Hs0.
  apply seg_app in Hs as [Hpre [Hck _]].
  unfold locs in Hnd. rewrite fmap_app, fmap_cons in Hnd.
  apply NoDup_app in Hnd as (Hnd1 & Hnd2 & Hnd3).
  assert (Hlt : (a_loc ck < length (mem st))%nat)
    by (by apply lookup_lt_Some in Hck).
  rewrite fill_line_e1.
  exec_load_next. cbn [ptr_to]. bind_step.
  unfold store_tag, store_valid.
  exec_store. exec_store.
  cbn [mem set_mem valid tag next cell_of].
  eexists. split; [reflexivity|]. split; [|split].
  - apply seg_app. split.
    + apply seg_insert; [notin_locs|]. by apply seg_insert; [notin_locs|].
    + split; [|done].
      by rewrite list_lookup_insert_eq by (by rewrite length_insert).
  - by rewrite !length_insert.
  - intros k Hk. unfold locs in Hk. rewrite fmap_app, fmap_cons in Hk.
    rewrite !list_lookup_insert_ne; [done|set_solver..].
Qed.

Section Splice.

Context (i t : Z) (pre post : list aline) (ck nx : aline) (st : state).
Hypothesis Hc : cache_at i st = Some (ptr_to (pre ++ ck :: nx :: post) None).
Hypothesis Hs : seg (mem st) (pre ++ ck :: nx :: post) None.
Hypothesis Hnd : NoDup (locs (pre ++ ck :: nx :: post)).

(** The cell after [check] is open: it is unlinked, filled and put in
    front. *)
Lemma fill_line_open :
  a_valid nx = false →
  ∃ m', fill_line i t 1 (Some (a_loc ck)) st
          = Some (set_mem m'
                    (set_cache (<[Z.to_nat i := Some (a_loc nx)]> (cache st))
                               st))
        ∧ seg m' (fill t nx :: (pre ++ [ck]) ++ post) None
        ∧ length m' = length (mem st)
        ∧ (∀ k, k ∉ locs (pre ++ ck :: nx :: post) → m' !! k = mem st !! k).
Proof.
  intros Hv. pose proof Hs as Hs0. pose proof Hnd as Hnd0.
  apply seg_app in Hs0 as [Hpre [Hck [Hnx Hpost]]].
  cbn [ptr_to] in Hck.
  unfold locs in Hnd0. rewrite fmap_app, !fmap_cons in Hnd0.
  apply NoDup_app in Hnd0 as (Hnd1 & Hnd2 & Hnd3).
  apply NoDup_cons in Hnd3 as [Hnd3 Hnd4].
  apply NoDup_cons in Hnd4 as [Hnd4 Hnd5].
  assert (Hne : a_loc ck ≠ a_loc nx)
    by (intros Heq; apply Hnd3; rewrite Heq; left).
  assert (Hne' : a_loc nx ≠ a_loc ck) by done.
  assert (Hlc : (a_loc ck < length (mem st))%nat)
    by (by apply lookup_lt_Some in Hck).
  assert (Hln : (a_loc nx < length (mem st))%nat)
    by (by apply lookup_lt_Some in Hnx).
  rewrite fill_line_e1.
  exec_load_next. exec_load. rewrite valid_cell_eqb0, Hv. cbn [negb].
  unfold store_next, store_tag, store_valid.
  repeat exec_step. rewrite Hc. repeat exec_step.
  cbn [mem set_mem set_cache valid tag next cell_of].
  eexists. split; [reflexivity|]. split; [|split].
  - split.
    + rewrite list_lookup_insert_ne by done.
      rewrite list_lookup_insert_eq by (by rewrite !length_insert).
      unfold cell_of, fill. cbn. do 2 f_equal. by destruct pre.
    + apply seg_app. split; [apply seg_app; split|].
      * do 4 (apply seg_insert; [notin_locs|]). exact Hpre.
      * split; [|done].
        by rewrite list_lookup_insert_eq by (by rewrite !length_insert).
      * do 4 (apply seg_insert; [notin_locs|]). exact Hpost.
  - by rewrite !length_insert.
  - intros k Hk. unfold locs in Hk. rewrite fmap_app, !fmap_cons in Hk.
    rewrite !list_lookup_insert_ne; [done|set_solver..].
Qed.

(** The cell after [check] is valid (and the last one): it is evicted,
    refilled and put in front, and [check] becomes the last. *)
Lemma fill_line_evict :
  a_valid nx = true →
  ∃ m', fill_line i t 1 (Some (a_loc ck)) st
          = Some (set_mem m'
                    (set_cache (<[Z.to_nat i := Some (a_loc nx)]> (cache st))
                               (incr_evict st)))
        ∧ seg m' (fill t nx :: pre ++ [ck]) None
        ∧ length m' = length (mem st)
        ∧ (∀ k, k ∉ locs (pre ++ ck :: nx :: post) → m' !! k = mem st !! k).
Proof.
  intros Hv. pose proof Hs as Hs0. pose proof Hnd as Hnd0.
  apply seg_app in Hs0 as [Hpre [Hck [Hnx Hpost]]].
  cbn [ptr_to] in Hck.
  unfold locs in Hnd0. rewrite fmap_app, !fmap_cons in Hnd0.
  apply NoDup_app in Hnd0 as (Hnd1 & Hnd2 & Hnd3).
  apply NoDup_cons in Hnd3 as [Hnd3 Hnd4].
  apply NoDup_cons in Hnd4 as [Hnd4 Hnd5].
  assert (Hne : a_loc ck ≠ a_loc nx)
    by (intros Heq; apply Hnd3; rewrite Heq; left).
  assert (Hne' : a_loc nx ≠ a_loc ck) by done.
  assert (Hlc : (a_loc ck < length (mem st))%nat)
    by (by apply lookup_lt_Some in Hck).
  assert (Hln : (a_loc nx < length (mem st))%nat)
    by (by apply lookup_lt_Some in Hnx).
  rewrite fill_line_e1.
  exec_load_next. exec_load. rewrite valid_cell_eqb0, Hv. cbn [negb].
  cbv zeta. unfold store_next, store_tag, store_valid.
  repeat exec_step. rewrite Hc. repeat exec_step.
  cbn [mem set_mem set_cache incr_evict cache valid tag next cell_of].
  eexists. split; [reflexivity|]. split; [|split].
  - split.
    + rewrite list_lookup_insert_ne by done.
      rewrite list_lookup_insert_eq by (by rewrite !length_insert).
      unfold cell_of, fill. cbn. do 2 f_equal. by destruct pre.
    + apply seg_app; split.
      * do 4 (apply seg_insert; [notin_locs|]). exact Hpre.
      * split; [|done].
        by rewrite list_lookup_insert_eq by (by rewrite !length_insert).
  - by rewrite !length_insert.
  - intros k Hk. unfold locs in Hk. rewrite fmap_app, !fmap_cons in Hk.
    rewrite !list_lookup_insert_ne; [done|set_solver..].
Qed.

End Splice.

Lemma cache_at_lookup i p st :
  cache_at i st = Some p → cache st !! Z.to_nat i = Some p.
Proof. unfold cache_at. by destruct (i <? 0). Qed.

Lemma cache_insert_same i p st :
  cache_at i st = Some p → <[Z.to_nat i := p]> (cache st) = cache st.
Proof. intros H. apply list_insert_id. by apply cache_at_lookup. Qed.

Lemma miss_fill_unfold i t st :
  miss_fill i t st =
    (check ← cache_at i st;
     let st := incr_miss st in
     c ← load check st;
     let e := if valid c =? 0 then 0 else 1 in
     check ← (if e =? 0 then Some check
              else find_open (length (mem st)) check st);
     fill_line i t e check st).
Proof. done. Qed.

Lemma miss_fill_sim i t l st l' ev :
  l ≠ [] →
  cache_at i st = Some (ptr_to l None) →
  seg (mem st) l None →
  NoDup (locs l) →
  miss_list t l = (l', ev) →
  ∃ m', miss_fill i t st
          = Some (after_access (if ev then MissEvict else MissClean)
                    (<[Z.to_nat i := ptr_to l' None]> (cache st)) m' st)
        ∧ seg m' l' None
        ∧ length m' = length (mem st)
        ∧ (∀ k, k ∉ locs l → m' !! k = mem st !! k).
Proof.
  intros Hne Hc Hs Hnd Hml.
  destruct l as [|hd tl]; [done|]. clear Hne.
  pose proof Hs as [Hhd Htl].
  pose proof (seg_length _ _ _ Hs Hnd) as Hlen.
  rewrite miss_fill_unfold, Hc. bind_step. cbv zeta.
  cbn [ptr_to]. erewrite load_Some by exact Hhd. bind_step.
  rewrite valid_cell_eqb0.
  unfold miss_list in Hml.
  destruct (a_valid hd) eqn:Hv; cbn [negb].
  - (* the head is valid: look for an open line *)
    change (1 =? 0) with false. cbv iota. cbv zeta in Hml.
    set (l := hd :: tl) in *.
    erewrite (find_open_sim l _ (incr_miss st) hd tl);
      [|done|exact Hs|]; cycle 1.
    { cbn [mem incr_miss]. destruct (open_pos_bound l) as [->|Hb]; [|lia].
      unfold l in Hlen. cbn [length] in Hlen. lia. }
    bind_step.
    destruct (l !! open_pos l) as [ck|] eqn:Hk; cycle 1.
    { apply lookup_ge_None in Hk.
      destruct (open_pos_bound l) as [H0|Hb]; [|lia].
      rewrite H0 in Hk. unfold l in Hk. cbn [length] in Hk. lia. }
    rewrite (drop_S _ _ _ Hk). cbn [ptr_to].
    destruct (l !! S (open_pos l)) as [nx|] eqn:HSk.
    + (* a cell follows [check] *)
      assert (Hl : l = take (open_pos l) l ++ ck :: nx
                       :: drop (S (S (open_pos l))) l).
      { rewrite <- (drop_S _ _ _ HSk). by rewrite take_drop_middle. }
      set (pre := take (open_pos l) l) in *.
      set (post := drop (S (S (open_pos l))) l) in *.
      assert (Htk : take (S (open_pos l)) l = pre ++ [ck])
        by (by apply take_S_r).
      rewrite Htk in Hml.
      assert (Hc' : cache_at i (incr_miss st)
                    = Some (ptr_to (pre ++ ck :: nx :: post) None))
        by (by rewrite <- Hl).
      assert (Hs' : seg (mem (incr_miss st)) (pre ++ ck :: nx :: post) None)
        by (by rewrite <- Hl).
      assert (Hnd' : NoDup (locs (pre ++ ck :: nx :: post)))
        by (by rewrite <- Hl).
      destruct (a_valid nx) eqn:Hvn; injection Hml as <- <-.
      * destruct (fill_line_evict i t pre post ck nx _ Hc' Hs' Hnd' Hvn)
          as (m' & -> & Hseg & Hlm & Hfr).
        exists m'. split; [done|]. split; [done|]. split; [done|].
        by rewrite Hl.
      * destruct (fill_line_open i t pre post ck nx _ Hc' Hs' Hnd' Hvn)
          as (m' & -> & Hseg & Hlm & Hfr).
        exists m'. split; [done|]. split; [done|]. split; [done|].
        by rewrite Hl.
    + (* [check] is the only cell *)
      assert (H0 : open_pos l = O).
      { apply lookup_ge_None in HSk.
        destruct (open_pos_bound l) as [H0|Hb]; [done|lia]. }
      rewrite H0 in Hk, HSk, Hml. subst l. simpl in Hk, HSk.
      injection Hk as <-.
      destruct tl as [|x tl]; [|done].
      simpl in Hml. injection Hml as <- <-.
      destruct (fill_line_last i t [] hd (incr_miss st) Hs Hnd)
        as (m' & -> & Hseg & Hlm & Hfr).
      exists m'. split; [|done]. cbn [ptr_to fill a_loc] in Hc |- *.
      by rewrite (cache_insert_same _ _ _ Hc).
  - (* the head is open *)
    change (0 =? 0) with true. cbv iota. bind_step.
    injection Hml as <- <-.
    destruct (fill_line_head i t hd tl (incr_miss st) Hs Hnd)
      as (m' & -> & Hseg & Hlm & Hfr).
    exists m'. split; [|done]. cbn [ptr_to fill a_loc] in Hc |- *.
    by rewrite (cache_insert_same _ _ _ Hc).
Qed.

Lemma accessData_unfold addr st :
  accessData addr st =
    (s_bits ← s_bits_of addr st;
     t_bits ← t_bits_of addr st;
     line ← cache_at s_bits st;
     c ← load line st;
     let hit0 := (t_bits =? tag c) && (valid c =? 1) in
     let st := if hit0 then incr_hit st else st in
     '(match_, st) ← (if hit0 then Some (true, st)
                      else hit_scan (Z.to_nat (E st - 1)) s_bits t_bits line st);
     if (match_ : bool) then Some st else miss_fill s_bits t_bits st).
Proof. done. Qed.

Lemma after_access_hit_id i p st :
  cache_at i st = Some p →
  after_access Hit (<[Z.to_nat i := p]> (cache st)) (mem st) st = incr_hit st.
Proof. intros H. by rewrite (cache_insert_same _ _ _ H). Qed.

(** [accessData] on the state follows [access_list] on the list of the
    set the address selects, and touches no cell outside that list. *)
Lemma accessData_sim addr st i t l l' o :
  s_bits_of addr st = Some i →
  t_bits_of addr st = Some t →
  cache_at i st = Some (ptr_to l None) →
  seg (mem st) l None →
  NoDup (locs l) →
  1 ≤ E st → Z.of_nat (length l) = E st →
  access_list (Z.to_nat (E st - 1)) t l = (l', o) →
  ∃ m', accessData addr st
          = Some (after_access o
                    (<[Z.to_nat i := ptr_to l' None]> (cache st)) m' st)
        ∧ seg m' l' None
        ∧ length m' = length (mem st)
        ∧ (∀ k, k ∉ locs l → m' !! k = mem st !! k).
Proof.
  intros Hi Ht Hc Hs Hnd HE Hlen Hal.
  destruct l as [|hd tl]; [simpl in Hlen; lia|].
  pose proof Hs as [Hhd Htl].
  rewrite accessData_unfold, Hi, Ht. bind_step. rewrite Hc. bind_step.
  cbn [ptr_to]. erewrite load_Some by exact Hhd. bind_step. cbv zeta.
  rewrite is_hit_cell. unfold access_list in Hal.
  destruct (is_hit t hd) eqn:Hh.
  - injection Hal as <- <-. bind_step.
    exists (mem st). split; [|done].
    by rewrite (after_access_hit_id _ _ _ Hc).
  - pose proof (hit_scan_sim (Z.to_nat (E st - 1)) st i t [] hd tl Hc Hs Hnd)
      as Hsim.
    cbn [app] in Hsim.
    destruct (scan_list (Z.to_nat (E st - 1)) t [hd] tl) as [l1|] eqn:Hsc.
    + injection Hal as <- <-.
      destruct Hsim as (m' & -> & Hseg & Hlm & Hfr);
        [cbn [length] in Hlen; lia|].
      bind_step. by exists m'.
    + rewrite Hsim by (cbn [length] in Hlen; lia). bind_step.
      destruct (miss_list t (hd :: tl)) as [l2 ev] eqn:Hml.
      injection Hal as <- <-.
      by apply (miss_fill_sim i t (hd :: tl)).
Qed.

(** ** The list of a set under [access_list] *)

Lemma atags_app l1 l2 : atags (l1 ++ l2) = atags l1 ++ atags l2.
Proof. unfold atags. by rewrite filter_app, fmap_app. Qed.

Lemma atags_cons_valid a l :
  a_valid a = true → atags (a :: l) = a_tag a :: atags l.
Proof. intros H. unfold atags. by rewrite filter_cons_True. Qed.

Lemma atags_cons_invalid a l :
  a_valid a = false → atags (a :: l) = atags l.
Proof.
  intros H. unfold atags. rewrite filter_cons_False; [done|]. congruence.
Qed.

Lemma atags_length l : (length (atags l) ≤ length l)%nat.
Proof. unfold atags. rewrite length_fmap. apply length_filter. Qed.

Lemma atags_all_valid l :
  Forall (λ a, a_valid a = true) l → atags l = a_tag <$> l.
Proof.
  induction 1 as [|a l Ha Hl IH]; [done|].
  rewrite atags_cons_valid by done. by rewrite IH.
Qed.

Lemma atags_some_invalid l a :
  a ∈ l → a_valid a = false → (length (atags l) < length l)%nat.
Proof.
  induction l as [|x l IH]; [by intros ?%elem_of_nil|].
  intros [->|Hin]%elem_of_cons Hv.
  - rewrite atags_cons_invalid by done.
    pose proof (atags_length l). simpl. lia.
  - specialize (IH Hin Hv). destruct (a_valid x) eqn:Hx.
    + rewrite atags_cons_valid by done. simpl. lia.
    + rewrite atags_cons_invalid by done. simpl. lia.
Qed.

Lemma is_hit_true t a : is_hit t a = true ↔ a_valid a = true ∧ a_tag a = t.
Proof.
  unfold is_hit. rewrite andb_true_iff, Z.eqb_eq. naive_solver.
Qed.

Lemma no_hit_notin t l :
  Forall (λ a, is_hit t a = false) l → t ∉ atags l.
Proof.
  induction 1 as [|a l Ha Hl IH]; [apply not_elem_of_nil|].
  destruct (a_valid a) eqn:Hv.
  - rewrite atags_cons_valid by done. apply not_elem_of_cons. split; [|done].
    intros ->. assert (is_hit (a_tag a) a = true) by (by apply is_hit_true).
    congruence.
  - by rewrite atags_cons_invalid.
Qed.

Lemma remove_tag_middle t xs ys :
  t ∉ xs → remove_tag t (xs ++ t :: ys) = xs ++ ys.
Proof.
  induction xs as [|x xs IH]; intros Hn; simpl.
  - by rewrite Z.eqb_refl.
  - apply not_elem_of_cons in Hn as [Hne Hn].
    destruct (x =? t) eqn:Heq; [apply Z.eqb_eq in Heq; congruence|].
    by rewrite IH.
Qed.

Lemma scan_list_Some n : ∀ t pre rest l',
  scan_list n t pre rest = Some l' →
  ∃ r1 nx r2, rest = r1 ++ nx :: r2 ∧ is_hit t nx = true
              ∧ Forall (λ a, is_hit t a = false) r1
              ∧ l' = nx :: pre ++ r1 ++ r2.
Proof.
  induction n as [|n IH]; intros t pre rest l' H; [done|].
  destruct rest as [|nx post]; [done|]. simpl in H.
  destruct (is_hit t nx) eqn:Hh.
  - injection H as <-. by exists [], nx, post.
  - apply IH in H as (r1 & y & r2 & -> & Hy & Hr1 & ->).
    exists (nx :: r1), y, r2. split; [done|]. split; [done|].
    split; [by constructor|]. by rewrite <- app_assoc.
Qed.

Lemma scan_list_None n : ∀ t pre rest,
  scan_list n t pre rest = None → (length rest ≤ n)%nat →
  Forall (λ a, is_hit t a = false) rest.
Proof.
  induction n as [|n IH]; intros t pre rest H Hl.
  - destruct rest; [constructor|simpl in Hl; lia].
  - destruct rest as [|nx post]; [constructor|]. simpl in H, Hl.
    destruct (is_hit t nx) eqn:Hh; [done|].
    constructor; [done|]. eapply IH; [done|lia].
Qed.

(** The cells [find_open] walks over are valid. *)
Lemma open_pos_valid l : ∀ j a,
  (1 ≤ j ≤ open_pos l)%nat → l !! j = Some a → a_valid a = true.
Proof.
  induction l as [|c l IH]; intros j a Hj Ha; [done|].
  destruct l as [|nx [|n2 l]]; [simpl in Hj; lia..|].
  rewrite open_pos_cons in Hj. destruct (a_valid nx) eqn:Hv; [|lia].
  destruct j as [|[|j]]; [lia| |].
  - simpl in Ha. congruence.
  - apply (IH (S j)); [lia|done].
Qed.

Lemma perm_front {A} (x c : A) pre post :
  x :: (pre ++ [c]) ++ post ≡ₚ pre ++ c :: x :: post.
Proof. rewrite Permutation_middle. by rewrite <- app_assoc. Qed.

Lemma locs_front t nx ck pre post :
  locs (fill t nx :: (pre ++ [ck]) ++ post)
  ≡ₚ locs (pre ++ ck :: nx :: post).
Proof.
  unfold locs. rewrite fmap_cons, !fmap_app, !fmap_cons. cbn [fill a_loc].
  cbn [fmap list_fmap]. apply perm_front.
Qed.

Lemma miss_list_spec t l l' ev :
  l ≠ [] → miss_list t l = (l', ev) →
  locs l' ≡ₚ locs l
  ∧ atags l' = t :: (if ev then removelast (atags l) else atags l)
  ∧ (if ev then length (atags l) = length l
     else (length (atags l) < length l)%nat).
Proof.
  intros Hne Hml. destruct l as [|hd tl]; [done|]. clear Hne.
  unfold miss_list in Hml.
  destruct (a_valid hd) eqn:Hv; cycle 1.
  { injection Hml as <- <-. split; [done|]. split.
    - rewrite atags_cons_valid by done.
      by rewrite (atags_cons_invalid hd) by done.
    - apply (atags_some_invalid _ hd); [left|done]. }
  cbv zeta in Hml. remember (hd :: tl) as l eqn:Hl0.
  destruct (l !! open_pos l) as [ck|] eqn:Hk; cycle 1.
  { apply lookup_ge_None in Hk.
    destruct (open_pos_bound l) as [H0|Hb]; [|lia].
    rewrite H0, Hl0 in Hk. cbn [length] in Hk. lia. }
  destruct (l !! S (open_pos l)) as [nx|] eqn:HSk.
  - assert (Hl : l = take (open_pos l) l ++ ck :: nx
                       :: drop (S (S (open_pos l))) l).
    { rewrite <- (drop_S _ _ _ HSk). by rewrite take_drop_middle. }
    assert (Htk : take (S (open_pos l)) l = take (open_pos l) l ++ [ck])
      by (by apply take_S_r).
    rewrite Htk in Hml.
    destruct (a_valid nx) eqn:Hvn; injection Hml as <- <-.
    + (* every line is valid and [nx] is the last *)
      assert (HSSk : l !! S (S (open_pos l)) = None)
        by (by eapply open_pos_stop).
      assert (Hall : Forall (λ a, a_valid a = true) l).
      { apply Forall_lookup. intros j a Ha.
        destruct (decide (j = O)) as [->|Hj0].
        { rewrite Hl0 in Ha. simpl in Ha. congruence. }
        destruct (decide (j ≤ open_pos l)%nat) as [Hj|Hj].
        { apply (open_pos_valid l j); [lia|done]. }
        assert (j = S (open_pos l)) as ->.
        { apply lookup_lt_Some in Ha. apply lookup_ge_None in HSSk. lia. }
        congruence. }
      rewrite (drop_ge l (S (S (open_pos l)))) in Hl
        by (by apply lookup_ge_None).
      rewrite (atags_all_valid l Hall).
      remember (take (open_pos l) l) as pre eqn:Hpre. clear Hpre.
      rewrite Hl in Hall |- *. clear Hl.
      split; [|split].
      * rewrite <- (app_nil_r (pre ++ [ck])). apply locs_front.
      * replace (pre ++ [ck; nx]) with ((pre ++ [ck]) ++ [nx])
          by (by rewrite <- app_assoc).
        rewrite fmap_app. cbn [fmap list_fmap]. rewrite removelast_last.
        rewrite atags_cons_valid by done. cbn [fill a_tag]. f_equal.
        apply atags_all_valid.
        apply Forall_app in Hall as [Hpre Hrest].
        apply Forall_cons in Hrest as [Hck _].
        apply Forall_app. split; [done|]. by constructor.
      * by rewrite length_fmap.
    + remember (take (open_pos l) l) as pre eqn:Hpre. clear Hpre.
      remember (drop (S (S (open_pos l))) l) as post eqn:Hpost. clear Hpost.
      assert (Hin : nx ∈ l) by (by eapply list_elem_of_lookup_2).
      split; [|split].
      * rewrite Hl. apply locs_front.
      * rewrite atags_cons_valid by done. cbn [fill a_tag]. f_equal.
        rewrite Hl. rewrite <- app_assoc, !atags_app. f_equal.
        change (ck :: nx :: post) with ([ck] ++ nx :: post).
        rewrite (atags_app [ck] (nx :: post)). f_equal.
        by rewrite atags_cons_invalid.
      * by apply (atags_some_invalid _ nx).
  - injection Hml as <- <-.
    assert (H0 : open_pos l = O).
    { apply lookup_ge_None in HSk.
      destruct (open_pos_bound l) as [H0|Hb]; [done|lia]. }
    rewrite H0 in Hk, HSk |- *. subst l. simpl in Hk, HSk.
    injection Hk as <-. destruct tl as [|x tl]; [|discriminate HSk].
    cbn [insert list_insert].
    rewrite (atags_cons_valid hd), (atags_cons_valid (fill t hd)) by done.
    done.
Qed.

(** [access_list] is the LRU step of the specification on the tags of
    the valid lines, and only reorders the cells. *)
Lemma access_list_spec n t l l' o :
  length l = S n → access_list n t l = (l', o) →
  locs l' ≡ₚ locs l ∧ lru_access (length l) t (atags l) = (atags l', o).
Proof.
  intros Hlen Hal. destruct l as [|hd tl]; [done|].
  unfold access_list in Hal. unfold lru_access.
  destruct (is_hit t hd) eqn:Hh.
  - injection Hal as <- <-. split; [done|].
    apply is_hit_true in Hh as [Hv Ht].
    rewrite atags_cons_valid, Ht by done.
    rewrite bool_decide_true by left.
    simpl. by rewrite Z.eqb_refl.
  - destruct (scan_list n t [hd] tl) as [l1|] eqn:Hsc.
    + injection Hal as <- <-.
      apply scan_list_Some in Hsc as (r1 & nx & r2 & -> & Hnx & Hr1 & ->).
      split.
      { change (nx :: [hd] ++ r1 ++ r2) with (nx :: ((hd :: r1) ++ r2)).
        change (hd :: r1 ++ nx :: r2) with ((hd :: r1) ++ nx :: r2).
        unfold locs. rewrite !fmap_cons, !fmap_app, fmap_cons.
        apply Permutation_middle. }
      apply is_hit_true in Hnx as [Hv Ht].
      assert (Hnot : t ∉ atags (hd :: r1)).
      { apply no_hit_notin. by constructor. }
      change (hd :: r1 ++ nx :: r2) with ((hd :: r1) ++ nx :: r2).
      change (nx :: [hd] ++ r1 ++ r2) with (nx :: ((hd :: r1) ++ r2)).
      rewrite atags_app, (atags_cons_valid nx r2),
        (atags_cons_valid nx ((hd :: r1) ++ r2)), atags_app, Ht by done.
      rewrite bool_decide_true
        by (apply elem_of_app; right; left).
      by rewrite remove_tag_middle.
    + apply scan_list_None in Hsc; [|simpl in Hlen; lia].
      assert (Hnot : t ∉ atags (hd :: tl)).
      { apply no_hit_notin. by constructor. }
      rewrite bool_decide_false by done.
      destruct (miss_list t (hd :: tl)) as [l2 ev] eqn:Hml.
      injection Hal as <- <-.
      apply miss_list_spec in Hml as (Hperm & Htags & Hev); [|done].
      split; [done|]. rewrite Htags. destruct ev.
      * rewrite bool_decide_false by lia. done.
      * rewrite bool_decide_true by lia. done.
Qed.

(** ** The invariant of the heap under accessData *)

Lemma set_index_bound addr st :
  0 ≤ s st → 0 ≤ set_index addr st < 2 ^ s st.
Proof.
  intros Hs. unfold set_index. apply Z.mod_pos_bound.
  apply Z.pow_pos_nonneg; lia.
Qed.

Lemma locs_perm_length l l' : locs l' ≡ₚ locs l → length l' = length l.
Proof.
  intros Hp. apply Permutation_length in Hp.
  unfold locs in Hp. by rewrite !length_fmap in Hp.
Qed.

Lemma sets_ok_update assoc m m' sets i l l' :
  sets_ok assoc m sets →
  sets !! i = Some l →
  locs l' ≡ₚ locs l →
  seg m' l' None →
  (∀ k, k ∉ locs l → m' !! k = m !! k) →
  sets_ok assoc m' (<[i := l']> sets).
Proof.
  intros [Hseg Hsize Hnd Hdisj] Hi Hperm Hs' Hfr.
  assert (Hlt : (i < length sets)%nat) by (by eapply lookup_lt_Some).
  split.
  - intros j lj Hj. destruct (decide (i = j)) as [<-|Hne].
    + rewrite list_lookup_insert_eq in Hj by done. by injection Hj as <-.
    + rewrite list_lookup_insert_ne in Hj by done.
      eapply seg_frame; [|by eapply Hseg].
      intros k Hk. apply Hfr. intros Hkl.
      by apply (Hdisj i j l lj k).
  - intros j lj Hj. destruct (decide (i = j)) as [<-|Hne].
    + rewrite list_lookup_insert_eq in Hj by done. injection Hj as <-.
      rewrite (locs_perm_length _ _ Hperm). by eapply Hsize.
    + rewrite list_lookup_insert_ne in Hj by done. by eapply Hsize.
  - intros j lj Hj. destruct (decide (i = j)) as [<-|Hne].
    + rewrite list_lookup_insert_eq in Hj by done. injection Hj as <-.
      rewrite Hperm. by eapply Hnd.
    + rewrite list_lookup_insert_ne in Hj by done. by eapply Hnd.
  - intros j1 j2 l1 l2 x Hne H1 H2 Hx.
    destruct (decide (i = j1)) as [<-|Hn1];
      destruct (decide (i = j2)) as [<-|Hn2]; [done| | |].
    + rewrite list_lookup_insert_eq in H1 by done. injection H1 as <-.
      rewrite list_lookup_insert_ne in H2 by done.
      rewrite Hperm in Hx. by apply (Hdisj i j2 l l2 x).
    + rewrite list_lookup_insert_eq in H2 by done. injection H2 as <-.
      rewrite list_lookup_insert_ne in H1 by done.
      rewrite Hperm. by apply (Hdisj j1 i l1 l x).
    + rewrite list_lookup_insert_ne in H1, H2 by done.
      by apply (Hdisj j1 j2 l1 l2 x).
Qed.

Lemma wf_lookup st sets addr :
  wf st sets →
  ∃ l, sets !! Z.to_nat (set_index addr st) = Some l
       ∧ cache_at (set_index addr st) st = Some (ptr_to l None).
Proof.
  intros [(Hs & Hb & Hsb & HE) HS Hlen Hc Hok].
  pose proof (set_index_bound addr st (proj1 Hs)) as Hi.
  destruct (lookup_lt_is_Some_2 sets (Z.to_nat (set_index addr st)))
    as [l Hl]; [rewrite Hlen, HS; lia|].
  exists l. split; [done|]. unfold cache_at.
  destruct (set_index addr st <? 0) eqn:Hlt; [lia|].
  by rewrite Hc, list_lookup_fmap, Hl.
Qed.

(** One call of [accessData] on a well-formed state: the set the address
    selects goes through [access_list], the other sets stay as they are. *)
Lemma wf_access st sets addr :
  wf st sets →
  ∃ l l' o m',
    sets !! Z.to_nat (set_index addr st) = Some l
    ∧ access_list (Z.to_nat (E st - 1)) (tag_of addr st) l = (l', o)
    ∧ accessData addr st
        = Some (after_access o
                  (<[Z.to_nat (set_index addr st) := ptr_to l' None]>
                     (cache st)) m' st)
    ∧ wf (after_access o
            (<[Z.to_nat (set_index addr st) := ptr_to l' None]> (cache st))
            m' st)
         (<[Z.to_nat (set_index addr st) := l']> sets)
    ∧ length m' = length (mem st).
Proof.
  intros Hwf. destruct (wf_lookup st sets addr Hwf) as (l & Hl & Hc).
  pose proof Hwf as [(Hs & Hb & Hsb & HE) HS Hlen Hcache Hok].
  destruct (access_list (Z.to_nat (E st - 1)) (tag_of addr st) l)
    as [l' o] eqn:Hal.
  destruct (accessData_sim addr st (set_index addr st) (tag_of addr st)
              l l' o) as (m' & Hacc & Hseg & Hlm & Hfr).
  { by apply s_bits_of_spec. }
  { apply t_bits_of_spec; lia. }
  { done. }
  { by eapply ok_seg. }
  { by eapply ok_nodup. }
  { done. }
  { by eapply ok_size. }
  { done. }
  exists l, l', o, m'. split; [done|]. split; [done|]. split; [done|].
  split; [|done].
  assert (Hsz : length l = S (Z.to_nat (E st - 1))).
  { pose proof (ok_size _ _ _ Hok _ _ Hl). lia. }
  destruct (access_list_spec _ _ _ _ _ Hsz Hal) as [Hperm _].
  split.
  - by destruct o.
  - by destruct o.
  - rewrite length_insert. by destruct o.
  - replace (cache (after_access o _ m' st))
      with (<[Z.to_nat (set_index addr st) := ptr_to l' None]> (cache st))
      by (by destruct o).
    by rewrite Hcache, list_fmap_insert.
  - replace (E (after_access o _ m' st)) with (E st) by (by destruct o).
    replace (mem (after_access o _ m' st)) with m' by (by destruct o).
    by eapply sets_ok_update.
Qed.

Lemma wf_set_lines st sets i l :
  wf st sets → sets !! i = Some l → set_lines i st = Some (cells_of l None).
Proof.
  intros [_ _ _ Hc Hok] Hl. unfold set_lines.
  rewrite Hc, list_lookup_fmap, Hl.
  cbn [fmap option_fmap option_map mbind option_bind].
  apply walk_seg; [by eapply ok_seg|].
  eapply seg_length; [by eapply ok_seg|by eapply ok_nodup].
Qed.

Lemma wf_set_tags st sets i l :
  wf st sets → sets !! i = Some l → set_tags i st = Some (atags l).
Proof.
  intros Hwf Hl. unfold set_tags.
  rewrite (wf_set_lines _ _ _ _ Hwf Hl). cbn [fmap option_fmap option_map].
  by rewrite valid_tags_cells.
Qed.

(** ** initCache *)

Lemma init_lines_S n prev st :
  init_lines (S n) prev st =
    (let '(line, st) := malloc_line st in
     st ← store_next prev line st;
     let prev := line in
     st ← store_valid line 0 st;
     st ← store_tag line 0 st;
     st ← store_next line None st;
     init_lines n prev st).
Proof. done. Qed.

Lemma locs_fresh_lines k n : locs (fresh_lines k n) = seq k n.
Proof.
  unfold locs, fresh_lines. rewrite <- list_fmap_compose.
  rewrite <- (list_fmap_id (seq k n)) at 2. by apply list_fmap_ext.
Qed.

Lemma init_lines_spec n : ∀ st pre p,
  seg (mem st) (pre ++ [p]) None →
  NoDup (locs (pre ++ [p])) →
  ∃ m', init_lines n (Some (a_loc p)) st = Some (set_mem m' st)
        ∧ seg m' (pre ++ [p] ++ fresh_lines (length (mem st)) n) None
        ∧ length m' = (length (mem st) + n)%nat
        ∧ (∀ k, (k < length (mem st))%nat → k ≠ a_loc p →
                m' !! k = mem st !! k).
Proof.
  induction n as [|n IH]; intros st pre p Hs Hnd.
  { exists (mem st). split; [by destruct st|]. split; [|split; [lia|done]].
    by rewrite app_nil_r. }
  pose proof Hs as Hs0. apply seg_app in Hs0 as [Hpre [Hp _]].
  cbn [ptr_to] in Hp.
  assert (Hlp : (a_loc p < length (mem st))%nat)
    by (by apply lookup_lt_Some in Hp).
  assert (HneL : a_loc p ≠ length (mem st)) by lia.
  assert (HneL' : length (mem st) ≠ a_loc p) by lia.
  assert (HL : (length (mem st) < length (mem st ++ [Line 0 0 None]))%nat)
    by (rewrite length_app; simpl; lia).
  assert (Hp1 : (mem st ++ [Line 0 0 None]) !! a_loc p
                = Some (cell_of p None)) by (by rewrite lookup_app_l).
  assert (HL1 : (mem st ++ [Line 0 0 None]) !! length (mem st)
                = Some (Line 0 0 None))
    by (by rewrite list_lookup_middle).
  assert (Hlp1 : (a_loc p < length (mem st ++ [Line 0 0 None]))%nat) by lia.
  rewrite init_lines_S. unfold malloc_line.
  unfold store_next, store_valid, store_tag.
  repeat exec_step.
  cbn [mem set_mem valid tag next cell_of].
  set (m5 := <[length (mem st) := _]> _).
  assert (Hm5p : m5 !! a_loc p = Some (cell_of p (Some (length (mem st))))).
  { unfold m5. rewrite !list_lookup_insert_ne by done.
    by rewrite list_lookup_insert_eq. }
  assert (Hm5L : m5 !! length (mem st)
                 = Some (cell_of (fresh_line (length (mem st))) None)).
  { unfold m5. by rewrite list_lookup_insert_eq by (by rewrite !length_insert). }
  assert (Hm5len : length m5 = S (length (mem st))).
  { unfold m5. rewrite !length_insert, length_app. simpl. lia. }
  assert (Hm5fr : ∀ k, (k < length (mem st))%nat → k ≠ a_loc p →
                       m5 !! k = mem st !! k).
  { intros k Hk Hkp. unfold m5.
    rewrite !list_lookup_insert_ne by lia. by rewrite lookup_app_l. }
  unfold locs in Hnd. rewrite fmap_app in Hnd.
  apply NoDup_app in Hnd as (Hnd1 & Hnd2 & Hnd3).
  specialize (IH (set_mem m5 st) (pre ++ [p]) (fresh_line (length (mem st)))).
  destruct IH as (m' & Hrun & Hseg & Hlen & Hfr).
  { cbn [mem set_mem]. apply seg_app. split; [apply seg_app; split|].
    - eapply seg_frame; [|exact Hpre]. intros k Hk. apply Hm5fr.
      + by eapply seg_locs_lt.
      + intros ->. apply (Hnd2 _ Hk). left.
    - by split.
    - by split. }
  { unfold locs. rewrite !fmap_app. cbn [fmap list_fmap fresh_line a_loc].
    apply NoDup_app. split; [|split].
    - apply NoDup_app. by split.
    - intros x Hx [->|Hx']%elem_of_cons; [|by apply elem_of_nil in Hx'].
      assert (x_lt : (length (mem st) < length (mem st))%nat); [|lia].
      eapply (seg_locs_lt _ _ _ _ Hs). unfold locs. by rewrite fmap_app.
    - apply NoDup_singleton. }
  exists m'. cbn [mem set_mem a_loc fresh_line] in Hrun, Hseg, Hlen, Hfr.
  split; [exact Hrun|]. split; [|split].
  - rewrite Hm5len in Hseg. rewrite <- !app_assoc in Hseg.
    exact Hseg.
  - rewrite Hlen, Hm5len. lia.
  - intros k Hk Hkp. rewrite Hfr by (rewrite ?Hm5len; lia).
    by apply Hm5fr.
Qed.

Lemma fresh_lines_unused k n : Forall unused (fresh_lines k n).
Proof. unfold fresh_lines. apply Forall_fmap. by apply Forall_true. Qed.

Lemma lookup_snoc_Some {A} (l : list A) (x y : A) j :
  (l ++ [x]) !! j = Some y ↔ l !! j = Some y ∨ (j = length l ∧ y = x).
Proof.
  rewrite lookup_app_Some. split; intros [H|[H1 H2]]; [by left| |by left|].
  - right. destruct (j - length l)%nat eqn:Hj; simpl in H2; [|done].
    split; [lia|congruence].
  - right. subst. split; [lia|]. by rewrite Nat.sub_diag.
Qed.

Lemma sets_ok_snoc assoc m m' sets l :
  sets_ok assoc m sets →
  (∀ k, (k < length m)%nat → m' !! k = m !! k) →
  seg m' l None →
  Z.of_nat (length l) = assoc →
  NoDup (locs l) →
  (∀ x, x ∈ locs l → (length m ≤ x)%nat) →
  sets_ok assoc m' (sets ++ [l]).
Proof.
  intros [Hseg Hsize Hnd Hdisj] Hfr Hs Hlen Hndl Hge.
  assert (Hold : ∀ j lj x, sets !! j = Some lj → x ∈ locs lj →
                           (x < length m)%nat).
  { intros j lj x Hj Hx. eapply seg_locs_lt; [by eapply Hseg|done]. }
  split.
  - intros j lj [Hj|[-> ->]]%lookup_snoc_Some; [|done].
    eapply seg_frame; [|by eapply Hseg]. intros k Hk. apply Hfr. by eapply Hold.
  - intros j lj [Hj|[-> ->]]%lookup_snoc_Some; [by eapply Hsize|done].
  - intros j lj [Hj|[-> ->]]%lookup_snoc_Some; [by eapply Hnd|done].
  - intros j1 j2 l1 l2 x Hne [H1|[-> ->]]%lookup_snoc_Some
      [H2|[-> ->]]%lookup_snoc_Some Hx; [by eapply Hdisj| | |done].
    + intros Hx2. specialize (Hge _ Hx2). specialize (Hold _ _ _ H1 Hx). lia.
    + intros Hx2. specialize (Hge _ Hx). specialize (Hold _ _ _ H2 Hx2). lia.
Qed.

Lemma init_sets_S n i st :
  init_sets (S n) i st =
    (let '(set, st) := malloc_line st in
     st ← store_valid set 0 st;
     st ← store_tag set 0 st;
     st ← store_next set None st;
     let prev := set in
     st ← cache_store i set st;
     st ← init_lines (Z.to_nat (E st - 1)) prev st;
     init_sets n (i + 1) st).
Proof. done. Qed.

Lemma init_sets_spec n : ∀ st done,
  1 ≤ E st →
  cache st = ((λ l, ptr_to l None) <$> done) ++ replicate n None →
  sets_ok (E st) (mem st) done →
  Forall (Forall unused) done →
  ∃ m' sets,
    init_sets n (Z.of_nat (length done)) st
      = Some (set_mem m' (set_cache ((λ l, ptr_to l None) <$> sets) st))
    ∧ length sets = (length done + n)%nat
    ∧ sets_ok (E st) m' sets
    ∧ Forall (Forall unused) sets.
Proof.
  induction n as [|n IH]; intros st done HE Hc Hok Hun.
  { exists (mem st), done. rewrite app_nil_r in Hc. rewrite <- Hc.
    split; [by destruct st|]. split; [lia|done]. }
  set (L := length (mem st)).
  assert (HL1 : (mem st ++ [Line 0 0 None]) !! L = Some (Line 0 0 None))
    by (by apply list_lookup_middle).
  assert (HL : (L < length (mem st ++ [Line 0 0 None]))%nat)
    by (rewrite length_app; simpl; unfold L; lia).
  assert (Hci : cache_at (Z.of_nat (length done)) st = Some None).
  { unfold cache_at.
    destruct (Z.of_nat (length done) <? 0) eqn:Hlt;
      [apply Z.ltb_lt in Hlt; lia|].
    rewrite Nat2Z.id, Hc.
    rewrite lookup_app_r by (by rewrite length_fmap).
    by rewrite length_fmap, Nat.sub_diag. }
  rewrite init_sets_S. unfold malloc_line. fold L.
  unfold store_next, store_valid, store_tag.
  repeat exec_step.
  cbn [mem set_mem set_cache E valid tag next cell_of]. rewrite Nat2Z.id.
  set (m4 := <[L := _]> _).
  set (c1 := <[length done := Some L]> (cache st)).
  assert (Hm4L : m4 !! L = Some (cell_of (fresh_line L) None)).
  { unfold m4. by rewrite list_lookup_insert_eq by (by rewrite !length_insert). }
  assert (Hm4len : length m4 = S L).
  { unfold m4. rewrite !length_insert, length_app. simpl. unfold L. lia. }
  assert (Hm4fr : ∀ k, (k < L)%nat → m4 !! k = mem st !! k).
  { intros k Hk. unfold m4.
    rewrite !list_lookup_insert_ne by lia. by rewrite lookup_app_l. }
  destruct (init_lines_spec (Z.to_nat (E st - 1))
              (set_cache c1 (set_mem m4 st)) [] (fresh_line L))
    as (m6 & Hrun & Hseg & Hlen & Hfr).
  { by split. }
  { apply NoDup_singleton. }
  cbn [a_loc fresh_line mem set_mem set_cache app] in Hrun, Hseg, Hlen, Hfr.
  match goal with
  | |- context [init_lines _ _ ?s0] =>
      change s0 with (set_cache c1 (set_mem m4 st))
  end.
  rewrite Hrun. bind_step.
  rewrite Hm4len in Hseg, Hlen.
  set (l := fresh_line L :: fresh_lines (S L) (Z.to_nat (E st - 1))) in *.
  assert (Hlocs : locs l = seq L (S (Z.to_nat (E st - 1)))).
  { unfold l. unfold locs. rewrite fmap_cons.
    fold (locs (fresh_lines (S L) (Z.to_nat (E st - 1)))).
    by rewrite locs_fresh_lines. }
  specialize (IH (set_mem m6 (set_cache c1 (set_mem m4 st))) (done ++ [l])).
  destruct IH as (m' & sets & Hrun' & Hlen' & Hok' & Hun').
  { done. }
  { cbn [cache set_mem set_cache]. unfold c1. rewrite Hc.
    rewrite insert_app_r_alt by (by rewrite length_fmap).
    rewrite length_fmap, Nat.sub_diag. cbn [replicate insert list_insert].
    rewrite fmap_app. cbn [fmap list_fmap]. rewrite <- app_assoc. done. }
  { cbn [E mem set_mem set_cache].
    apply (sets_ok_snoc _ (mem st)); [done| | | | |].
    - intros k Hk. rewrite Hfr by (fold L in Hk; lia).
      by apply Hm4fr.
    - exact Hseg.
    - unfold l. cbn [length]. unfold fresh_lines.
      rewrite length_fmap, length_seq. lia.
    - rewrite Hlocs. apply NoDup_seq.
    - intros x Hx. rewrite Hlocs in Hx. apply elem_of_seq in Hx.
      fold L. lia. }
  { apply Forall_app. split; [done|]. constructor; [|done].
    unfold l. constructor; [done|]. apply fresh_lines_unused. }
  exists m', sets. split; [|split; [|done]].
  - rewrite length_app, Nat2Z.inj_add in Hrun'. cbn [length] in Hrun'.
    change (Z.of_nat 1) with 1 in Hrun'. rewrite Hrun'. done.
  - rewrite Hlen', length_app. simpl. lia.
Qed.

Lemma initCache_unfold st :
  initCache st =
    (n_sets ← pow2_int (s st);
     let st := set_S n_sets st in
     let st := set_cache (replicate (Z.to_nat n_sets) None) st in
     init_sets (Z.to_nat n_sets) 0 st).
Proof. done. Qed.

Lemma pow2_int_good e : 0 ≤ e ≤ 30 → pow2_int e = Some (2 ^ e).
Proof.
  intros He. unfold pow2_int.
  destruct (e <? 0) eqn:H0; [lia|]. destruct (e <=? 30) eqn:H30; [done|lia].
Qed.

(** [initCache] on a good geometry returns, and returns a well-formed
    cache whose lines are all unused. *)
Lemma initCache_wf st0 :
  good_geometry st0 →
  ∃ m' sets,
    initCache st0
      = Some (set_mem m' (set_cache ((λ l, ptr_to l None) <$> sets)
                            (set_S (2 ^ s st0) st0)))
    ∧ wf (set_mem m' (set_cache ((λ l, ptr_to l None) <$> sets)
                        (set_S (2 ^ s st0) st0))) sets
    ∧ Forall (Forall unused) sets.
Proof.
  intros (Hs & Hb & Hsb & HE).
  rewrite initCache_unfold, pow2_int_good by done. bind_step. cbv zeta.
  destruct (init_sets_spec (Z.to_nat (2 ^ s st0))
              (set_cache (replicate (Z.to_nat (2 ^ s st0)) None)
                 (set_S (2 ^ s st0) st0)) [])
    as (m' & sets & Hrun & Hlen & Hok & Hun).
  { done. }
  { done. }
  { split; intros; by rewrite ?lookup_nil in *. }
  { done. }
  exists m', sets. cbn [length] in Hrun. change (Z.of_nat 0) with 0 in Hrun.
  split; [exact Hrun|]. split; [|done].
  split; [done|done| |done|done].
  cbn [S_sets set_mem set_cache set_S]. rewrite Hlen. simpl. lia.
Qed.

(** ** One access on a well-formed state *)

Lemma remove_tag_subseteq t ts x : x ∈ remove_tag t ts → x ∈ ts.
Proof.
  induction ts as [|y ts IH]; simpl; [done|].
  destruct (y =? t); intros Hx; [by right|].
  apply elem_of_cons in Hx as [->|Hx]; [by left|]. right. by apply IH.
Qed.

Lemma remove_tag_NoDup t ts :
  NoDup ts → NoDup (remove_tag t ts) ∧ t ∉ remove_tag t ts.
Proof.
  induction 1 as [|y ts Hy Hnd IH]; simpl.
  - split; [constructor|apply not_elem_of_nil].
  - destruct (y =? t) eqn:Heq.
    + apply Z.eqb_eq in Heq as ->. done.
    + apply Z.eqb_neq in Heq. destruct IH as [IH1 IH2]. split.
      * constructor; [|done]. intros Hin. by apply remove_tag_subseteq in Hin.
      * apply not_elem_of_cons. done.
Qed.

Lemma removelast_subseteq {A} (l : list A) x : x ∈ removelast l → x ∈ l.
Proof.
  induction l as [|y [|z l] IH]; simpl; [done|by intros ?%elem_of_nil|].
  intros [->|Hx]%elem_of_cons; [by left|]. right. by apply IH.
Qed.

Lemma removelast_NoDup {A} (l : list A) : NoDup l → NoDup (removelast l).
Proof.
  induction 1 as [|y l Hy Hnd IH]; [constructor|].
  destruct l as [|z l]; [constructor|].
  change (NoDup (y :: removelast (z :: l))). constructor; [|done].
  intros Hin. by apply removelast_subseteq in Hin.
Qed.

Lemma lru_access_NoDup n t ts ts' o :
  NoDup ts → lru_access n t ts = (ts', o) → NoDup ts'.
Proof.
  intros Hnd. unfold lru_access.
  case_bool_decide as Hin; [|case_bool_decide as Hlt]; intros [= <- <-].
  - destruct (remove_tag_NoDup t ts Hnd). by constructor.
  - by constructor.
  - constructor; [|by apply removelast_NoDup].
    intros Hx. by apply removelast_subseteq in Hx.
Qed.

Lemma counters_after_access o c m st :
  counters (after_access o c m st) = count_outcome o (counters st).
Proof. by destruct o. Qed.

(** What one call of [accessData] does, in the terms of the
    specification. *)
Lemma access_step st sets addr :
  inv st sets →
  ∃ l l' o st',
    sets !! Z.to_nat (set_index addr st) = Some l
    ∧ Z.of_nat (length l) = E st
    ∧ accessData addr st = Some st'
    ∧ inv st' (<[Z.to_nat (set_index addr st) := l']> sets)
    ∧ lru_access (Z.to_nat (E st)) (tag_of addr st) (atags l) = (atags l', o)
    ∧ counters st' = count_outcome o (counters st)
    ∧ s st' = s st ∧ b st' = b st ∧ E st' = E st ∧ S_sets st' = S_sets st
    ∧ verbosity st' = verbosity st.
Proof.
  intros [Hwf Hnd].
  destruct (wf_access st sets addr Hwf)
    as (l & l' & o & m' & Hl & Hal & Hacc & Hwf' & Hlen).
  pose proof (ok_size _ _ _ (wf_sets _ _ Hwf) _ _ Hl) as Hsz.
  pose proof (wf_geom _ _ Hwf) as (_ & _ & _ & HE).
  assert (Hsz' : length l = S (Z.to_nat (E st - 1))) by lia.
  destruct (access_list_spec _ _ _ _ _ Hsz' Hal) as [Hperm Hlru].
  replace (length l) with (Z.to_nat (E st)) in Hlru by lia.
  eexists l, l', o, _. split; [done|]. split; [done|]. split; [exact Hacc|].
  split; [split; [done|]|].
  - apply Forall_insert; [done|].
    eapply lru_access_NoDup; [|exact Hlru].
    exact (Forall_lookup_1 _ _ _ _ Hnd Hl).
  - split; [done|]. split; [apply counters_after_access|].
    by destruct o.
Qed.

Lemma initCache_inv st0 :
  good_geometry st0 →
  ∃ st sets, initCache st0 = Some st ∧ inv st sets
             ∧ Forall (Forall unused) sets
             ∧ counters st = counters st0
             ∧ s st = s st0 ∧ b st = b st0 ∧ E st = E st0
             ∧ S_sets st = 2 ^ s st0 ∧ verbosity st = verbosity st0.
Proof.
  intros Hg. destruct (initCache_wf st0 Hg) as (m' & sets & Hi & Hwf & Hun).
  eexists _, sets. split; [exact Hi|]. split; [split; [done|]|done].
  eapply Forall_impl; [exact Hun|]. intros l Hl.
  assert (atags l = []) as ->; [|constructor].
  unfold atags. induction Hl as [|a l [Ha _] _ IH]; [done|].
  rewrite filter_cons_False by congruence. done.
Qed.

Lemma reachable_inv st0 st :
  good_geometry st0 → reachable st0 st → ∃ sets, inv st sets.
Proof.
  intros Hg. induction 1 as [st Hi|st addr st' Hr IH Ha Hacc].
  - destruct (initCache_inv st0 Hg) as (st1 & sets & Hi' & Hinv & _).
    exists sets. congruence.
  - destruct IH as [sets Hinv].
    destruct (access_step st sets addr Hinv)
      as (l & l' & o & st'' & _ & _ & Hacc' & Hinv' & _).
    eexists. replace st' with st'' by congruence. exact Hinv'.
Qed.

Lemma reachable_geometry st0 st :
  good_geometry st0 → reachable st0 st →
  s st = s st0 ∧ b st = b st0 ∧ E st = E st0 ∧ verbosity st = verbosity st0.
Proof.
  intros Hg. induction 1 as [st Hi|st addr st' Hr IH Ha Hacc].
  - destruct (initCache_inv st0 Hg)
      as (st1 & sets & Hi' & _ & _ & _ & Hs & Hb & HE & _ & Hv).
    replace st with st1 by congruence. done.
  - destruct (reachable_inv st0 st Hg Hr) as [sets Hinv].
    destruct (access_step st sets addr Hinv)
      as (l & l' & o & st'' & _ & _ & Hacc' & _ & _ & _ & Hs & Hb & HE & _
          & Hv).
    replace st' with st'' by congruence.
    destruct IH as (? & ? & ? & ?). repeat split; congruence.
Qed.

(** ** Properties of accessData *)

Lemma inv_set_tags st sets i l :
  inv st sets → sets !! i = Some l → set_tags i st = Some (atags l).
Proof. intros [Hwf _]. by apply wf_set_tags. Qed.

Lemma wf_set_lines_None st sets i :
  wf st sets → sets !! i = None → set_lines i st = None.
Proof.
  intros [_ _ _ Hc _] Hi. unfold set_lines.
  by rewrite Hc, list_lookup_fmap, Hi.
Qed.

Lemma reachable_access_all st0 st addrs :
  good_geometry st0 → reachable st0 st → Forall is_addr addrs →
  ∃ st', access_all addrs st = Some st' ∧ reachable st0 st'.
Proof.
  intros Hg Hr Ha. revert st Hr.
  induction Ha as [|a addrs Ha _ IH]; intros st Hr.
  - by exists st.
  - destruct (reachable_inv st0 st Hg Hr) as [sets Hinv].
    destruct (access_step st sets a Hinv)
      as (l & l' & o & st1 & _ & _ & Hacc & _).
    destruct (IH st1) as (st' & Hall & Hr').
    { by eapply reach_access. }
    exists st'. simpl. rewrite Hacc. done.
Qed.

Lemma inv_set_invariant st sets : inv st sets → set_invariant st.
Proof.
  intros [Hwf Hnd] i Hi.
  destruct (lookup_lt_is_Some_2 sets i) as [l Hl].
  { by rewrite (wf_len _ _ Hwf). }
  exists (atags l). split; [by apply (wf_set_tags _ sets)|]. split.
  - rewrite <- (ok_size _ _ _ (wf_sets _ _ Hwf) _ _ Hl).
    pose proof (atags_length l). lia.
  - exact (Forall_lookup_1 _ _ _ _ Hnd Hl).
Qed.

(** One access in the terms of the specification, with the state it
    leaves still reachable. *)
Lemma access_lru st0 st addr :
  good_geometry st0 → reachable st0 st → is_addr addr →
  ∃ st' ts ts' o,
    s_bits_of addr st = Some (set_index addr st)
    ∧ t_bits_of addr st = Some (tag_of addr st)
    ∧ accessData addr st = Some st'
    ∧ set_tags (Z.to_nat (set_index addr st)) st = Some ts
    ∧ set_tags (Z.to_nat (set_index addr st)) st' = Some ts'
    ∧ lru_access (Z.to_nat (E st)) (tag_of addr st) ts = (ts', o)
    ∧ counters st' = count_outcome o (counters st).
Proof.
  intros Hg Hr Ha.
  destruct (reachable_inv st0 st Hg Hr) as [sets Hinv].
  pose proof (wf_geom _ _ (proj1 Hinv)) as (Hs & Hb & Hsb & HE).
  destruct (access_step st sets addr Hinv)
    as (l & l' & o & st' & Hl & Hsz & Hacc & Hinv' & Hlru & Hcnt & _).
  exists st', (atags l), (atags l'), o.
  split; [by apply s_bits_of_spec|].
  split; [apply t_bits_of_spec; lia|].
  split; [done|]. split; [by apply (inv_set_tags _ sets)|].
  split; [|done].
  apply (inv_set_tags _ _ _ _ Hinv'). apply list_lookup_insert_eq.
  by eapply lookup_lt_Some.
Qed.

(** C1, as the code has it: every access is the canonical LRU step, for
    [0 ≤ s ≤ 30], [0 ≤ b], [s + b ≤ 31] and [1 ≤ E].  In a state the
    program can reach on such a geometry, [accessData] on a 64-bit
    address returns; on the tags of the valid lines of the set the
    address selects, most recently used first, it does what
    [lru_access] does (a tag that is present moves to the front, a tag
    that is absent is put in front, after the last one has been dropped
    when the set holds [E] tags), and it counts the outcome: a hit in
    [hit_count], a miss in [miss_count], an eviction in both [miss_count]
    and [eviction_count]. *)
Theorem accessData_is_lru_step st0 st addr :
  good_geometry st0 → reachable st0 st → is_addr addr →
  ∃ st' ts ts' o,
    s_bits_of addr st = Some (set_index addr st)
    ∧ t_bits_of addr st = Some (tag_of addr st)
    ∧ accessData addr st = Some st'
    ∧ set_tags (Z.to_nat (set_index addr st)) st = Some ts
    ∧ set_tags (Z.to_nat (set_index addr st)) st' = Some ts'
    ∧ lru_access (Z.to_nat (E st)) (tag_of addr st) ts = (ts', o)
    ∧ counters st' = count_outcome o (counters st).
Proof.
  intros Hg Hr Ha.
  (* the heap of a reachable state is well formed *)
  destruct (reachable_inv st0 st Hg Hr) as [sets Hinv].
  pose proof (wf_geom _ _ (proj1 Hinv)) as (Hs & Hb & Hsb & HE).
  (* the call follows [access_list] on the list of the set, which is
     [lru_access] on its valid tags *)
  destruct (access_step st sets addr Hinv)
    as (l & l' & o & st' & Hl & Hsz & Hacc & Hinv' & Hlru & Hcnt & _).
  exists st', (atags l), (atags l'), o.
  split; [by apply s_bits_of_spec|].
  split; [apply t_bits_of_spec; lia|].
  split; [done|].
  (* what is read back from the heap is the list, before and after *)
  split; [by apply (inv_set_tags _ sets)|].
  split; [|done].
  apply (inv_set_tags _ _ _ _ Hinv'). apply list_lookup_insert_eq.
  by eapply lookup_lt_Some.
Qed.

Lemma accessData_is_lru_step_witness :
  ∃ st' ts ts' o,
    s_bits_of 8 (fresh_cache 1 1 1) = Some (set_index 8 (fresh_cache 1 1 1))
    ∧ t_bits_of 8 (fresh_cache 1 1 1) = Some (tag_of 8 (fresh_cache 1 1 1))
    ∧ accessData 8 (fresh_cache 1 1 1) = Some st'
    ∧ set_tags (Z.to_nat (set_index 8 (fresh_cache 1 1 1)))
        (fresh_cache 1 1 1) = Some ts
    ∧ set_tags (Z.to_nat (set_index 8 (fresh_cache 1 1 1))) st' = Some ts'
    ∧ lru_access (Z.to_nat (E (fresh_cache 1 1 1)))
        (tag_of 8 (fresh_cache 1 1 1)) ts = (ts', o)
    ∧ counters st' = count_outcome o (counters (fresh_cache 1 1 1)).
Proof.
  apply (accessData_is_lru_step (config 1 1 1) (fresh_cache 1 1 1) 8).
  - unfold good_geometry. simpl. lia.
  - apply reach_init. vm_compute. reflexivity.
  - unfold is_addr. lia.
Defined.

(** C1 as stated fails.  With [-s 1 -E -1 -b 1], which [main] accepts,
    the first access to the empty set 0 is counted as a miss without
    eviction and leaves one valid line, where the step of the
    specification for a set of [E] lines removes a line and counts an
    eviction.  And with [-s 4 -E 1 -b 28] the access to [7ff000998] does
    not return at all. *)
Lemma lru_step_outside_geometry :
  initCache (config 1 (-1) 1) = Some (fresh_cache 1 (-1) 1)
  ∧ E (fresh_cache 1 (-1) 1) = -1
  ∧ set_tags 0 (fresh_cache 1 (-1) 1) = Some []
  ∧ lru_access (Z.to_nat (E (fresh_cache 1 (-1) 1)))
      (tag_of 0 (fresh_cache 1 (-1) 1)) [] = ([0], MissEvict)
  ∧ (∃ st', accessData 0 (fresh_cache 1 (-1) 1) = Some st'
            ∧ set_tags 0 st' = Some [0]
            ∧ counters st'
              = count_outcome MissClean (counters (fresh_cache 1 (-1) 1))
            ∧ counters st'
              ≠ count_outcome MissEvict (counters (fresh_cache 1 (-1) 1)))
  ∧ accessData 0x7ff000998 (fresh_cache 4 1 28) = None.
Proof.
  split; [vm_compute; reflexivity|].
  split; [vm_compute; reflexivity|].
  split; [vm_compute; reflexivity|].
  split; [vm_compute; reflexivity|].
  split; [|vm_compute; reflexivity].
  eexists. split; [vm_compute; reflexivity|].
  split; [vm_compute; reflexivity|].
  split; [vm_compute; reflexivity|].
  vm_compute. discriminate.
Qed.

(** C3, as the code has it: the invariant of a set, for [0 ≤ s ≤ 30],
    [0 ≤ b], [s + b ≤ 31] and [1 ≤ E].  On such a geometry [initCache]
    returns a cache in which every set holds at most [E] valid lines and
    no tag twice, and after any sequence of calls of [accessData] on
    64-bit addresses (which all return) that is still so. *)
Theorem set_invariant_preserved st0 :
  good_geometry st0 →
  ∃ st1, initCache st0 = Some st1
         ∧ set_invariant st1
         ∧ ∀ addrs, Forall is_addr addrs →
             ∃ st, access_all addrs st1 = Some st ∧ set_invariant st.
Proof.
  intros Hg.
  destruct (initCache_inv st0 Hg) as (st1 & sets & Hi & Hinv & _).
  exists st1. split; [done|]. split; [by eapply inv_set_invariant|].
  intros addrs Ha.
  destruct (reachable_access_all st0 st1 addrs Hg (reach_init _ _ Hi) Ha)
    as (st & Hall & Hr).
  exists st. split; [done|].
  destruct (reachable_inv st0 st Hg Hr) as [sets' Hinv'].
  by eapply inv_set_invariant.
Qed.

Lemma set_invariant_preserved_witness :
  ∃ st1, initCache (config 1 2 1) = Some st1
         ∧ set_invariant st1
         ∧ ∀ addrs, Forall is_addr addrs →
             ∃ st, access_all addrs st1 = Some st ∧ set_invariant st.
Proof.
  apply (set_invariant_preserved (config 1 2 1)).
  unfold good_geometry. simpl. lia.
Defined.

(** C3 as stated fails.  With [-s 1 -E -1 -b 1] no set can hold at most
    [E] valid lines: the invariant is false of the cache [initCache]
    builds, and after one access set 0 holds one valid line.  And with
    [-s 4 -E 1 -b 28] the access to [7ff000998] does not return, so
    nothing is preserved by it. *)
Lemma set_bound_outside_geometry :
  initCache (config 1 (-1) 1) = Some (fresh_cache 1 (-1) 1)
  ∧ ¬ set_invariant (fresh_cache 1 (-1) 1)
  ∧ (∃ st', accessData 0 (fresh_cache 1 (-1) 1) = Some st'
            ∧ E st' = -1 ∧ set_tags 0 st' = Some [0]
            ∧ ¬ set_invariant st')
  ∧ accessData 0x7ff000998 (fresh_cache 4 1 28) = None.
Proof.
  split; [vm_compute; reflexivity|].
  split.
  { intros H. destruct (H 0%nat) as (ts & _ & Hlen & _).
    - vm_compute. lia.
    - change (E (fresh_cache 1 (-1) 1)) with (-1) in Hlen. lia. }
  split; [|vm_compute; reflexivity].
  eexists. split; [vm_compute; reflexivity|].
  split; [reflexivity|]. split; [vm_compute; reflexivity|].
  intros H. destruct (H 0%nat) as (ts & _ & Hlen & _).
  - vm_compute. lia.
  - cbn [E] in Hlen. lia.
Qed.

(** X24: the frame of an access, for [0 ≤ s ≤ 30], [0 ≤ b],
    [s + b ≤ 31] and [1 ≤ E].  In a state the program can reach on such
    a geometry, a call of [accessData] on a 64-bit address returns,
    leaves the geometry [s], [b], [E], [S] as it was, and every set
    other than the one at the decoded index keeps its lines: valid bits,
    tags, links and order. *)
Theorem accessData_frame st0 st addr :
  good_geometry st0 → reachable st0 st → is_addr addr →
  ∃ i st',
    s_bits_of addr st = Some i
    ∧ accessData addr st = Some st'
    ∧ s st' = s st ∧ b st' = b st ∧ E st' = E st ∧ S_sets st' = S_sets st
    ∧ ∀ j : nat, j ≠ Z.to_nat i → set_lines j st' = set_lines j st.
Proof.
  intros Hg Hr Ha.
  destruct (reachable_inv st0 st Hg Hr) as [sets Hinv].
  pose proof (wf_geom _ _ (proj1 Hinv)) as (Hs & Hb & Hsb & HE).
  destruct (access_step st sets addr Hinv)
    as (l & l' & o & st' & Hl & Hsz & Hacc & Hinv' & _ & _ & Hs' & Hb'
        & HE' & HS' & _).
  exists (set_index addr st), st'.
  split; [by apply s_bits_of_spec|]. split; [done|].
  do 4 (split; [done|]).
  intros j Hj. destruct (sets !! j) as [lj|] eqn:Hlj.
  - rewrite (wf_set_lines _ _ _ _ (proj1 Hinv) Hlj).
    apply (wf_set_lines _ _ _ _ (proj1 Hinv')).
    by rewrite list_lookup_insert_ne.
  - rewrite (wf_set_lines_None _ _ _ (proj1 Hinv) Hlj).
    apply (wf_set_lines_None _ _ _ (proj1 Hinv')).
    by rewrite list_lookup_insert_ne.
Qed.

Lemma accessData_frame_witness :
  ∃ i st',
    s_bits_of 2 (fresh_cache 1 1 1) = Some i
    ∧ accessData 2 (fresh_cache 1 1 1) = Some st'
    ∧ s st' = s (fresh_cache 1 1 1) ∧ b st' = b (fresh_cache 1 1 1)
    ∧ E st' = E (fresh_cache 1 1 1)
    ∧ S_sets st' = S_sets (fresh_cache 1 1 1)
    ∧ ∀ j : nat, j ≠ Z.to_nat i →
        set_lines j st' = set_lines j (fresh_cache 1 1 1).
Proof.
  apply (accessData_frame (config 1 1 1) (fresh_cache 1 1 1) 2).
  - unfold good_geometry. simpl. lia.
  - apply reach_init. vm_compute. reflexivity.
  - unfold is_addr. lia.
Defined.

Lemma valid_tags_all_invalid ls :
  Forall (λ c, valid c ≠ 1) ls → valid_tags ls = [].
Proof.
  unfold valid_tags. induction 1 as [|c ls Hc _ IH]; [done|].
  by rewrite filter_cons_False.
Qed.

Lemma cells_of_unused l q :
  Forall unused l → Forall (λ c, valid c = 0 ∧ tag c = 0) (cells_of l q).
Proof.
  induction 1 as [|a l [Hv Ht] _ IH]; simpl; [done|].
  constructor; [|done]. unfold cell_of. simpl. by rewrite Hv.
Qed.

(** X26: an access to a set without a valid line, for [0 ≤ s ≤ 30],
    [0 ≤ b], [s + b ≤ 31] and [1 ≤ E].  On such a geometry [initCache]
    returns and leaves every line with [valid = 0] and [tag = 0]; and in
    every state the program can reach, a call of [accessData] on a
    64-bit address whose set holds no valid line, whatever the tags
    stored in it, returns and counts a miss and no hit. *)
Theorem invalid_set_access_misses st0 :
  good_geometry st0 →
  (∃ st1, initCache st0 = Some st1
          ∧ ∀ i ls, set_lines i st1 = Some ls →
              Forall (λ c, valid c = 0 ∧ tag c = 0) ls)
  ∧ ∀ st addr ls,
      reachable st0 st → is_addr addr →
      set_lines (Z.to_nat (set_index addr st)) st = Some ls →
      Forall (λ c, valid c ≠ 1) ls →
      ∃ st', accessData addr st = Some st'
             ∧ hit_count st' = hit_count st
             ∧ miss_count st' = to_int (miss_count st + 1).
Proof.
  intros Hg. split.
  - destruct (initCache_inv st0 Hg) as (st1 & sets & Hi & Hinv & Hun & _).
    exists st1. split; [done|]. intros i ls Hls.
    destruct (sets !! i) as [l|] eqn:Hl.
    + rewrite (wf_set_lines _ _ _ _ (proj1 Hinv) Hl) in Hls.
      injection Hls as <-. apply cells_of_unused.
      exact (Forall_lookup_1 _ _ _ _ Hun Hl).
    + by rewrite (wf_set_lines_None _ _ _ (proj1 Hinv) Hl) in Hls.
  - intros st addr ls Hr Ha Hls Hall.
    destruct (reachable_inv st0 st Hg Hr) as [sets Hinv].
    pose proof (wf_geom _ _ (proj1 Hinv)) as (Hs & Hb & Hsb & HE).
    destruct (access_step st sets addr Hinv)
      as (l & l' & o & st' & Hl & Hsz & Hacc & Hinv' & Hlru & Hcnt & _).
    exists st'. split; [done|].
    rewrite (wf_set_lines _ _ _ _ (proj1 Hinv) Hl) in Hls.
    injection Hls as <-.
    rewrite <- (valid_tags_cells l None) in Hlru.
    rewrite (valid_tags_all_invalid _ Hall) in Hlru.
    unfold lru_access in Hlru.
    rewrite bool_decide_false in Hlru by apply not_elem_of_nil.
    rewrite bool_decide_true in Hlru by (simpl; lia).
    injection Hlru as _ <-. unfold counters in Hcnt. simpl in Hcnt.
    by injection Hcnt as -> -> _.
Qed.

Lemma invalid_set_access_misses_witness :
  (∃ st1, initCache (config 1 2 1) = Some st1
          ∧ ∀ i ls, set_lines i st1 = Some ls →
              Forall (λ c, valid c = 0 ∧ tag c = 0) ls)
  ∧ ∀ st addr ls,
      reachable (config 1 2 1) st → is_addr addr →
      set_lines (Z.to_nat (set_index addr st)) st = Some ls →
      Forall (λ c, valid c ≠ 1) ls →
      ∃ st', accessData addr st = Some st'
             ∧ hit_count st' = hit_count st
             ∧ miss_count st' = to_int (miss_count st + 1).
Proof.
  apply (invalid_set_access_misses (config 1 2 1)).
  unfold good_geometry. simpl. lia.
Defined.

(** ** Properties of replayTrace *)

Lemma is_addr_to_ull z : is_addr (to_ull z).
Proof. unfold is_addr, to_ull. apply Z.mod_pos_bound. lia. Qed.

Lemma buf_at_fgets_1 ln buf c :
  ln !! 1%nat = Some c → buf_at (fgets ln buf) 1 = c.
Proof.
  intros H. unfold buf_at, fgets.
  rewrite lookup_app_l by (by eapply lookup_lt_Some). by rewrite H.
Qed.

(** After an access the tag it looked for heads its set. *)
Lemma lru_access_head n t ts ts' o :
  lru_access n t ts = (ts', o) → ∃ rest, ts' = t :: rest.
Proof.
  unfold lru_access. repeat case_bool_decide; intros [= <- <-]; eauto.
Qed.

(** Two accesses to one address in a row: the second is a hit. *)
Lemma access_twice st0 st addr :
  good_geometry st0 → reachable st0 st → is_addr addr →
  ∃ st1 st2 ts o,
    accessData addr st = Some st1
    ∧ set_tags (Z.to_nat (set_index addr st)) st1
      = Some (tag_of addr st :: ts)
    ∧ accessData addr st1 = Some st2
    ∧ counters st1 = count_outcome o (counters st)
    ∧ counters st2 = count_outcome Hit (counters st1).
Proof.
  intros Hg Hr Ha.
  destruct (reachable_inv st0 st Hg Hr) as [sets Hinv].
  destruct (access_step st sets addr Hinv)
    as (l & l' & o & st1 & Hl & Hsz & Hacc & Hinv' & Hlru & Hcnt
        & Hs & Hb & HE & HS & _).
  destruct (lru_access_head _ _ _ _ _ Hlru) as [rest Hrest].
  assert (Hlt : (Z.to_nat (set_index addr st) < length sets)%nat)
    by (by eapply lookup_lt_Some).
  destruct (access_step st1 _ addr Hinv')
    as (l1 & l1' & o1 & st2 & Hl1 & Hsz1 & Hacc1 & Hinv1 & Hlru1 & Hcnt1 & _).
  assert (Hidx : set_index addr st1 = set_index addr st)
    by (unfold set_index; by rewrite Hs, Hb).
  assert (Htag : tag_of addr st1 = tag_of addr st)
    by (unfold tag_of; by rewrite Hs, Hb).
  rewrite Hidx, Htag in *.
  rewrite list_lookup_insert_eq in Hl1 by done. injection Hl1 as <-.
  exists st1, st2, rest, o. split; [done|]. split.
  { rewrite <- Hrest. apply (inv_set_tags _ _ _ _ Hinv').
    by apply list_lookup_insert_eq. }
  split; [done|]. split; [done|].
  rewrite Hcnt1. f_equal.
  unfold lru_access in Hlru1. rewrite Hrest in Hlru1.
  rewrite bool_decide_true in Hlru1 by left. by injection Hlru1 as _ <-.
Qed.

(** X23: the second access of a modify record is a hit, for
    [0 ≤ s ≤ 30], [0 ≤ b], [s + b ≤ 31] and [1 ≤ E].  For a line whose
    second character is [M], read in any state the program can reach on
    such a geometry, [replayTrace] calls [accessData] twice on the
    address it scanned and both calls return; the first leaves the tag
    of that address at the front of its set, and the second adds one to
    [hit_count] and leaves [miss_count] and [eviction_count] as they
    were. *)
Theorem modify_second_access_hits sscanf st0 r ln :
  good_geometry st0 → reachable st0 (r_st r) →
  ln !! 1%nat = Some "M"%char →
  ∃ a st1 ts r',
    is_addr a
    ∧ replay_line sscanf ln r = Some r'
    ∧ accessData a (r_st r) = Some st1
    ∧ set_tags (Z.to_nat (set_index a (r_st r))) st1
      = Some (tag_of a (r_st r) :: ts)
    ∧ accessData a st1 = Some (r_st r')
    ∧ hit_count (r_st r') = to_int (hit_count st1 + 1)
    ∧ miss_count (r_st r') = miss_count st1
    ∧ eviction_count (r_st r') = eviction_count st1.
Proof.
  intros Hg Hr Hln. unfold replay_line.
  rewrite (buf_at_fgets_1 _ _ _ Hln). cbn [is_access Ascii.eqb].
  change (is_access "M") with true. cbv iota.
  destruct (sscanf (drop 3 (fgets ln (r_buf r))) (r_addr r, r_len r))
    as [a l] eqn:Hscan.
  destruct (access_twice st0 (r_st r) (to_ull a) Hg Hr (is_addr_to_ull a))
    as (st1 & st2 & ts & o & Hacc1 & Htags & Hacc2 & _ & Hcnt).
  eexists (to_ull a), st1, ts, _.
  split; [apply is_addr_to_ull|].
  rewrite Hacc1. cbn [mbind option_bind].
  change (Ascii.eqb "M" "M") with true. cbv iota.
  rewrite Hacc2. cbn [mbind option_bind].
  split; [reflexivity|]. split; [done|]. split; [done|]. split; [done|].
  cbn [r_st]. unfold counters in Hcnt. simpl in Hcnt.
  by injection Hcnt as -> -> ->.
Qed.

Lemma modify_second_access_hits_witness :
  ∃ a st1 ts r',
    is_addr a
    ∧ replay_line scan_llx_u (list_ascii_of_string " M 10,1")
        (fresh_replay 1 1 1) = Some r'
    ∧ accessData a (r_st (fresh_replay 1 1 1)) = Some st1
    ∧ set_tags (Z.to_nat (set_index a (r_st (fresh_replay 1 1 1)))) st1
      = Some (tag_of a (r_st (fresh_replay 1 1 1)) :: ts)
    ∧ accessData a st1 = Some (r_st r')
    ∧ hit_count (r_st r') = to_int (hit_count st1 + 1)
    ∧ miss_count (r_st r') = miss_count st1
    ∧ eviction_count (r_st r') = eviction_count st1.
Proof.
  apply (modify_second_access_hits scan_llx_u (config 1 1 1)
           (fresh_replay 1 1 1) (list_ascii_of_string " M 10,1")).
  - unfold good_geometry. simpl. lia.
  - apply reach_init. vm_compute. reflexivity.
  - reflexivity.
Defined.

Lemma buf_at_fgets ln buf :
  ln ≠ [] → buf_at (fgets ln buf) 1 = second_char ln.
Proof.
  intros Hne. unfold buf_at, fgets, second_char.
  destruct ln as [|c [|d ln]]; done.
Qed.

Lemma is_access_recognised ln :
  is_access (second_char ln) = true ↔ recognised ln.
Proof.
  unfold is_access, recognised.
  rewrite !orb_true_iff, !Ascii.eqb_eq. tauto.
Qed.

Lemma line_accesses_unrecognised ln :
  is_access (second_char ln) = false → line_accesses ln = 0.
Proof.
  unfold is_access, line_accesses. cbv zeta.
  rewrite !orb_false_iff. intros [[HS HL] HM]. by rewrite HM, HL, HS.
Qed.

Lemma line_accesses_recognised ln :
  is_access (second_char ln) = true →
  line_accesses ln = if Ascii.eqb (second_char ln) "M" then 2 else 1.
Proof.
  unfold is_access, line_accesses. cbv zeta.
  destruct (Ascii.eqb (second_char ln) "M"); [done|].
  rewrite orb_false_r. intros H. by rewrite orb_comm, H.
Qed.

Lemma trace_accesses_nonneg lines : 0 ≤ trace_accesses lines.
Proof.
  induction lines as [|ln lines IH]; simpl; [done|].
  unfold line_accesses. cbv zeta.
  repeat match goal with |- context [if ?c then _ else _] => destruct c end;
    lia.
Qed.

(** One call adds one to exactly one of [hit_count] and [miss_count]. *)
Lemma access_counts_one st0 st addr :
  good_geometry st0 → reachable st0 st → is_addr addr →
  ∃ st', accessData addr st = Some st'
         ∧ reachable st0 st'
         ∧ ((hit_count st' = to_int (hit_count st + 1)
             ∧ miss_count st' = miss_count st)
            ∨ (hit_count st' = hit_count st
               ∧ miss_count st' = to_int (miss_count st + 1))).
Proof.
  intros Hg Hr Ha.
  destruct (reachable_inv st0 st Hg Hr) as [sets Hinv].
  destruct (access_step st sets addr Hinv)
    as (l & l' & o & st' & _ & _ & Hacc & _ & _ & Hcnt & _).
  exists st'. split; [done|]. split; [by eapply reach_access|].
  unfold counters in Hcnt.
  destruct o; simpl in Hcnt; injection Hcnt as -> -> _; auto.
Qed.

(** The same where the counters are far from the end of [int]. *)
Lemma access_counts_sum st0 st addr :
  good_geometry st0 → reachable st0 st → is_addr addr →
  0 ≤ hit_count st → 0 ≤ miss_count st →
  hit_count st + miss_count st < INT_MAX →
  ∃ st', accessData addr st = Some st'
         ∧ reachable st0 st'
         ∧ 0 ≤ hit_count st' ∧ 0 ≤ miss_count st'
         ∧ hit_count st' + miss_count st'
           = hit_count st + miss_count st + 1.
Proof.
  intros Hg Hr Ha Hh Hm Hsum. unfold INT_MAX in Hsum.
  destruct (access_counts_one st0 st addr Hg Hr Ha)
    as (st' & Hacc & Hr' & [[Hh' Hm']|[Hh' Hm']]);
    exists st'; (split; [done|]); (split; [done|]);
    rewrite Hh', Hm'; rewrite to_int_small by lia; lia.
Qed.

Lemma replay_line_counts sscanf st0 r ln :
  good_geometry st0 → reachable st0 (r_st r) → ln ≠ [] →
  0 ≤ hit_count (r_st r) → 0 ≤ miss_count (r_st r) →
  hit_count (r_st r) + miss_count (r_st r) + line_accesses ln ≤ INT_MAX →
  ∃ r', replay_line sscanf ln r = Some r'
        ∧ reachable st0 (r_st r')
        ∧ 0 ≤ hit_count (r_st r') ∧ 0 ≤ miss_count (r_st r')
        ∧ hit_count (r_st r') + miss_count (r_st r')
          = hit_count (r_st r) + miss_count (r_st r) + line_accesses ln.
Proof.
  intros Hg Hr Hne Hh Hm Hsum. unfold replay_line.
  rewrite (buf_at_fgets _ _ Hne).
  destruct (is_access (second_char ln)) eqn:Hacc.
  - rewrite (line_accesses_recognised _ Hacc) in Hsum |- *.
    destruct (sscanf (drop 3 (fgets ln (r_buf r))) (r_addr r, r_len r))
      as [a l] eqn:Hscan.
    destruct (access_counts_sum st0 (r_st r) (to_ull a) Hg Hr
                (is_addr_to_ull a) Hh Hm)
      as (st1 & Hacc1 & Hr1 & Hh1 & Hm1 & Hs1).
    { destruct (Ascii.eqb (second_char ln) "M"); lia. }
    rewrite Hacc1. cbn [mbind option_bind].
    destruct (Ascii.eqb (second_char ln) "M").
    + destruct (access_counts_sum st0 st1 (to_ull a) Hg Hr1
                  (is_addr_to_ull a) Hh1 Hm1)
        as (st2 & Hacc2 & Hr2 & Hh2 & Hm2 & Hs2); [lia|].
      rewrite Hacc2. cbn [mbind option_bind].
      eexists. split; [reflexivity|]. cbn [r_st].
      split; [done|]. split; [done|]. split; [done|]. lia.
    + cbn [mbind option_bind].
      eexists. split; [reflexivity|]. cbn [r_st].
      split; [done|]. split; [done|]. split; [done|]. lia.
  - rewrite (line_accesses_unrecognised _ Hacc).
    eexists. split; [reflexivity|]. cbn [r_st].
    split; [done|]. split; [done|]. split; [done|]. lia.
Qed.

Lemma replay_lines_counts sscanf st0 lines : ∀ r,
  good_geometry st0 → reachable st0 (r_st r) →
  Forall (λ ln, ln ≠ []) lines →
  0 ≤ hit_count (r_st r) → 0 ≤ miss_count (r_st r) →
  hit_count (r_st r) + miss_count (r_st r) + trace_accesses lines
    ≤ INT_MAX →
  ∃ r', replay_lines sscanf lines r = Some r'
        ∧ hit_count (r_st r') + miss_count (r_st r')
          = hit_count (r_st r) + miss_count (r_st r) + trace_accesses lines.
Proof.
  induction lines as [|ln lines IH]; intros r Hg Hr Hne Hh Hm Hsum.
  - exists r. simpl. split; [done|lia].
  - apply Forall_cons in Hne as [Hne1 Hne].
    cbn [trace_accesses foldr] in Hsum |- *.
    fold (trace_accesses lines) in Hsum |- *.
    pose proof (trace_accesses_nonneg lines) as Hnn.
    destruct (replay_line_counts sscanf st0 r ln Hg Hr Hne1 Hh Hm)
      as (r1 & Hrl & Hr1 & Hh1 & Hm1 & Hs1); [lia|].
    destruct (IH r1 Hg Hr1 Hne Hh1 Hm1) as (r' & Hrls & Hs'); [lia|].
    exists r'. cbn [replay_lines]. rewrite Hrl. cbn [mbind option_bind].
    split; [done|lia].
Qed.

Lemma to_int_add_l x y : to_int (to_int x + y) = to_int (x + y).
Proof.
  unfold to_int.
  replace ((x + 2 ^ 31) mod 2 ^ 32 - 2 ^ 31 + y + 2 ^ 31)
    with ((x + 2 ^ 31) mod 2 ^ 32 + y) by lia.
  rewrite Zplus_mod_idemp_l. f_equal. f_equal. lia.
Qed.

Lemma to_int_add_r x y : to_int (x + to_int y) = to_int (x + y).
Proof. rewrite Z.add_comm, to_int_add_l. f_equal. lia. Qed.

Lemma to_int_congr x y c :
  to_int x = to_int y → to_int (x + c) = to_int (y + c).
Proof.
  intros H. rewrite <- (to_int_add_l x), <- (to_int_add_l y). by rewrite H.
Qed.

(** One call adds one to [hit_count + miss_count], as [int]s add. *)
Lemma access_counts_mod st0 st addr :
  good_geometry st0 → reachable st0 st → is_addr addr →
  ∃ st', accessData addr st = Some st'
         ∧ reachable st0 st'
         ∧ to_int (hit_count st' + miss_count st')
           = to_int (hit_count st + miss_count st + 1).
Proof.
  intros Hg Hr Ha.
  destruct (access_counts_one st0 st addr Hg Hr Ha)
    as (st' & Hacc & Hr' & [[Hh Hm]|[Hh Hm]]);
    exists st'; (split; [done|]); (split; [done|]); rewrite Hh, Hm.
  - rewrite to_int_add_l. f_equal. lia.
  - rewrite to_int_add_r. f_equal. lia.
Qed.

Lemma replay_line_mod sscanf st0 r ln :
  good_geometry st0 → reachable st0 (r_st r) → ln ≠ [] →
  ∃ r', replay_line sscanf ln r = Some r'
        ∧ reachable st0 (r_st r')
        ∧ to_int (hit_count (r_st r') + miss_count (r_st r'))
          = to_int (hit_count (r_st r) + miss_count (r_st r)
                    + line_accesses ln).
Proof.
  intros Hg Hr Hne. unfold replay_line.
  rewrite (buf_at_fgets _ _ Hne).
  destruct (is_access (second_char ln)) eqn:Hacc.
  - rewrite (line_accesses_recognised _ Hacc).
    destruct (sscanf (drop 3 (fgets ln (r_buf r))) (r_addr r, r_len r))
      as [a l] eqn:Hscan.
    destruct (access_counts_mod st0 (r_st r) (to_ull a) Hg Hr
                (is_addr_to_ull a)) as (st1 & Hacc1 & Hr1 & Hs1).
    rewrite Hacc1. cbn [mbind option_bind].
    destruct (Ascii.eqb (second_char ln) "M").
    + destruct (access_counts_mod st0 st1 (to_ull a) Hg Hr1
                  (is_addr_to_ull a)) as (st2 & Hacc2 & Hr2 & Hs2).
      rewrite Hacc2. cbn [mbind option_bind].
      eexists. split; [reflexivity|]. cbn [r_st]. split; [done|].
      rewrite Hs2. rewrite (to_int_congr _ _ 1 Hs1). f_equal. lia.
    + cbn [mbind option_bind].
      eexists. split; [reflexivity|]. cbn [r_st]. by split.
  - rewrite (line_accesses_unrecognised _ Hacc).
    eexists. split; [reflexivity|]. cbn [r_st]. split; [done|].
    f_equal. lia.
Qed.

Lemma replay_lines_mod sscanf st0 lines : ∀ r,
  good_geometry st0 → reachable st0 (r_st r) →
  Forall (λ ln, ln ≠ []) lines →
  ∃ r', replay_lines sscanf lines r = Some r'
        ∧ to_int (hit_count (r_st r') + miss_count (r_st r'))
          = to_int (hit_count (r_st r) + miss_count (r_st r)
                    + trace_accesses lines).
Proof.
  induction lines as [|ln lines IH]; intros r Hg Hr Hne.
  - exists r. simpl. split; [done|]. f_equal. lia.
  - apply Forall_cons in Hne as [Hne1 Hne].
    cbn [trace_accesses foldr]. fold (trace_accesses lines).
    destruct (replay_line_mod sscanf st0 r ln Hg Hr Hne1)
      as (r1 & Hrl & Hr1 & Hs1).
    destruct (IH r1 Hg Hr1 Hne) as (r' & Hrls & Hs').
    exists r'. cbn [replay_lines]. rewrite Hrl. cbn [mbind option_bind].
    split; [done|]. rewrite Hs'.
    rewrite (to_int_congr _ _ (trace_accesses lines) Hs1). f_equal. lia.
Qed.

(** X22: conservation, for [0 ≤ s ≤ 30], [0 ≤ b], [s + b ≤ 31] and
    [1 ≤ E].  Replaying a trace, whose lines have at least one character
    each, on the cache [initCache] built on such a geometry, with the
    counters at zero as the program starts them, returns, and leaves
    [hit_count + miss_count] equal to the number of accesses of the
    trace, one for each line with [L] or [S] as its second character
    and two for each with [M]: equal as [int]s for every trace, and equal
    outright when the number is one an [int] holds.  Each call of
    [accessData] on a 64-bit address in a state the program can reach
    returns and adds one to exactly one of the two counters. *)
Theorem replay_conservation sscanf buf0 st0 lines out :
  good_geometry st0 → hit_count st0 = 0 → miss_count st0 = 0 →
  Forall (λ ln, ln ≠ []) lines →
  (∃ st1 r,
      initCache st0 = Some st1
      ∧ replay_lines sscanf lines (Replay buf0 0 0 st1 out) = Some r
      ∧ to_int (hit_count (r_st r) + miss_count (r_st r))
        = to_int (trace_accesses lines)
      ∧ (trace_accesses lines ≤ INT_MAX →
         hit_count (r_st r) + miss_count (r_st r) = trace_accesses lines))
  ∧ ∀ st addr, reachable st0 st → is_addr addr →
      ∃ st', accessData addr st = Some st'
             ∧ ((hit_count st' = to_int (hit_count st + 1)
                 ∧ miss_count st' = miss_count st)
                ∨ (hit_count st' = hit_count st
                   ∧ miss_count st' = to_int (miss_count st + 1))).
Proof.
  intros Hg Hh0 Hm0 Hne. split.
  - destruct (initCache_inv st0 Hg)
      as (st1 & sets & Hi & _ & _ & Hcnt & _).
    unfold counters in Hcnt. injection Hcnt as Hh1 Hm1 _.
    pose proof (reach_init _ _ Hi) as Hr1.
    destruct (replay_lines_mod sscanf st0 lines (Replay buf0 0 0 st1 out))
      as (r & Hrun & Hs); [done..|].
    cbn [r_st] in Hs. rewrite Hh1, Hm1, Hh0, Hm0 in Hs.
    exists st1, r. split; [done|]. split; [done|]. split; [exact Hs|].
    intros Hsum.
    destruct (replay_lines_counts sscanf st0 lines (Replay buf0 0 0 st1 out))
      as (r' & Hrun' & Hs'); cbn [r_st]; [done|done|done|lia..|].
    rewrite Hrun in Hrun'. injection Hrun' as <-.
    cbn [r_st] in Hs'. lia.
  - intros st addr Hr Ha.
    destruct (access_counts_one st0 st addr Hg Hr Ha) as (st' & ? & _ & ?).
    by exists st'.
Qed.

Lemma replay_conservation_witness :
  (∃ st1 r,
      initCache (config 1 1 1) = Some st1
      ∧ replay_lines scan_llx_u
          (trace_lines [" L 0,1"; " M 8,1"; "I 0,4"]%string)
          (Replay [] 0 0 st1 []) = Some r
      ∧ to_int (hit_count (r_st r) + miss_count (r_st r))
        = to_int (trace_accesses
                    (trace_lines [" L 0,1"; " M 8,1"; "I 0,4"]%string))
      ∧ (trace_accesses (trace_lines [" L 0,1"; " M 8,1"; "I 0,4"]%string)
           ≤ INT_MAX →
         hit_count (r_st r) + miss_count (r_st r)
         = trace_accesses
             (trace_lines [" L 0,1"; " M 8,1"; "I 0,4"]%string)))
  ∧ ∀ st addr, reachable (config 1 1 1) st → is_addr addr →
      ∃ st', accessData addr st = Some st'
             ∧ ((hit_count st' = to_int (hit_count st + 1)
                 ∧ miss_count st' = miss_count st)
                ∨ (hit_count st' = hit_count st
                   ∧ miss_count st' = to_int (miss_count st + 1))).
Proof.
  apply (replay_conservation scan_llx_u [] (config 1 1 1)
           (trace_lines [" L 0,1"; " M 8,1"; "I 0,4"]%string) []).
  - unfold good_geometry. simpl. lia.
  - reflexivity.
  - reflexivity.
  - repeat constructor; discriminate.
Defined.

Lemma to_int_succ2_ne z : to_int (to_int (z + 1) + 1) ≠ z.
Proof.
  unfold to_int. intros Heq.
  pose proof (Z.div_mod (z + 1 + 2 ^ 31) (2 ^ 32)) as H1.
  pose proof (Z.div_mod ((z + 1 + 2 ^ 31) mod 2 ^ 32 - 2 ^ 31 + 1 + 2 ^ 31)
                (2 ^ 32)) as H2.
  lia.
Qed.

(** X25: every line is handled, for [0 ≤ s ≤ 30], [0 ≤ b],
    [s + b ≤ 31] and [1 ≤ E].  A line of at least one character, read in
    a state the program can reach on such a geometry, is handled without
    fault whatever it holds; the counters move if and only if its second
    character is [L], [S] or [M]; any other line leaves the counters,
    the cache and the output as they were; and either way the replay
    goes on with the next line. *)
Theorem replay_line_handled sscanf st0 r ln :
  good_geometry st0 → reachable st0 (r_st r) → ln ≠ [] →
  ∃ r', replay_line sscanf ln r = Some r'
        ∧ (recognised ln ↔ counters (r_st r') ≠ counters (r_st r))
        ∧ (¬ recognised ln → r_st r' = r_st r ∧ r_out r' = r_out r)
        ∧ ∀ rest, replay_lines sscanf (ln :: rest) r
                  = replay_lines sscanf rest r'.
Proof.
  intros Hg Hr Hne.
  assert (Hnext : ∀ r', replay_line sscanf ln r = Some r' →
            ∀ rest, replay_lines sscanf (ln :: rest) r
                    = replay_lines sscanf rest r').
  { intros r' Hr' rest. cbn [replay_lines]. by rewrite Hr'. }
  pose proof (is_access_recognised ln) as Hrec.
  unfold replay_line in *.
  rewrite (buf_at_fgets _ _ Hne) in *.
  destruct (is_access (second_char ln)) eqn:Hacc.
  - destruct (sscanf (drop 3 (fgets ln (r_buf r))) (r_addr r, r_len r))
      as [a l] eqn:Hscan.
    destruct (access_twice st0 (r_st r) (to_ull a) Hg Hr (is_addr_to_ull a))
      as (st1 & st2 & ts & o & Hacc1 & _ & Hacc2 & Hcnt1 & Hcnt2).
    rewrite Hacc1 in *. cbn [mbind option_bind] in *.
    assert (Hrecd : recognised ln) by (by apply Hrec).
    unfold counters in Hcnt1, Hcnt2.
    destruct (Ascii.eqb (second_char ln) "M").
    + rewrite Hacc2 in *. cbn [mbind option_bind] in *.
      eexists. split; [reflexivity|]. cbn [r_st r_out].
      split; [|split; [done|by apply Hnext]].
      split; [intros _|done]. unfold counters. intros Heq.
      pose proof (to_int_succ_ne (miss_count (r_st r))).
      pose proof (to_int_succ2_ne (hit_count (r_st r))).
      destruct o; simpl in Hcnt1, Hcnt2; congruence.
    + cbn [mbind option_bind] in *.
      eexists. split; [reflexivity|]. cbn [r_st r_out].
      split; [|split; [done|by apply Hnext]].
      split; [intros _|done]. unfold counters. intros Heq.
      pose proof (to_int_succ_ne (miss_count (r_st r))).
      pose proof (to_int_succ_ne (hit_count (r_st r))).
      destruct o; simpl in Hcnt1; congruence.
  - eexists. split; [reflexivity|]. cbn [r_st r_out].
    split; [|split; [done|by apply Hnext]].
    split; [|done]. intros Hrecd. apply Hrec in Hrecd. done.
Qed.

Lemma replay_line_handled_witness :
  ∃ r', replay_line scan_llx_u (list_ascii_of_string "I 0400d7d4,8")
          (fresh_replay 1 1 1) = Some r'
        ∧ (recognised (list_ascii_of_string "I 0400d7d4,8")
           ↔ counters (r_st r') ≠ counters (r_st (fresh_replay 1 1 1)))
        ∧ (¬ recognised (list_ascii_of_string "I 0400d7d4,8") →
           r_st r' = r_st (fresh_replay 1 1 1)
           ∧ r_out r' = r_out (fresh_replay 1 1 1))
        ∧ ∀ rest,
            replay_lines scan_llx_u
              (list_ascii_of_string "I 0400d7d4,8" :: rest)
              (fresh_replay 1 1 1)
            = replay_lines scan_llx_u rest r'.
Proof.
  apply (replay_line_handled scan_llx_u (config 1 1 1)
           (fresh_replay 1 1 1) (list_ascii_of_string "I 0400d7d4,8")).
  - unfold good_geometry. simpl. lia.
  - apply reach_init. vm_compute. reflexivity.
  - discriminate.
Defined.

(** ** Filling a set and overflowing it *)

Lemma atags_unused l : Forall unused l → atags l = [].
Proof.
  unfold atags. induction 1 as [|x l [Hx _] _ IH]; [done|].
  by rewrite filter_cons_False by congruence.
Qed.

Lemma removelast_reverse {A} (l : list A) :
  removelast (reverse l) = reverse (tail l).
Proof.
  destruct l as [|x l]; [done|].
  rewrite reverse_cons. by rewrite removelast_last.
Qed.

Lemma set_index_reachable st0 st a :
  good_geometry st0 → reachable st0 st →
  set_index a st = set_index a st0 ∧ tag_of a st = tag_of a st0.
Proof.
  intros Hg Hr.
  destruct (reachable_geometry st0 st Hg Hr) as (Hs & Hb & _).
  unfold set_index, tag_of. by rewrite Hs, Hb.
Qed.

(** Addresses of one set whose tags are new to it and different from one
    another, as long as the set has room: each is a miss without
    eviction and goes in front. *)
Lemma fill_set st0 i addrs : ∀ st ts,
  good_geometry st0 → reachable st0 st →
  Forall is_addr addrs →
  (∀ a, a ∈ addrs → set_index a st0 = i) →
  set_tags (Z.to_nat i) st = Some ts →
  NoDup (((λ a, tag_of a st0) <$> addrs) ++ ts) →
  Z.of_nat (length ts + length addrs) ≤ E st0 →
  0 ≤ miss_count st →
  miss_count st + Z.of_nat (length addrs) ≤ INT_MAX →
  ∃ st', access_all addrs st = Some st'
         ∧ reachable st0 st'
         ∧ set_tags (Z.to_nat i) st'
           = Some (reverse ((λ a, tag_of a st0) <$> addrs) ++ ts)
         ∧ hit_count st' = hit_count st
         ∧ miss_count st' = miss_count st + Z.of_nat (length addrs)
         ∧ eviction_count st' = eviction_count st.
Proof.
  induction addrs as [|a addrs IH];
    intros st ts Hg Hr Ha Hidx Hts Hnd Hlen Hm Hmax.
  { exists st. simpl. split; [done|]. split; [done|]. split; [done|].
    split; [done|]. split; [lia|done]. }
  apply Forall_cons in Ha as [Ha1 Ha].
  cbn [fmap list_fmap app] in Hnd. apply NoDup_cons in Hnd as [Hnew Hnd].
  cbn [length] in Hlen, Hmax. unfold INT_MAX in Hmax.
  destruct (set_index_reachable st0 st a Hg Hr) as [Hsi Hta].
  destruct (reachable_geometry st0 st Hg Hr) as (_ & _ & HE & _).
  destruct (access_lru st0 st a Hg Hr Ha1)
    as (st1 & ts0 & ts1 & o & _ & _ & Hacc & Hts0 & Hts1 & Hlru & Hcnt).
  rewrite Hsi, (Hidx a) in Hts0, Hts1 by left.
  rewrite Hts in Hts0. injection Hts0 as <-.
  rewrite Hta, HE in Hlru. unfold lru_access in Hlru.
  rewrite bool_decide_false in Hlru
    by (intros Hin; apply Hnew; apply elem_of_app; by right).
  rewrite bool_decide_true in Hlru by lia.
  injection Hlru as <- <-.
  unfold counters in Hcnt. simpl in Hcnt. injection Hcnt as Hh1 Hm1 He1.
  rewrite to_int_small in Hm1 by lia.
  destruct (IH st1 (tag_of a st0 :: ts))
    as (st' & Hall & Hr' & Hts' & Hh' & Hm' & He').
  { done. }
  { by eapply reach_access. }
  { done. }
  { intros a0 Ha0. apply Hidx. by right. }
  { done. }
  { apply NoDup_app. apply NoDup_app in Hnd as (Hn1 & Hn2 & Hn3).
    split; [done|]. split.
    - intros x Hx [->|Hx']%elem_of_cons.
      + apply Hnew. apply elem_of_app. by left.
      + by apply (Hn2 x).
    - constructor; [|done]. intros Hin. apply Hnew. apply elem_of_app.
      by right. }
  { cbn [length]. lia. }
  { lia. }
  { unfold INT_MAX. lia. }
  exists st'. cbn [access_all]. rewrite Hacc. cbn [mbind option_bind].
  split; [done|]. split; [done|]. split.
  { rewrite Hts'. cbn [fmap list_fmap]. rewrite reverse_cons.
    by rewrite <- app_assoc. }
  split; [congruence|]. split; [cbn [length]; lia|congruence].
Qed.

(** C7, as the code has it: capacity-triggered eviction, for
    [0 ≤ s ≤ 30], [0 ≤ b], [s + b ≤ 31] and [1 ≤ E].  On a new cache
    with the counters at zero, [E] 64-bit addresses of one set whose
    tags differ from one another give [E] misses, no hit and no
    eviction; one more address of that set with yet another tag is
    counted as a miss with eviction, and the tag that leaves the set is
    the one of the first address, the least recently touched.  ([E] is
    an [int].) *)
Theorem capacity_eviction st0 addrs a' :
  good_geometry st0 → counters st0 = (0, 0, 0) → E st0 ≤ INT_MAX →
  Z.of_nat (length addrs) = E st0 →
  Forall is_addr addrs → is_addr a' →
  (∀ a, a ∈ addrs → set_index a st0 = set_index a' st0) →
  NoDup ((λ a, tag_of a st0) <$> a' :: addrs) →
  ∃ st1 st2 st3,
    initCache st0 = Some st1
    ∧ access_all addrs st1 = Some st2
    ∧ counters st2 = (0, E st0, 0)
    ∧ set_tags (Z.to_nat (set_index a' st0)) st2
      = Some (reverse ((λ a, tag_of a st0) <$> addrs))
    ∧ accessData a' st2 = Some st3
    ∧ counters st3 = count_outcome MissEvict (counters st2)
    ∧ set_tags (Z.to_nat (set_index a' st0)) st3
      = Some (tag_of a' st0
              :: reverse (tail ((λ a, tag_of a st0) <$> addrs))).
Proof.
  intros Hg Hcnt0 HEmax Hlen Ha Ha' Hidx Hnd. unfold INT_MAX in HEmax.
  pose proof Hg as (Hs & Hb & Hsb & HE).
  destruct (initCache_inv st0 Hg)
    as (st1 & sets & Hi & Hinv & Hun & Hcnt1 & Hs1 & Hb1 & HE1 & HS1 & _).
  rewrite Hcnt0 in Hcnt1. unfold counters in Hcnt1.
  injection Hcnt1 as Hh1 Hm1 He1.
  pose proof (reach_init _ _ Hi) as Hr1.
  cbn [fmap list_fmap] in Hnd. apply NoDup_cons in Hnd as [Hnew Hnd].
  (* the set is empty at first *)
  assert (Hidx' : 0 ≤ set_index a' st0 < 2 ^ s st0)
    by (apply set_index_bound; lia).
  destruct (lookup_lt_is_Some_2 sets (Z.to_nat (set_index a' st0)))
    as [l Hl].
  { rewrite (wf_len _ _ (proj1 Hinv)), HS1. lia. }
  assert (Hempty : set_tags (Z.to_nat (set_index a' st0)) st1 = Some []).
  { rewrite (inv_set_tags _ _ _ _ Hinv Hl). f_equal.
    apply atags_unused. exact (Forall_lookup_1 _ _ _ _ Hun Hl). }
  destruct (fill_set st0 (set_index a' st0) addrs st1 [])
    as (st2 & Hall & Hr2 & Hts2 & Hh2 & Hm2 & He2);
    [done|done|done|done|done|by rewrite app_nil_r|simpl; lia|lia|
     unfold INT_MAX; lia|].
  rewrite app_nil_r in Hts2.
  destruct (set_index_reachable st0 st2 a' Hg Hr2) as [Hsi Hta].
  destruct (reachable_geometry st0 st2 Hg Hr2) as (_ & _ & HE2 & _).
  destruct (access_lru st0 st2 a' Hg Hr2 Ha')
    as (st3 & ts0 & ts1 & o & _ & _ & Hacc & Hts0 & Hts1 & Hlru & Hcnt).
  rewrite Hsi in Hts0, Hts1. rewrite Hts2 in Hts0. injection Hts0 as <-.
  rewrite Hta, HE2 in Hlru. unfold lru_access in Hlru.
  rewrite bool_decide_false in Hlru
    by (by rewrite elem_of_reverse).
  rewrite bool_decide_false in Hlru
    by (rewrite length_reverse, length_fmap; lia).
  injection Hlru as <- <-.
  exists st1, st2, st3. split; [done|]. split; [done|].
  split; [unfold counters; f_equal; [f_equal|]; lia|].
  split; [done|]. split; [done|]. split; [done|].
  by rewrite Hts1, removelast_reverse.
Qed.

Lemma capacity_eviction_witness :
  ∃ st1 st2 st3,
    initCache (config 1 2 1) = Some st1
    ∧ access_all [0; 8] st1 = Some st2
    ∧ counters st2 = (0, E (config 1 2 1), 0)
    ∧ set_tags (Z.to_nat (set_index 16 (config 1 2 1))) st2
      = Some (reverse ((λ a, tag_of a (config 1 2 1)) <$> [0; 8]))
    ∧ accessData 16 st2 = Some st3
    ∧ counters st3 = count_outcome MissEvict (counters st2)
    ∧ set_tags (Z.to_nat (set_index 16 (config 1 2 1))) st3
      = Some (tag_of 16 (config 1 2 1)
              :: reverse (tail ((λ a, tag_of a (config 1 2 1)) <$> [0; 8]))).
Proof.
  apply (capacity_eviction (config 1 2 1) [0; 8] 16).
  - unfold good_geometry. simpl. lia.
  - reflexivity.
  - vm_compute. discriminate.
  - reflexivity.
  - repeat constructor; unfold is_addr; lia.
  - unfold is_addr. lia.
  - intros a Ha. apply list_elem_of_In in Ha. simpl in Ha.
    destruct Ha as [<-|[<-|[]]]; reflexivity.
  - vm_compute. apply NoDup_ListNoDup. repeat constructor; simpl; lia.
Defined.

(** C7 as stated fails: two different addresses of one block are
    different addresses of one set, and the second is a hit.  With
    [s = 1], [E = 2], [b = 1] the addresses 0 and 1 give one miss and one
    hit, not [E] misses.  And with [s = 4], [E = 1], [b = 28] the one
    access to [7ff000998], an address of set 15, does not return: no
    miss is counted. *)
Lemma distinct_addresses_one_block :
  (∃ st, initCache (config 1 2 1) ≫= access_all [0; 1] = Some st
         ∧ set_index 0 st = set_index 1 st
         ∧ E st = 2
         ∧ miss_count st = 1 ∧ hit_count st = 1)
  ∧ E (config 4 1 28) = 1
  ∧ set_index 0x7ff000998 (config 4 1 28) = 15
  ∧ initCache (config 4 1 28) ≫= access_all [0x7ff000998] = None.
Proof.
  split; [eexists|]; vm_compute; repeat split; reflexivity.
Qed.

(** ** Properties of main *)

Lemma missing_arg_true st : missing_arg st = true ↔ missing st.
Proof.
  unfold missing_arg, missing.
  rewrite !orb_true_iff, !Z.eqb_eq, bool_decide_eq_true. tauto.
Qed.

Lemma parse_args_heap prog opts : ∀ st out,
  match parse_args prog opts st out with
  | Running st' _ | Exited _ st' _ | Aborted st' _ =>
      mem st' = mem st ∧ cache st' = cache st
  end.
Proof.
  induction opts as [|o opts IH]; intros st out; [done|].
  destruct o; simpl; try done;
    match goal with
    | |- context [parse_args _ _ ?s0 ?o0] =>
        specialize (IH s0 o0); destruct (parse_args prog opts s0 o0);
        exact IH
    end.
Qed.

(** C4, as the code has it: a missing argument.  When the options leave
    [s], [E] or [b] at zero or give no trace file, [main] writes the
    missing-argument message and then the usage text, and exits with
    nothing allocated: no array of sets and no line. *)
Theorem missing_argument_aborts sscanf fopen fopen_w buf0 prog opts st out :
  parse_args prog opts initial_state [] = Running st out →
  missing st →
  ∃ code,
    main sscanf fopen fopen_w buf0 prog opts
      = Some (Exited code st (out ++ [OutMissingArg prog; OutUsage prog]))
    ∧ cache st = [] ∧ mem st = [].
Proof.
  intros Hp Hm. unfold main. rewrite Hp.
  apply missing_arg_true in Hm. rewrite Hm.
  exists 0. split.
  - unfold printUsage, then_exit. by rewrite <- app_assoc.
  - pose proof (parse_args_heap prog opts initial_state []) as Hh.
    rewrite Hp in Hh. by destruct Hh.
Qed.

Lemma missing_argument_aborts_witness :
  ∃ code,
    main scan_llx_u (one_file []) writable [] "csim"
         [Opt_s 1; Opt_b 1; Opt_t "yi.trace"]
      = Some (Exited code
                (set_trace_file (Some "yi.trace"%string)
                   (set_b 1 (set_s 1 initial_state)))
                ([] ++ [OutMissingArg "csim"; OutUsage "csim"]))
    ∧ cache (set_trace_file (Some "yi.trace"%string)
               (set_b 1 (set_s 1 initial_state))) = []
    ∧ mem (set_trace_file (Some "yi.trace"%string)
             (set_b 1 (set_s 1 initial_state))) = [].
Proof.
  apply (missing_argument_aborts scan_llx_u (one_file []) writable [] "csim"
           [Opt_s 1; Opt_b 1; Opt_t "yi.trace"]).
  - reflexivity.
  - right. left. reflexivity.
Defined.

(** C4 as stated fails: a negative number of lines per set is not
    positive, yet [main] goes on, builds the cache, replays the trace and
    prints the summary; the usage text is not shown. *)
Lemma negative_E_is_accepted :
  ∃ st,
    main scan_llx_u (one_file []) writable [] "csim"
         [Opt_s 1; Opt_E (-1); Opt_b 1; Opt_t "yi.trace"]
      = Some (Exited 0 st [OutSummary 0 0 0; OutResults 0 0 0])
    ∧ E st = -1 ∧ length (mem st) = 2%nat.
Proof. eexists. vm_compute. repeat split; reflexivity. Qed.

(** Where the usage text is shown the exit status is that of
    [printUsage], which calls [exit(0)] itself; the [exit(1)] that follows
    the call in [main] is never reached. *)
Lemma usage_exit_status :
  main scan_llx_u (one_file []) writable [] "csim" []
  = Some (Exited 0 initial_state [OutMissingArg "csim"; OutUsage "csim"]).
Proof. reflexivity. Qed.

(** ** The address arithmetic outside the range of [int] *)

(** C2 at [s = 4], [b = 28] and the address [7ff000998]: the mask
    [((1 << s) - 1) << b] is computed at type [int], where [0xf0000000]
    does not fit and comes out negative; converted to [mem_addr_t] it has
    every bit above bit 27 set, so the tag bits stay in [m].  The set
    index [accessData] computes is 127, which is not
    [(address >> b) mod 2^s = 15] and is not below the number of sets,
    16: the call reads outside [cache]. *)
Lemma mask_overflow_set_index :
  mask_of (fresh_cache 4 1 28) = Some 0xfffffffff0000000
  ∧ s_bits_of 0x7ff000998 (fresh_cache 4 1 28) = Some 127
  ∧ set_index 0x7ff000998 (fresh_cache 4 1 28) = 15
  ∧ S_sets (fresh_cache 4 1 28) = 16
  ∧ accessData 0x7ff000998 (fresh_cache 4 1 28) = None.
Proof. vm_compute. repeat split; reflexivity. Qed.

(** C5 at [-s 4 -E 1 -b 28]: the replay of the one line
    [ L 7ff000998,8], which stands for one access, does not return,
    since that access reads [cache[127]]: no final value of the counters
    exists.  A trace of low addresses is replayed on the same cache
    without fault. *)
Lemma replay_wide_mask_fault :
  trace_accesses (trace_lines [" L 7ff000998,8"]%string) = 1
  ∧ replay_lines scan_llx_u (trace_lines [" L 7ff000998,8"]%string)
      (fresh_replay 4 1 28) = None
  ∧ replay_counts 4 1 28 [" L 998,8"; " M 998,8"]%string = Some (2, 1, 0).
Proof. vm_compute. repeat split; reflexivity. Qed.

(** C6 at [-s 4 -E 1 -b 28]: for the record [ M 7ff000998,8] read on the
    new cache the first of the two calls already fails, and the turn of
    the loop with it: there is no second call to be a hit. *)
Lemma modify_wide_mask_fault :
  second_char (list_ascii_of_string " M 7ff000998,8") = "M"%char
  ∧ accessData 0x7ff000998 (fresh_cache 4 1 28) = None
  ∧ replay_line scan_llx_u (list_ascii_of_string " M 7ff000998,8")
      (fresh_replay 4 1 28) = None.
Proof. vm_compute. repeat split; reflexivity. Qed.


(** ** The scenarios of the specification, run *)

(** Section 8 of the specification, with [s = 1], [E = 1], [b = 1]; a
    data access has a blank before its letter, as Valgrind writes it. *)

Example scenario_same_address :
  replay_counts 1 1 1 [" L 0,1"; " L 0,1"]%string = Some (1, 1, 0).
Proof. vm_compute. reflexivity. Qed.

Example scenario_conflict :
  replay_counts 1 1 1 [" L 0,1"; " L 8,1"]%string = Some (0, 2, 1).
Proof. vm_compute. reflexivity. Qed.

Example scenario_modify :
  replay_counts 1 1 1 [" M 0,1"]%string = Some (1, 1, 0).
Proof. vm_compute. reflexivity. Qed.

Example scenario_two_sets :
  replay_counts 1 1 1 [" L 0,1"; " L 2,1"; " L 0,1"]%string = Some (1, 2, 0).
Proof. vm_compute. reflexivity. Qed.

(** A line whose letter is in the first column is not an access. *)
Example scenario_first_column :
  replay_counts 1 1 1 ["L 0,1"; "I 0,4"]%string = Some (0, 0, 0).
Proof. vm_compute. reflexivity. Qed.

(** The whole program on a short trace with [s = 4], [E = 1], [b = 4]. *)
Example main_short_trace :
  ∃ st,
    main scan_llx_u
      (one_file [" L 10,1"; " M 20,1"; " L 22,1"; " S 18,1"; " L 110,1";
                 " L 210,1"; " M 12,1"]%string)
      writable [] "csim" [Opt_s 4; Opt_E 1; Opt_b 4; Opt_t "yi.trace"]
    = Some (Exited 0 st [OutSummary 4 5 3; OutResults 4 5 3]).
Proof. eexists. vm_compute. reflexivity. Qed.

(** The same run in a directory where [.csim_results] cannot be created:
    the summary is printed, then the assertion on the file stops the
    program. *)
Example main_short_trace_read_only :
  ∃ st,
    main scan_llx_u
      (one_file [" L 10,1"; " M 20,1"; " L 22,1"; " S 18,1"; " L 110,1";
                 " L 210,1"; " M 12,1"]%string)
      read_only [] "csim" [Opt_s 4; Opt_E 1; Opt_b 4; Opt_t "yi.trace"]
    = Some (Aborted st [OutSummary 4 5 3; OutAssertion]).
Proof. eexists. vm_compute. reflexivity. Qed.

(** * Further properties of the code *)

(** ** The address decoder, whatever the state *)

Lemma mask_of_Some_range st mask :
  mask_of st = Some mask → 0 ≤ s st < 32 ∧ 0 ≤ b st < 32.
Proof.
  unfold mask_of, shl_int. intros H.
  destruct ((0 <=? s st) && (s st <? 32)) eqn:Hs; [|discriminate].
  cbn [mbind option_bind] in H.
  destruct ((0 <=? b st) && (b st <? 32)) eqn:Hb; [|discriminate].
  apply andb_true_iff in Hs as [?%Z.leb_le ?%Z.ltb_lt].
  apply andb_true_iff in Hb as [?%Z.leb_le ?%Z.ltb_lt]. lia.
Qed.

Lemma s_bits_of_block a a' st :
  Z.shiftr a (b st) = Z.shiftr a' (b st) → s_bits_of a st = s_bits_of a' st.
Proof.
  intros H. unfold s_bits_of. destruct (mask_of st) as [mask|]; [|done].
  cbn [mbind option_bind]. unfold shr_ull.
  destruct ((0 <=? b st) && (b st <? 64)); [|done].
  cbn [mbind option_bind]. by rewrite !Z.shiftr_land, H.
Qed.

(** X1: the block offset is ignored.  [accessData] looks at its address
    only through [addr >> b]: two addresses with the same block number
    give the same result in every state, whatever the geometry. *)
Theorem accessData_block st a a' :
  Z.shiftr a (b st) = Z.shiftr a' (b st) → accessData a st = accessData a' st.
Proof.
  intros H. rewrite !accessData_unfold, (s_bits_of_block a a' st H).
  destruct (s_bits_of a' st) as [i|] eqn:Hi; [|done].
  assert (t_bits_of a st = t_bits_of a' st) as ->; [|done].
  unfold s_bits_of in Hi. destruct (mask_of st) as [mask|] eqn:Hm; [|done].
  apply mask_of_Some_range in Hm as [Hs Hb].
  unfold t_bits_of, shr_ull. rewrite to_int_small by lia.
  destruct ((0 <=? s st + b st) && (s st + b st <? 64)); [|done].
  f_equal. rewrite (Z.add_comm (s st)), <- !Z.shiftr_shiftr by lia.
  by rewrite H.
Qed.

Lemma accessData_block_witness :
  accessData 0 (fresh_cache 1 2 1) = accessData 1 (fresh_cache 1 2 1).
Proof. apply accessData_block. vm_compute. reflexivity. Defined.

(** X2: the decoder separates blocks.  When [s + b <= 31], two addresses
    get the same set index and the same tag exactly when they lie in the
    same block, so a hit is never scored for another block. *)
Theorem decode_separates_blocks st a a' :
  0 ≤ s st ≤ 30 → 0 ≤ b st → s st + b st ≤ 31 →
  (s_bits_of a st = s_bits_of a' st ∧ t_bits_of a st = t_bits_of a' st)
  ↔ Z.shiftr a (b st) = Z.shiftr a' (b st).
Proof.
  intros Hs Hb Hsb.
  rewrite !s_bits_of_spec, !t_bits_of_spec by lia.
  rewrite (Z.add_comm (s st)), <- !Z.shiftr_shiftr by lia.
  assert (0 < 2 ^ s st) as Hp by (apply Z.pow_pos_nonneg; lia).
  split.
  - intros [[= Hi] [= Ht]]. rewrite !(Z.shiftr_div_pow2 _ (s st)) in Ht by lia.
    rewrite (Z.div_mod (Z.shiftr a (b st)) (2 ^ s st)) by lia.
    rewrite (Z.div_mod (Z.shiftr a' (b st)) (2 ^ s st)) by lia.
    by rewrite Hi, Ht.
  - by intros ->.
Qed.

Lemma decode_separates_blocks_witness :
  (s_bits_of 0 (fresh_cache 1 2 1) = s_bits_of 1 (fresh_cache 1 2 1)
   ∧ t_bits_of 0 (fresh_cache 1 2 1) = t_bits_of 1 (fresh_cache 1 2 1))
  ↔ Z.shiftr 0 (b (fresh_cache 1 2 1)) = Z.shiftr 1 (b (fresh_cache 1 2 1)).
Proof.
  apply decode_separates_blocks.
  - vm_compute. split; discriminate.
  - vm_compute. discriminate.
  - vm_compute. discriminate.
Defined.

Lemma to_int_high z : 2 ^ 31 ≤ z < 2 ^ 32 → to_int z = z - 2 ^ 32.
Proof.
  intros Hz. unfold to_int.
  replace (z + 2 ^ 31) with (z - 2 ^ 31 + 1 * 2 ^ 32) by lia.
  rewrite Z.mod_add by lia. rewrite Z.mod_small by lia. lia.
Qed.

Lemma mask_of_wide st :
  1 ≤ s st ≤ 30 → s st + b st = 32 →
  mask_of st = Some (Z.shiftl (Z.ones (64 - b st)) (b st)).
Proof.
  intros Hs Hsb. unfold mask_of, shl_int.
  assert (Hps : 2 ≤ 2 ^ s st).
  { change 2 with (2 ^ 1) at 1. apply pow2_le_mono. lia. }
  assert (Hps' : 2 ^ s st ≤ 2 ^ 30) by (apply pow2_le_mono; lia).
  assert (Hpb : 0 < 2 ^ b st) by (apply Z.pow_pos_nonneg; lia).
  assert (Hpb' : 2 ^ b st ≤ 2 ^ 31) by (apply pow2_le_mono; lia).
  assert (Hsum : 2 ^ s st * 2 ^ b st = 2 ^ 32).
  { rewrite <- Z.pow_add_r by lia. by rewrite Hsb. }
  assert (Hhi : 2 ^ (64 - b st) * 2 ^ b st = 2 ^ 64).
  { rewrite <- Z.pow_add_r by lia. f_equal. lia. }
  replace ((0 <=? s st) && (s st <? 32)) with true
    by (symmetry; apply andb_true_iff; lia).
  replace ((0 <=? b st) && (b st <? 32)) with true
    by (symmetry; apply andb_true_iff; lia).
  cbn [mbind option_bind].
  rewrite Z.shiftl_1_l.
  rewrite (to_int_small (2 ^ s st)) by lia.
  rewrite (to_int_small (2 ^ s st - 1)) by lia.
  rewrite Z.shiftl_mul_pow2 by lia.
  rewrite to_int_high by nia.
  rewrite Z.ones_equiv, Z.shiftl_mul_pow2 by lia.
  f_equal. unfold to_ull.
  replace ((2 ^ s st - 1) * 2 ^ b st - 2 ^ 32)
    with (2 ^ 64 - 2 ^ b st + (-1) * 2 ^ 64) by nia.
  rewrite Z.mod_add by lia. rewrite Z.mod_small by lia. nia.
Qed.

Lemma s_bits_of_wide addr st :
  1 ≤ s st ≤ 30 → s st + b st = 32 → is_addr addr →
  s_bits_of addr st = Some (to_int (Z.shiftr addr (b st))).
Proof.
  intros Hs Hsb Ha. unfold s_bits_of.
  rewrite mask_of_wide by lia. cbn [mbind option_bind].
  unfold shr_ull.
  replace ((0 <=? b st) && (b st <? 64)) with true
    by (symmetry; apply andb_true_iff; lia).
  cbn [mbind option_bind]. do 2 f_equal.
  rewrite Z.shiftr_land, Z.shiftr_shiftl_l, Z.sub_diag, Z.shiftl_0_r by lia.
  rewrite Z.land_comm, Z.land_ones by lia.
  apply Z.mod_small. rewrite Z.shiftr_div_pow2 by lia.
  assert (Hpb : 0 < 2 ^ b st) by (apply Z.pow_pos_nonneg; lia).
  assert (Hhi : 2 ^ b st * 2 ^ (64 - b st) = 2 ^ 64).
  { rewrite <- Z.pow_add_r by lia. f_equal. lia. }
  unfold is_addr in Ha. split.
  - apply Z.div_pos; lia.
  - apply Z.div_lt_upper_bound; lia.
Qed.

(** X3: the mask computed in [int] when [s + b = 32].  Bit 31 of
    [((1 << s) - 1) << b] is set, the conversion to [mem_addr_t] extends
    it into bits 32 to 63, and the set index becomes the whole of
    [addr >> b]: for every address from [2^32] up to [2^(31+b)] it is at
    least [S], and [cache[s_bits]] reads outside the array. *)
Theorem wide_mask_out_of_bounds st addr :
  1 ≤ s st ≤ 30 → s st + b st = 32 →
  Z.of_nat (length (cache st)) ≤ 2 ^ s st →
  2 ^ 32 ≤ addr < 2 ^ (31 + b st) →
  s_bits_of addr st = Some (Z.shiftr addr (b st))
  ∧ 2 ^ s st ≤ Z.shiftr addr (b st)
  ∧ accessData addr st = None.
Proof.
  intros Hs Hsb Hlen Ha.
  assert (Hpb : 0 < 2 ^ b st) by (apply Z.pow_pos_nonneg; lia).
  assert (H31 : 2 ^ b st * 2 ^ 31 = 2 ^ (31 + b st)).
  { rewrite <- Z.pow_add_r by lia. f_equal. lia. }
  assert (H32 : 2 ^ b st * 2 ^ s st = 2 ^ 32).
  { rewrite <- Z.pow_add_r by lia. f_equal. lia. }
  assert (2 ^ (31 + b st) ≤ 2 ^ 64) by (apply pow2_le_mono; lia).
  assert (2 ^ s st ≤ Z.shiftr addr (b st) < 2 ^ 31) as Hidx.
  { rewrite Z.shiftr_div_pow2 by lia. split.
    - apply Z.div_le_lower_bound; lia.
    - apply Z.div_lt_upper_bound; lia. }
  assert (0 < 2 ^ s st) by (apply Z.pow_pos_nonneg; lia).
  assert (s_bits_of addr st = Some (Z.shiftr addr (b st))) as Hsb'.
  { rewrite s_bits_of_wide by (unfold is_addr; lia).
    by rewrite to_int_small by lia. }
  split; [done|]. split; [lia|].
  rewrite accessData_unfold, Hsb'. bind_step.
  destruct (t_bits_of addr st); [|done]. bind_step.
  unfold cache_at. rewrite (proj2 (Z.ltb_ge _ _)) by lia.
  rewrite (proj2 (lookup_ge_None _ _)) by lia. done.
Qed.

Lemma wide_mask_out_of_bounds_witness :
  s_bits_of 0x100000000 (fresh_cache 2 1 30)
    = Some (Z.shiftr 0x100000000 (b (fresh_cache 2 1 30)))
  ∧ 2 ^ s (fresh_cache 2 1 30)
    ≤ Z.shiftr 0x100000000 (b (fresh_cache 2 1 30))
  ∧ accessData 0x100000000 (fresh_cache 2 1 30) = None.
Proof.
  apply wide_mask_out_of_bounds.
  - vm_compute. split; discriminate.
  - vm_compute. reflexivity.
  - vm_compute. discriminate.
  - vm_compute. split; [discriminate|reflexivity].
Defined.

(** ** Accesses to one address *)

Lemma accessData_head_hit addr st i t k c :
  s_bits_of addr st = Some i → t_bits_of addr st = Some t →
  cache_at i st = Some (Some k) → mem st !! k = Some c →
  tag c = t → valid c = 1 →
  accessData addr st = Some (incr_hit st).
Proof.
  intros Hs Ht Hc Hm <- Hv. rewrite accessData_unfold, Hs, Ht. bind_step.
  rewrite Hc. bind_step. rewrite (load_Some _ _ _ Hm). bind_step.
  rewrite Z.eqb_refl, Hv. reflexivity.
Qed.

Lemma head_hit_repeat addr i t k c n : ∀ st,
  s_bits_of addr st = Some i → t_bits_of addr st = Some t →
  cache_at i st = Some (Some k) → mem st !! k = Some c →
  tag c = t → valid c = 1 →
  access_all (replicate n addr) st = Some (Nat.iter n incr_hit st).
Proof.
  induction n as [|n IH]; intros st Hs Ht Hc Hm Htag Hv; [done|].
  cbn [replicate access_all].
  rewrite (accessData_head_hit _ _ _ _ _ _ Hs Ht Hc Hm Htag Hv). bind_step.
  rewrite Nat.iter_succ_r. by apply IH.
Qed.

Lemma access_list_head n t l l' o :
  l ≠ [] → access_list n t l = (l', o) →
  ∃ a r, l' = a :: r ∧ is_hit t a = true.
Proof.
  destruct l as [|hd tl]; [done|]. intros _ H. unfold access_list in H.
  destruct (is_hit t hd) eqn:Hh.
  { injection H as <- <-. eauto. }
  destruct (scan_list n t [hd] tl) as [l1|] eqn:Hsc.
  { injection H as <- <-.
    apply scan_list_Some in Hsc as (r1 & nx & r2 & _ & Hnx & _ & ->). eauto. }
  assert (∀ a, is_hit t (fill t a) = true) as Hfill.
  { intros a. unfold is_hit, fill. cbn. by rewrite Z.eqb_refl. }
  remember (hd :: tl) as l eqn:El.
  destruct (miss_list t l) as [l1 ev] eqn:Hml. injection H as <- <-.
  rewrite El in Hml. unfold miss_list in Hml. rewrite <- El in Hml.
  destruct (a_valid hd).
  2:{ injection Hml as <- <-. eauto. }
  destruct (l !! open_pos l) as [c|] eqn:Hk.
  2:{ destruct (open_pos_bound l) as [H0|H0].
      - rewrite H0, El in Hk. done.
      - apply lookup_ge_None in Hk. lia. }
  destruct (l !! S (open_pos l)) as [nx|] eqn:Hk1.
  { destruct (a_valid nx); injection Hml as <- <-; eauto. }
  injection Hml as <- <-.
  destruct (open_pos_bound l) as [H0|H0].
  - rewrite H0 in *. rewrite El. cbn. rewrite El in Hk. injection Hk as <-. eauto.
  - apply lookup_ge_None in Hk1. lia.
Qed.

(** X4: repeated access.  After one access to an address, any number of
    further accesses to it are hits on the first line of the set: they
    add one to [hit_count] each and leave the heap, the array of heads
    and the other counters as they are. *)
Theorem repeated_access_only_hits st0 st addr n :
  good_geometry st0 → reachable st0 st → is_addr addr →
  ∃ st1, accessData addr st = Some st1
         ∧ access_all (replicate n addr) st1 = Some (Nat.iter n incr_hit st1).
Proof.
  intros Hg Hr Ha. destruct (reachable_inv _ _ Hg Hr) as [sets [Hwf _]].
  destruct (wf_access _ _ addr Hwf) as (l & l' & o & m' & Hl & Hal & Hacc & Hwf' & _).
  eexists. split; [exact Hacc|].
  set (st1 := after_access o _ m' st) in *.
  pose proof (wf_geom _ _ Hwf) as (Hs & Hb & Hsb & HE).
  assert (l ≠ []) as Hne.
  { pose proof (ok_size _ _ _ (wf_sets _ _ Hwf) _ _ Hl). intros ->. simpl in *. lia. }
  destruct (access_list_head _ _ _ _ _ Hne Hal) as (a & r & -> & Hhit).
  apply is_hit_true in Hhit as [Hv Ht].
  assert (<[Z.to_nat (set_index addr st) := a :: r]> sets
            !! Z.to_nat (set_index addr st) = Some (a :: r)) as Hl'.
  { apply list_lookup_insert_eq. by apply lookup_lt_Some in Hl. }
  pose proof (ok_seg _ _ _ (wf_sets _ _ Hwf') _ _ Hl') as [Hcell _].
  destruct (wf_lookup _ _ addr Hwf') as (l2 & Hl2 & Hc2).
  assert (set_index addr st1 = set_index addr st) as Ei.
  { unfold st1, after_access. destruct (count_outcome o (counters st)) as [[? ?] ?]. reflexivity. }
  assert (tag_of addr st1 = tag_of addr st) as Et.
  { unfold st1, after_access. destruct (count_outcome o (counters st)) as [[? ?] ?]. reflexivity. }
  rewrite Ei in Hl2, Hc2. rewrite Hl' in Hl2. injection Hl2 as <-.
  eapply head_hit_repeat; [| |exact Hc2|exact Hcell|exact Ht|].
  - rewrite <- Ei. apply s_bits_of_spec; apply (wf_geom _ _ Hwf').
  - rewrite <- Et. apply t_bits_of_spec; apply (wf_geom _ _ Hwf').
  - cbn. by rewrite Hv.
Qed.

Lemma repeated_access_only_hits_witness :
  ∃ st1, accessData 16 (fresh_cache 1 2 1) = Some st1
         ∧ access_all (replicate 3 16) st1 = Some (Nat.iter 3 incr_hit st1).
Proof.
  apply (repeated_access_only_hits (config 1 2 1)).
  - vm_compute. repeat split; discriminate.
  - apply reach_init. vm_compute. reflexivity.
  - vm_compute. done.
Defined.

(** ** What initCache allocates, and the shape it fixes *)

Lemma set_mem_id st : set_mem (mem st) st = st.
Proof. by destruct st. Qed.

Lemma store_total k f st :
  (k < length (mem st))%nat →
  ∃ m', store (Some k) f st = Some (set_mem m' st)
        ∧ length m' = length (mem st).
Proof.
  intros Hk. destruct (lookup_lt_is_Some_2 _ _ Hk) as [c Hc].
  rewrite (store_Some _ _ _ _ Hc). eexists. split; [done|].
  by rewrite length_insert.
Qed.

Lemma init_lines_total n : ∀ st k,
  (k < length (mem st))%nat →
  ∃ m', init_lines n (Some k) st = Some (set_mem m' st)
        ∧ length m' = (length (mem st) + n)%nat.
Proof.
  induction n as [|n IH]; intros st k Hk.
  { exists (mem st). rewrite set_mem_id. split; [done|lia]. }
  rewrite init_lines_S. unfold malloc_line, store_next, store_valid, store_tag.
  set (st1 := set_mem (mem st ++ [Line 0 0 None]) st).
  assert (length (mem st1) = S (length (mem st))) as Hl1.
  { unfold st1. cbn. rewrite length_app. simpl. lia. }
  destruct (store_total k (λ c, Line (valid c) (tag c) (Some (length (mem st)))) st1)
    as (m2 & -> & Hl2); [lia|]. bind_step.
  destruct (store_total (length (mem st)) (λ c, Line 0 (tag c) (next c)) (set_mem m2 st1))
    as (m3 & -> & Hl3); [cbn; lia|]. bind_step.
  destruct (store_total (length (mem st)) (λ c, Line (valid c) 0 (next c))
              (set_mem m3 (set_mem m2 st1)))
    as (m4 & -> & Hl4); [cbn in *; lia|]. bind_step.
  destruct (store_total (length (mem st)) (λ c, Line (valid c) (tag c) None)
              (set_mem m4 (set_mem m3 (set_mem m2 st1))))
    as (m5 & -> & Hl5); [cbn in *; lia|]. bind_step.
  destruct (IH (set_mem m5 (set_mem m4 (set_mem m3 (set_mem m2 st1))))
              (length (mem st))) as (m' & Hrun & Hl'); [cbn in *; lia|].
  exists m'. split; [exact Hrun|]. cbn in *. lia.
Qed.

Lemma init_sets_total n : ∀ st i,
  0 ≤ i → (Z.to_nat i + n ≤ length (cache st))%nat →
  ∃ m' c', init_sets n i st = Some (set_mem m' (set_cache c' st))
        ∧ length m' = (length (mem st) + n * S (Z.to_nat (E st - 1)))%nat
        ∧ length c' = length (cache st).
Proof.
  induction n as [|n IH]; intros st i Hi Hn.
  { exists (mem st), (cache st). split; [by destruct st|]. split; [lia|done]. }
  rewrite init_sets_S. unfold malloc_line, store_next, store_valid, store_tag.
  set (st1 := set_mem (mem st ++ [Line 0 0 None]) st).
  assert (length (mem st1) = S (length (mem st))) as Hl1.
  { unfold st1. cbn. rewrite length_app. simpl. lia. }
  destruct (store_total (length (mem st)) (λ c, Line 0 (tag c) (next c)) st1)
    as (m2 & -> & Hl2); [lia|]. bind_step.
  destruct (store_total (length (mem st)) (λ c, Line (valid c) 0 (next c))
              (set_mem m2 st1))
    as (m3 & -> & Hl3); [cbn in *; lia|]. bind_step.
  destruct (store_total (length (mem st)) (λ c, Line (valid c) (tag c) None)
              (set_mem m3 (set_mem m2 st1)))
    as (m4 & -> & Hl4); [cbn in *; lia|]. bind_step.
  destruct (lookup_lt_is_Some_2 (cache st) (Z.to_nat i)) as [p Hp]; [lia|].
  erewrite cache_store_Some; cycle 1.
  { unfold cache_at. rewrite (proj2 (Z.ltb_ge i 0)) by lia. exact Hp. }
  bind_step.
  match goal with |- context [init_lines ?k (Some ?l) ?s0] =>
    destruct (init_lines_total k s0 l) as (m5 & -> & Hl5); [cbn in *; lia|] end.
  bind_step.
  match goal with |- context [init_sets n _ ?s0] =>
    destruct (IH s0 (i + 1)) as (m' & c' & Hrun & Hl' & Hc'); [lia| |] end.
  { cbn. rewrite length_insert. lia. }
  exists m', c'. split; [exact Hrun|]. cbn in *. rewrite length_insert in Hc'.
  split; [lia|done].
Qed.

Lemma initCache_sizes st :
  s st ≤ 30 →
  ∃ m' c',
    initCache st
      = Some (set_mem m' (set_cache c'
                (set_S (if s st <? 0 then 0 else 2 ^ s st) st)))
    ∧ 0 ≤ (if s st <? 0 then 0 else 2 ^ s st)
    ∧ length c' = Z.to_nat (if s st <? 0 then 0 else 2 ^ s st)
    ∧ length m'
      = (length (mem st)
         + Z.to_nat (if s st <? 0 then 0 else 2 ^ s st)%Z
           * S (Z.to_nat (E st - 1)%Z))%nat.
Proof.
  intros Hs. rewrite initCache_unfold. unfold pow2_int.
  set (n := if s st <? 0 then 0 else 2 ^ s st).
  assert ((if s st <? 0 then Some 0
           else if s st <=? 30 then Some (2 ^ s st) else None) = Some n) as ->.
  { unfold n. destruct (s st <? 0); [done|].
    by rewrite (proj2 (Z.leb_le _ _) Hs). }
  assert (0 ≤ n) as Hn.
  { unfold n. destruct (s st <? 0) eqn:E0; [lia|].
    apply Z.ltb_ge in E0. apply Z.pow_nonneg. lia. }
  bind_step. cbv zeta.
  destruct (init_sets_total (Z.to_nat n)
              (set_cache (replicate (Z.to_nat n) None) (set_S n st)) 0)
    as (m' & c' & -> & Hm & Hc); [lia| |].
  { cbn. rewrite length_replicate. lia. }
  exists m', c'. split; [reflexivity|]. cbn in *.
  rewrite length_replicate in Hc. done.
Qed.

(** X5: what [initCache] allocates.  For every [s <= 30] and every [E]
    it returns, with [S] set to [2^s] (zero for a negative [s]), [S]
    heads in [cache], and [S * max(E, 1)] new lines: the first line of a
    set is allocated before [E] is looked at, so a set has one line even
    when [E] is zero or negative.  The counters are not touched. *)
Theorem initCache_allocation st :
  s st ≤ 30 →
  ∃ st', initCache st = Some st'
    ∧ S_sets st' = (if s st <? 0 then 0 else 2 ^ s st)
    ∧ Z.of_nat (length (cache st')) = S_sets st'
    ∧ Z.of_nat (length (mem st'))
      = Z.of_nat (length (mem st)) + S_sets st' * Z.max 1 (E st)
    ∧ counters st' = counters st.
Proof.
  intros Hs. destruct (initCache_sizes st Hs) as (m' & c' & -> & Hn & Hc & Hm).
  eexists. split; [reflexivity|]. cbn.
  split; [done|]. split; [lia|]. split; [|done].
  rewrite Hm. destruct (Z.le_gt_cases 1 (E st)).
  - rewrite Z.max_r by lia. nia.
  - rewrite Z.max_l by lia. replace (Z.to_nat (E st - 1)) with 0%nat by lia. nia.
Qed.

Lemma initCache_allocation_witness :
  ∃ st', initCache (config 1 (-1) 1) = Some st'
    ∧ S_sets st' = (if s (config 1 (-1) 1) <? 0 then 0
                    else 2 ^ s (config 1 (-1) 1))
    ∧ Z.of_nat (length (cache st')) = S_sets st'
    ∧ Z.of_nat (length (mem st'))
      = Z.of_nat (length (mem (config 1 (-1) 1)))
        + S_sets st' * Z.max 1 (E (config 1 (-1) 1))
    ∧ counters st' = counters (config 1 (-1) 1).
Proof. apply initCache_allocation. vm_compute. discriminate. Defined.

Lemma cells_of_length l q : length (cells_of l q) = length l.
Proof. induction l as [|a l IH]; simpl; [done|]. by rewrite IH. Qed.

Lemma reachable_sizes st0 st :
  good_geometry st0 → reachable st0 st →
  Z.of_nat (length (mem st))
  = Z.of_nat (length (mem st0)) + 2 ^ s st0 * E st0.
Proof.
  intros Hg Hr. induction Hr as [st Hi|st addr st' Hr IH Ha Hacc].
  - pose proof Hg as (Hs & Hb & Hsb & HE).
    destruct (initCache_sizes st0) as (m' & c' & Hi1 & _ & _ & Hm); [lia|].
    rewrite Hi in Hi1. injection Hi1 as ->. cbn. rewrite Hm.
    rewrite (proj2 (Z.ltb_ge _ _)) by lia.
    assert (0 < 2 ^ s st0) by (apply Z.pow_pos_nonneg; lia). nia.
  - destruct (reachable_inv _ _ Hg Hr) as [sets [Hwf _]].
    destruct (wf_access _ _ addr Hwf) as (l & l' & o & m' & _ & _ & Hacc' & _ & Hlen).
    rewrite Hacc in Hacc'. injection Hacc' as ->.
    rewrite <- IH. unfold after_access.
    destruct (count_outcome o (counters st)) as [[? ?] ?]. cbn. by rewrite Hlen.
Qed.

(** X6: the shape of the cache never changes.  In every state reached
    by [initCache] and calls of [accessData], [cache] has [2^s] heads,
    every set is a list of exactly [E] lines, and the heap holds the
    [2^s * E] lines of [initCache] and no other: [accessData] relinks
    lines, it never allocates or drops one. *)
Theorem cache_shape_invariant st0 st :
  good_geometry st0 → reachable st0 st →
  Z.of_nat (length (cache st)) = 2 ^ s st0
  ∧ Z.of_nat (length (mem st))
    = Z.of_nat (length (mem st0)) + 2 ^ s st0 * E st0
  ∧ ∀ i : nat, Z.of_nat i < 2 ^ s st0 →
      ∃ ls, set_lines i st = Some ls ∧ Z.of_nat (length ls) = E st0.
Proof.
  intros Hg Hr. destruct (reachable_inv _ _ Hg Hr) as [sets [Hwf _]].
  destruct (reachable_geometry _ _ Hg Hr) as (Es & Eb & EE & _).
  pose proof (wf_len _ _ Hwf) as Hlen. rewrite (wf_S _ _ Hwf), Es in Hlen.
  assert (0 < 2 ^ s st0) by (apply Z.pow_pos_nonneg; [lia|apply Hg]).
  split; [|split].
  - rewrite (wf_cache _ _ Hwf), length_fmap. lia.
  - by apply reachable_sizes.
  - intros i Hi. destruct (lookup_lt_is_Some_2 sets i) as [l Hl]; [lia|].
    exists (cells_of l None). split; [by eapply wf_set_lines|].
    rewrite cells_of_length, <- EE. exact (ok_size _ _ _ (wf_sets _ _ Hwf) _ _ Hl).
Qed.

Lemma cache_shape_invariant_witness :
  Z.of_nat (length (cache (fresh_cache 1 2 1))) = 2 ^ s (config 1 2 1)
  ∧ Z.of_nat (length (mem (fresh_cache 1 2 1)))
    = Z.of_nat (length (mem (config 1 2 1)))
      + 2 ^ s (config 1 2 1) * E (config 1 2 1)
  ∧ ∀ i : nat, Z.of_nat i < 2 ^ s (config 1 2 1) →
      ∃ ls, set_lines i (fresh_cache 1 2 1) = Some ls
            ∧ Z.of_nat (length ls) = E (config 1 2 1).
Proof.
  apply cache_shape_invariant.
  - vm_compute. repeat split; discriminate.
  - apply reach_init. vm_compute. reflexivity.
Defined.

(** ** Fields that accessData does not depend on *)

Section Associativity.
Variable e : Z.

Lemma store_assoc p f st :
  store p f (set_E e st) = set_E e <$> store p f st.
Proof.
  unfold store. destruct p as [k|]; [|done]. cbn.
  by destruct (mem st !! k).
Qed.

Lemma cache_store_assoc i p st :
  cache_store i p (set_E e st) = set_E e <$> cache_store i p st.
Proof.
  unfold cache_store.
  change (cache_at i (set_E e st)) with (cache_at i st).
  by destruct (cache_at i st).
Qed.

Ltac assoc_reads :=
  repeat match goal with
  | |- context [load ?p (set_E e ?st)] =>
      change (load p (set_E e st)) with (load p st)
  | |- context [load_next ?p (set_E e ?st)] =>
      change (load_next p (set_E e st)) with (load_next p st)
  | |- context [cache_at ?i (set_E e ?st)] =>
      change (cache_at i (set_E e st)) with (cache_at i st)
  | |- context [incr_hit (set_E e ?st)] =>
      change (incr_hit (set_E e st)) with (set_E e (incr_hit st))
  | |- context [incr_miss (set_E e ?st)] =>
      change (incr_miss (set_E e st)) with (set_E e (incr_miss st))
  | |- context [incr_evict (set_E e ?st)] =>
      change (incr_evict (set_E e st)) with (set_E e (incr_evict st))
  | |- context [set_mem ?m (set_E e ?st)] =>
      change (set_mem m (set_E e st)) with (set_E e (set_mem m st))
  | |- context [mem (set_E e ?st)] => change (mem (set_E e st)) with (mem st)
  end.

Ltac assoc_step :=
  assoc_reads;
  first
    [ reflexivity
    | progress cbn [mbind option_bind fmap option_fmap option_map
                    prod_map fst snd id]
    | rewrite store_assoc
    | rewrite cache_store_assoc
    | match goal with
      | |- context [store ?p ?f ?st ≫= _] => destruct (store p f st)
      | |- context [set_E e <$> store ?p ?f ?st] => destruct (store p f st)
      | |- context [cache_store ?i ?p ?st ≫= _] => destruct (cache_store i p st)
      | |- context [set_E e <$> cache_store ?i ?p ?st] =>
          destruct (cache_store i p st)
      | |- context [load ?p ?st ≫= _] => destruct (load p st)
      | |- context [load_next ?p ?st ≫= _] =>
          destruct (load_next p st) as [[?|]|]
      | |- context [cache_at ?i ?st ≫= _] => destruct (cache_at i st)
      | |- context [if ?c then _ else _] => destruct c
      end ].

Lemma fill_line_assoc i t e0 check st :
  fill_line i t e0 check (set_E e st) = set_E e <$> fill_line i t e0 check st.
Proof.
  unfold fill_line, store_tag, store_valid, store_next.
  repeat assoc_step.
Qed.

Lemma find_open_assoc fuel : ∀ check st,
  find_open fuel check (set_E e st) = find_open fuel check st.
Proof.
  induction fuel as [|fuel IH]; intros check st; [done|].
  rewrite !find_open_S.
  change (open_cond check (set_E e st)) with (open_cond check st).
  destruct (open_cond check st) as [[|]|]; [|done..]. bind_step.
  assoc_reads. destruct (load_next check st); [|done]. bind_step. apply IH.
Qed.

Lemma miss_fill_assoc i t st :
  miss_fill i t (set_E e st) = set_E e <$> miss_fill i t st.
Proof.
  rewrite !miss_fill_unfold. assoc_reads.
  destruct (cache_at i st) as [check|]; [|done]. bind_step. cbv zeta.
  assoc_reads. destruct (load check (incr_miss st)) as [c|]; [|done].
  bind_step. destruct (valid c =? 0).
  - cbn [Z.eqb]. bind_step. apply fill_line_assoc.
  - change (1 =? 0) with false. cbv iota. rewrite find_open_assoc.
    destruct (find_open _ _ _); [|done]. bind_step. apply fill_line_assoc.
Qed.

Lemma hit_scan_assoc i t n : ∀ line st,
  hit_scan n i t line (set_E e st)
    = prod_map id (set_E e) <$> hit_scan n i t line st.
Proof.
  induction n as [|n IH]; intros line st; [reflexivity|].
  rewrite !hit_scan_S. unfold store_next. cbv zeta.
  repeat first [apply IH | assoc_step].
Qed.

Lemma accessData_assoc addr st :
  Z.to_nat (e - 1) = Z.to_nat (E st - 1) →
  accessData addr (set_E e st) = set_E e <$> accessData addr st.
Proof.
  intros He. rewrite !accessData_unfold.
  change (s_bits_of addr (set_E e st)) with (s_bits_of addr st).
  change (t_bits_of addr (set_E e st)) with (t_bits_of addr st).
  destruct (s_bits_of addr st) as [i|]; [|reflexivity]. bind_step.
  destruct (t_bits_of addr st) as [t|]; [|reflexivity]. bind_step.
  assoc_reads. destruct (cache_at i st) as [line|]; [|reflexivity]. bind_step.
  assoc_reads. destruct (load line st) as [c|]; [|reflexivity]. bind_step.
  cbv zeta. destruct ((t =? tag c) && (valid c =? 1)); [reflexivity|].
  change (E (set_E e st)) with e. rewrite He, hit_scan_assoc.
  destruct (hit_scan _ _ _ _ _) as [[[|] st1]|];
    [reflexivity| |reflexivity].
  cbn [fmap option_fmap option_map prod_map fst snd id mbind option_bind].
  apply miss_fill_assoc.
Qed.

Lemma init_lines_assoc n : ∀ prev st,
  init_lines n prev (set_E e st) = set_E e <$> init_lines n prev st.
Proof.
  induction n as [|n IH]; intros prev st; [reflexivity|].
  rewrite !init_lines_S.
  unfold malloc_line, store_next, store_valid, store_tag. cbv zeta.
  repeat first [apply IH | assoc_step].
Qed.

End Associativity.

Lemma set_E_id st : set_E (E st) st = st.
Proof. by destruct st. Qed.

Lemma store_E p f st st' : store p f st = Some st' → E st' = E st.
Proof.
  intros H. pose proof (store_assoc (E st) p f st) as He.
  rewrite set_E_id, H in He. injection He as He. by rewrite He.
Qed.

Lemma cache_store_E i p st st' : cache_store i p st = Some st' → E st' = E st.
Proof.
  intros H. pose proof (cache_store_assoc (E st) i p st) as He.
  rewrite set_E_id, H in He. injection He as He. by rewrite He.
Qed.

Lemma init_lines_E n prev st st' :
  init_lines n prev st = Some st' → E st' = E st.
Proof.
  intros H. pose proof (init_lines_assoc (E st) n prev st) as He.
  rewrite set_E_id, H in He. injection He as He. by rewrite He.
Qed.

Lemma accessData_E addr st st' : accessData addr st = Some st' → E st' = E st.
Proof.
  intros H. pose proof (accessData_assoc (E st) addr st eq_refl) as He.
  rewrite set_E_id, H in He. injection He as He. by rewrite He.
Qed.

Lemma init_sets_assoc e n : ∀ i st,
  Z.to_nat (e - 1) = Z.to_nat (E st - 1) →
  init_sets n i (set_E e st) = set_E e <$> init_sets n i st.
Proof.
  induction n as [|n IH]; intros i st He; [reflexivity|].
  rewrite !init_sets_S.
  unfold malloc_line, store_next, store_valid, store_tag. cbv zeta.
  change (set_mem (mem (set_E e st) ++ [Line 0 0 None]) (set_E e st))
    with (set_E e (set_mem (mem st ++ [Line 0 0 None]) st)).
  change (length (mem (set_E e st))) with (length (mem st)).
  set (st1 := set_mem (mem st ++ [Line 0 0 None]) st).
  assert (E st1 = E st) as E1 by done.
  rewrite store_assoc.
  destruct (store _ _ st1) as [st2|] eqn:H2; [|reflexivity].
  cbn [mbind option_bind fmap option_fmap option_map].
  rewrite store_assoc.
  destruct (store _ _ st2) as [st3|] eqn:H3; [|reflexivity].
  cbn [mbind option_bind fmap option_fmap option_map].
  rewrite store_assoc.
  destruct (store _ _ st3) as [st4|] eqn:H4; [|reflexivity].
  cbn [mbind option_bind fmap option_fmap option_map].
  rewrite cache_store_assoc.
  destruct (cache_store _ _ st4) as [st5|] eqn:H5; [|reflexivity].
  cbn [mbind option_bind fmap option_fmap option_map].
  apply store_E in H2, H3, H4. apply cache_store_E in H5.
  assert (E st5 = E st) as E5 by congruence.
  change (E (set_E e st5)) with e. rewrite He, <- E5.
  rewrite init_lines_assoc.
  destruct (init_lines _ _ st5) as [st6|] eqn:H6; [|reflexivity].
  cbn [mbind option_bind fmap option_fmap option_map].
  apply init_lines_E in H6. apply IH. congruence.
Qed.

Lemma initCache_assoc e st :
  Z.to_nat (e - 1) = Z.to_nat (E st - 1) →
  initCache (set_E e st) = set_E e <$> initCache st.
Proof.
  intros He. rewrite !initCache_unfold.
  change (s (set_E e st)) with (s st).
  destruct (pow2_int (s st)) as [n|]; [|reflexivity]. bind_step. cbv zeta.
  exact (init_sets_assoc e (Z.to_nat n) 0
           (set_cache (replicate (Z.to_nat n) None) (set_S n st)) He).
Qed.

Lemma access_all_assoc e addrs : ∀ st,
  Z.to_nat (e - 1) = Z.to_nat (E st - 1) →
  access_all addrs (set_E e st) = set_E e <$> access_all addrs st.
Proof.
  induction addrs as [|a addrs IH]; intros st He; [reflexivity|].
  cbn [access_all]. rewrite accessData_assoc by done.
  destruct (accessData a st) as [st1|] eqn:H1; [|reflexivity].
  cbn [mbind option_bind fmap option_fmap option_map].
  apply IH. by rewrite (accessData_E _ _ _ H1).
Qed.

Lemma initCache_E st st' : initCache st = Some st' → E st' = E st.
Proof.
  intros H. pose proof (initCache_assoc (E st) st eq_refl) as He.
  rewrite set_E_id, H in He. injection He as He. by rewrite He.
Qed.

(** X7: [E] below one.  [E] is only read as the bound of loops that
    start at 1, so with [E <= 1] (zero and negative values included)
    [initCache] followed by any accesses does exactly what it does with
    [E = 1]; the two final states differ in the field [E] alone. *)
Theorem E_below_one_is_direct_mapped st addrs :
  E st ≤ 1 →
  initCache st ≫= access_all addrs
  = set_E (E st) <$> (initCache (set_E 1 st) ≫= access_all addrs).
Proof.
  intros HE.
  assert (st = set_E (E st) (set_E 1 st)) as Est by (by destruct st).
  rewrite Est at 1.
  rewrite initCache_assoc by (cbn; lia).
  destruct (initCache (set_E 1 st)) as [st1|] eqn:Hi; [|reflexivity].
  cbn [mbind option_bind fmap option_fmap option_map].
  apply access_all_assoc. rewrite (initCache_E _ _ Hi). cbn. lia.
Qed.

Lemma E_below_one_is_direct_mapped_witness :
  initCache (config 1 (-3) 1) ≫= access_all [0; 8; 0]
  = set_E (E (config 1 (-3) 1))
      <$> (initCache (set_E 1 (config 1 (-3) 1)) ≫= access_all [0; 8; 0]).
Proof. apply E_below_one_is_direct_mapped. vm_compute. discriminate. Defined.

Section Verbosity.
Variable v : Z.

Lemma store_verb p f st :
  store p f (set_verbosity v st) = set_verbosity v <$> store p f st.
Proof.
  unfold store. destruct p as [k|]; [|done]. cbn.
  by destruct (mem st !! k).
Qed.

Lemma cache_store_verb i p st :
  cache_store i p (set_verbosity v st) = set_verbosity v <$> cache_store i p st.
Proof.
  unfold cache_store.
  change (cache_at i (set_verbosity v st)) with (cache_at i st).
  by destruct (cache_at i st).
Qed.

Ltac verb_reads :=
  repeat match goal with
  | |- context [load ?p (set_verbosity v ?st)] =>
      change (load p (set_verbosity v st)) with (load p st)
  | |- context [load_next ?p (set_verbosity v ?st)] =>
      change (load_next p (set_verbosity v st)) with (load_next p st)
  | |- context [cache_at ?i (set_verbosity v ?st)] =>
      change (cache_at i (set_verbosity v st)) with (cache_at i st)
  | |- context [incr_hit (set_verbosity v ?st)] =>
      change (incr_hit (set_verbosity v st)) with (set_verbosity v (incr_hit st))
  | |- context [incr_miss (set_verbosity v ?st)] =>
      change (incr_miss (set_verbosity v st)) with (set_verbosity v (incr_miss st))
  | |- context [incr_evict (set_verbosity v ?st)] =>
      change (incr_evict (set_verbosity v st)) with (set_verbosity v (incr_evict st))
  | |- context [E (set_verbosity v ?st)] =>
      change (E (set_verbosity v st)) with (E st)
  | |- context [mem (set_verbosity v ?st)] =>
      change (mem (set_verbosity v st)) with (mem st)
  end.

Ltac verb_step :=
  verb_reads;
  first
    [ reflexivity
    | progress cbn [mbind option_bind fmap option_fmap option_map]
    | rewrite store_verb
    | rewrite cache_store_verb
    | match goal with
      | |- context [store ?p ?f ?st ≫= _] => destruct (store p f st)
      | |- context [set_verbosity v <$> store ?p ?f ?st] =>
          destruct (store p f st)
      | |- context [cache_store ?i ?p ?st ≫= _] => destruct (cache_store i p st)
      | |- context [set_verbosity v <$> cache_store ?i ?p ?st] =>
          destruct (cache_store i p st)
      | |- context [load ?p ?st ≫= _] => destruct (load p st)
      | |- context [load_next ?p ?st ≫= _] =>
          destruct (load_next p st) as [[?|]|]
      | |- context [cache_at ?i ?st ≫= _] => destruct (cache_at i st)
      | |- context [if ?c then _ else _] => destruct c
      end ].

Lemma fill_line_verb i t e check st :
  fill_line i t e check (set_verbosity v st)
    = set_verbosity v <$> fill_line i t e check st.
Proof.
  unfold fill_line, store_tag, store_valid, store_next.
  repeat verb_step.
Qed.

Lemma open_cond_verb check st : open_cond check (set_verbosity v st) = open_cond check st.
Proof. reflexivity. Qed.

Lemma find_open_verb fuel : ∀ check st,
  find_open fuel check (set_verbosity v st) = find_open fuel check st.
Proof.
  induction fuel as [|fuel IH]; intros check st; [done|].
  rewrite !find_open_S, open_cond_verb.
  destruct (open_cond check st) as [[|]|]; [|done..]. bind_step.
  verb_reads. destruct (load_next check st); [|done]. bind_step. apply IH.
Qed.

Lemma miss_fill_verb i t st :
  miss_fill i t (set_verbosity v st) = set_verbosity v <$> miss_fill i t st.
Proof.
  rewrite !miss_fill_unfold. verb_reads.
  destruct (cache_at i st) as [check|]; [|done]. bind_step. cbv zeta.
  verb_reads. destruct (load check (incr_miss st)) as [c|]; [|done].
  bind_step. destruct (valid c =? 0).
  - cbn [Z.eqb]. bind_step. apply fill_line_verb.
  - change (1 =? 0) with false. cbv iota. rewrite find_open_verb.
    destruct (find_open _ _ _); [|done]. bind_step. apply fill_line_verb.
Qed.

Lemma hit_scan_verb i t n : ∀ line st,
  hit_scan n i t line (set_verbosity v st)
    = prod_map id (set_verbosity v) <$> hit_scan n i t line st.
Proof.
  induction n as [|n IH]; intros line st; [reflexivity|].
  rewrite !hit_scan_S. unfold store_next. cbv zeta.
  repeat first [apply IH | verb_step].
Qed.

Lemma accessData_verb addr st :
  accessData addr (set_verbosity v st) = set_verbosity v <$> accessData addr st.
Proof.
  rewrite !accessData_unfold.
  change (s_bits_of addr (set_verbosity v st)) with (s_bits_of addr st).
  change (t_bits_of addr (set_verbosity v st)) with (t_bits_of addr st).
  destruct (s_bits_of addr st) as [i|]; [|reflexivity]. bind_step.
  destruct (t_bits_of addr st) as [t|]; [|reflexivity]. bind_step.
  verb_reads. destruct (cache_at i st) as [line|]; [|reflexivity]. bind_step.
  verb_reads. destruct (load line st) as [c|]; [|reflexivity]. bind_step.
  cbv zeta. destruct ((t =? tag c) && (valid c =? 1)); [reflexivity|].
  verb_reads. rewrite hit_scan_verb.
  destruct (hit_scan _ _ _ _ _) as [[[|] st1]|];
    [reflexivity| |reflexivity].
  cbn [fmap option_fmap option_map prod_map fst snd id mbind option_bind].
  apply miss_fill_verb.
Qed.

End Verbosity.

(** ** Counting valid lines *)

Lemma fmap_seq_lookup {A B} (l : list A) (f : nat → B) (g : A → B) :
  (∀ i x, l !! i = Some x → f i = g x) →
  f <$> seq 0 (length l) = g <$> l.
Proof.
  intros H. apply list_eq. intros i. rewrite !list_lookup_fmap.
  destruct (l !! i) as [x|] eqn:Hi.
  - rewrite lookup_seq_lt by (by eapply lookup_lt_Some). simpl. f_equal.
    by apply H.
  - rewrite lookup_seq_ge by (by apply lookup_ge_None). done.
Qed.

Lemma valid_lines_sets st sets :
  wf st sets → valid_lines st = sum_list ((λ l, length (atags l)) <$> sets).
Proof.
  intros Hwf. unfold valid_lines. rewrite (wf_cache _ _ Hwf), length_fmap.
  f_equal. apply fmap_seq_lookup. intros i l Hl.
  by rewrite (wf_set_tags _ _ _ _ Hwf Hl).
Qed.

Lemma sum_list_insert {A} (g : A → nat) (l : list A) : ∀ i x y,
  l !! i = Some x →
  (sum_list (g <$> <[i := y]> l) + g x = sum_list (g <$> l) + g y)%nat.
Proof.
  induction l as [|z l IH]; intros [|i] x y H; try done.
  - simpl in H. simplify_eq. cbn [insert list_insert]. rewrite !fmap_cons.
    cbn [sum_list]. unfold id. lia.
  - specialize (IH _ _ y H). change (<[S i:=y]> (z :: l)) with (z :: <[i:=y]> l).
    rewrite !fmap_cons. cbn [sum_list]. unfold id in *. lia.
Qed.

Lemma sum_list_bound (l : list nat) c :
  Forall (λ x, (x ≤ c)%nat) l → (sum_list l ≤ length l * c)%nat.
Proof. induction 1; simpl; lia. Qed.

Lemma remove_tag_length t ts :
  t ∈ ts → S (length (remove_tag t ts)) = length ts.
Proof.
  induction ts as [|x ts IH]; [by intros ?%elem_of_nil|].
  intros H. simpl. destruct (x =? t) eqn:E; [done|].
  apply Z.eqb_neq in E. simpl. f_equal. apply IH.
  apply elem_of_cons in H as [->|H]; done.
Qed.

Lemma removelast_length_S {A} (l : list A) :
  l ≠ [] → S (length (removelast l)) = length l.
Proof.
  induction l as [|x [|y l] IH]; [done|done|].
  intros _. cbn [removelast length] in *. f_equal. by apply IH.
Qed.

Lemma lru_access_length n t ts ts' o :
  (1 ≤ n)%nat → lru_access n t ts = (ts', o) →
  length ts' = (if o is MissClean then S (length ts) else length ts).
Proof.
  intros Hn. unfold lru_access. repeat case_bool_decide; intros [= <- <-].
  - simpl. by apply remove_tag_length.
  - done.
  - simpl. apply removelast_length_S. intros ->. simpl in *. lia.
Qed.

Lemma access_accounting addrs : ∀ st sets,
  inv st sets → Forall is_addr addrs →
  0 ≤ hit_count st → 0 ≤ eviction_count st ≤ miss_count st →
  hit_count st + miss_count st + Z.of_nat (length addrs) ≤ INT_MAX →
  miss_count st - eviction_count st = Z.of_nat (valid_lines st) →
  ∃ st' sets', access_all addrs st = Some st' ∧ inv st' sets'
    ∧ 0 ≤ hit_count st' ∧ 0 ≤ eviction_count st' ≤ miss_count st'
    ∧ hit_count st' + miss_count st'
      = hit_count st + miss_count st + Z.of_nat (length addrs)
    ∧ miss_count st' - eviction_count st' = Z.of_nat (valid_lines st').
Proof.
  induction addrs as [|a addrs IH]; intros st sets Hinv Hall Hh He Hmax Hv.
  { exists st, sets. cbn [access_all length Z.of_nat].
    split; [done|]. split; [done|]. split; [done|]. split; [done|].
    split; [lia|done]. }
  apply Forall_cons in Hall as [Ha Hall]. cbn [length] in Hmax.
  destruct (access_step _ _ a Hinv)
    as (l & l' & o & st' & Hl & HlE & Hacc & Hinv' & Hlru & Hc & _ & _ & HE & _).
  pose proof (wf_geom _ _ (proj1 Hinv)) as (_ & _ & _ & HE1).
  apply lru_access_length in Hlru as Hlen; [|lia].
  pose proof (valid_lines_sets _ _ (proj1 Hinv')) as Hv'.
  pose proof (sum_list_insert (λ l, length (atags l)) sets _ _ l' Hl) as Hsum.
  cbv beta in Hsum. rewrite <- Hv' in Hsum.
  rewrite <- (valid_lines_sets _ _ (proj1 Hinv)) in Hsum.
  unfold counters, count_outcome in Hc. unfold INT_MAX in Hmax.
  assert (∃ h m e, hit_count st' = h ∧ miss_count st' = m
                   ∧ eviction_count st' = e
                   ∧ 0 ≤ h ∧ 0 ≤ e ≤ m
                   ∧ h + m = hit_count st + miss_count st + 1
                   ∧ m - e = Z.of_nat (valid_lines st')) as
    (h & m & e & Eh & Em & Ee & ? & ? & ? & ?).
  { destruct o; cbv iota in Hlen; injection Hc as -> -> ->;
      rewrite ?to_int_small by lia; do 3 eexists;
      (split; [reflexivity|]); (split; [reflexivity|]);
      (split; [reflexivity|]); lia. }
  cbn [access_all]. rewrite Hacc. bind_step.
  destruct (IH st' _ Hinv' Hall) as (st2 & sets2 & Hrun & Hinv2 & ? & ? & ? & ?);
    try lia.
  { unfold INT_MAX. lia. }
  exists st2, sets2. cbn [length].
  split; [done|]. split; [done|]. split; [lia|]. split; [lia|].
  split; lia.
Qed.

Lemma valid_lines_bound st sets :
  wf st sets → Z.of_nat (valid_lines st) ≤ 2 ^ s st * E st.
Proof.
  intros Hwf. rewrite (valid_lines_sets _ _ Hwf).
  pose proof (sum_list_bound ((λ l, length (atags l)) <$> sets)
                (Z.to_nat (E st))) as Hb.
  pose proof (wf_len _ _ Hwf) as Hlen. rewrite (wf_S _ _ Hwf) in Hlen.
  pose proof (wf_geom _ _ Hwf) as (Hs & _ & _ & HE).
  assert (0 < 2 ^ s st) by (apply Z.pow_pos_nonneg; lia).
  rewrite length_fmap in Hb.
  assert (Forall (λ x : nat, (x ≤ Z.to_nat (E st))%nat)
            ((λ l, length (atags l)) <$> sets)) as HF.
  { apply Forall_fmap, Forall_lookup. intros i l Hl. cbv beta. simpl.
    pose proof (ok_size _ _ _ (wf_sets _ _ Hwf) _ _ Hl).
    pose proof (atags_length l). lia. }
  specialize (Hb HF). nia.
Qed.

Lemma valid_lines_fresh st sets :
  wf st sets → Forall (Forall unused) sets → valid_lines st = 0%nat.
Proof.
  intros Hwf Hun. rewrite (valid_lines_sets _ _ Hwf).
  clear -Hun. induction Hun as [|l sets Hl _ IH]; [done|].
  rewrite fmap_cons. cbn [sum_list_with].
  by rewrite (atags_unused _ Hl), IH.
Qed.

(** X8: misses, evictions and valid lines, for [0 ≤ s ≤ 30], [0 ≤ b],
    [s + b ≤ 31] and [1 ≤ E].  On such a geometry, from a new cache
    with the counters at zero, after any accesses to 64-bit addresses
    (no more than [INT_MAX] of them) [miss_count - eviction_count] is
    the number of valid lines in the cache; so evictions never exceed
    misses, and misses exceed evictions by at most [S * E]. *)
Theorem misses_minus_evictions st0 addrs :
  good_geometry st0 → counters st0 = (0, 0, 0) →
  Forall is_addr addrs → Z.of_nat (length addrs) ≤ INT_MAX →
  ∃ st1 st, initCache st0 = Some st1
    ∧ access_all addrs st1 = Some st
    ∧ miss_count st - eviction_count st = Z.of_nat (valid_lines st)
    ∧ 0 ≤ eviction_count st ≤ miss_count st
    ∧ Z.of_nat (valid_lines st) ≤ 2 ^ s st0 * E st0.
Proof.
  intros Hg Hc0 Hall Hmax.
  destruct (initCache_inv _ Hg)
    as (st1 & sets & Hi & Hinv & Hun & Hc & Es & _ & EE & _).
  rewrite Hc0 in Hc. unfold counters in Hc. injection Hc as Hh Hm He.
  pose proof (valid_lines_fresh _ _ (proj1 Hinv) Hun) as Hv0.
  destruct (access_accounting addrs st1 sets Hinv Hall)
    as (st & sets' & Hrun & Hinv' & ? & ? & ? & Hv); try lia.
  exists st1, st. split; [done|]. split; [done|]. split; [done|].
  split; [lia|].
  assert (reachable st0 st) as Hr.
  { destruct (reachable_access_all st0 st1 addrs Hg (reach_init _ _ Hi) Hall)
      as (st'' & Hrun' & Hr). rewrite Hrun in Hrun'. by injection Hrun' as <-. }
  destruct (reachable_geometry _ _ Hg Hr) as (Es' & _ & EE' & _).
  rewrite <- Es', <- EE'. exact (valid_lines_bound _ _ (proj1 Hinv')).
Qed.

Lemma misses_minus_evictions_witness :
  ∃ st1 st, initCache (config 1 2 1) = Some st1
    ∧ access_all [0; 8; 16] st1 = Some st
    ∧ miss_count st - eviction_count st = Z.of_nat (valid_lines st)
    ∧ 0 ≤ eviction_count st ≤ miss_count st
    ∧ Z.of_nat (valid_lines st) ≤ 2 ^ s (config 1 2 1) * E (config 1 2 1).
Proof.
  apply misses_minus_evictions.
  - vm_compute. repeat split; discriminate.
  - reflexivity.
  - repeat constructor; vm_compute; done.
  - vm_compute. discriminate.
Defined.

(** ** Working sets *)

Lemma lru_access_fits n t ts ts' o (D : list Z) :
  NoDup ts → (∀ x, x ∈ ts → x ∈ D) → t ∈ D → (length D ≤ n)%nat →
  lru_access n t ts = (ts', o) →
  o ≠ MissEvict ∧ ∀ x, x ∈ ts' → x ∈ D.
Proof.
  intros Hnd Hsub Ht Hlen. unfold lru_access.
  repeat case_bool_decide; intros [= <- <-].
  - split; [done|]. intros x [->|Hx]%elem_of_cons; [done|].
    by apply Hsub, (remove_tag_subseteq t).
  - split; [done|]. intros x [->|Hx]%elem_of_cons; [done|]. by apply Hsub.
  - exfalso. assert (NoDup (t :: ts)) as Hnd' by (by constructor).
    assert (t :: ts ⊆+ D) as Hsm.
    { apply NoDup_submseteq; [done|].
      intros x [->|Hx]%elem_of_cons; [done|]. by apply Hsub. }
    apply submseteq_length in Hsm. simpl in Hsm. lia.
Qed.

Lemma no_eviction_run (D : nat → list Z) addrs : ∀ st sets,
  inv st sets → Forall is_addr addrs →
  (∀ i l, sets !! i = Some l → ∀ x, x ∈ atags l → x ∈ D i) →
  (∀ a, a ∈ addrs → tag_of a st ∈ D (Z.to_nat (set_index a st))) →
  (∀ i, Z.of_nat (length (D i)) ≤ E st) →
  ∃ st', access_all addrs st = Some st'
         ∧ eviction_count st' = eviction_count st.
Proof.
  induction addrs as [|a addrs IH]; intros st sets Hinv Hall Hsub HD Hlen.
  { by exists st. }
  apply Forall_cons in Hall as [Ha Hall].
  destruct (access_step _ _ a Hinv)
    as (l & l' & o & st' & Hl & HlE & Hacc & Hinv' & Hlru & Hc & Es & Eb & EE & _).
  assert (NoDup (atags l)) as Hnd.
  { exact (Forall_lookup_1 _ _ _ _ (proj2 Hinv) Hl). }
  assert (length (D (Z.to_nat (set_index a st))) ≤ Z.to_nat (E st))%nat as HlD.
  { specialize (Hlen (Z.to_nat (set_index a st))). lia. }
  assert (tag_of a st ∈ D (Z.to_nat (set_index a st))) as HtD.
  { apply HD. by left. }
  destruct (lru_access_fits _ _ _ _ _ _ Hnd (Hsub _ _ Hl) HtD HlD Hlru)
    as [Ho Hsub'].
  cbn [access_all]. rewrite Hacc. bind_step.
  destruct (IH st' _ Hinv' Hall) as (st2 & Hrun & He).
  - intros i l0 Hl0 x Hx.
    destruct (decide (i = Z.to_nat (set_index a st))) as [->|Hne].
    + rewrite list_lookup_insert_eq in Hl0 by (by eapply lookup_lt_Some).
      injection Hl0 as <-. by apply Hsub'.
    + rewrite list_lookup_insert_ne in Hl0 by done. by eapply Hsub.
  - intros a' Ha'. unfold tag_of, set_index. rewrite Es, Eb.
    apply HD. by right.
  - by rewrite EE.
  - exists st2. split; [done|]. rewrite He.
    unfold counters, count_outcome in Hc.
    destruct o; [| |done]; by injection Hc.
Qed.

(** X9: a working set that fits, for [0 ≤ s ≤ 30], [0 ≤ b],
    [s + b ≤ 31] and [1 ≤ E].  On such a geometry, when the tags a
    trace of 64-bit addresses touches in each set all come from a list
    [D i] of at most [E] tags, the replay on a new cache returns and no
    access of the trace evicts a line. *)
Theorem working_set_fits_no_eviction st0 addrs (D : nat → list Z) :
  good_geometry st0 → Forall is_addr addrs →
  (∀ a, a ∈ addrs → tag_of a st0 ∈ D (Z.to_nat (set_index a st0))) →
  (∀ i, Z.of_nat (length (D i)) ≤ E st0) →
  ∃ st1 st, initCache st0 = Some st1
    ∧ access_all addrs st1 = Some st
    ∧ eviction_count st = eviction_count st0.
Proof.
  intros Hg Hall HD Hlen.
  destruct (initCache_inv _ Hg)
    as (st1 & sets & Hi & Hinv & Hun & Hc & Es & Eb & EE & _).
  destruct (no_eviction_run D addrs st1 sets Hinv Hall) as (st & Hrun & He).
  - intros i l Hl x Hx.
    rewrite (atags_unused l) in Hx by exact (Forall_lookup_1 _ _ _ _ Hun Hl).
    by apply elem_of_nil in Hx.
  - intros a Ha. unfold tag_of, set_index. rewrite Es, Eb. by apply HD.
  - by rewrite EE.
  - exists st1, st. split; [done|]. split; [done|]. rewrite He.
    unfold counters in Hc. by injection Hc.
Qed.

Lemma working_set_fits_no_eviction_witness :
  ∃ st1 st, initCache (config 1 2 1) = Some st1
    ∧ access_all [0; 8; 0; 2; 8; 10; 2] st1 = Some st
    ∧ eviction_count st = eviction_count (config 1 2 1).
Proof.
  apply (working_set_fits_no_eviction (config 1 2 1) [0; 8; 0; 2; 8; 10; 2]
           (λ _, [0; 2])).
  - vm_compute. repeat split; discriminate.
  - repeat constructor; vm_compute; done.
  - intros a Ha. vm_compute in Ha. 
    repeat (apply elem_of_cons in Ha as [->|Ha]); [..|by apply elem_of_nil in Ha];
      vm_compute; set_solver.
  - intros _. vm_compute. discriminate.
Defined.

Lemma access_all_app l1 : ∀ l2 st,
  access_all (l1 ++ l2) st = access_all l1 st ≫= access_all l2.
Proof.
  induction l1 as [|a l1 IH]; intros l2 st; [done|].
  cbn [app access_all]. destruct (accessData a st); [|done].
  bind_step. apply IH.
Qed.

Lemma round_robin_app l1 : ∀ l2 m,
  round_robin (length l1 + m) (l1 ++ l2) = l1 ++ round_robin m (l2 ++ l1).
Proof.
  induction l1 as [|a l1 IH]; intros l2 m.
  { by rewrite app_nil_r. }
  cbn [length Nat.add app round_robin]. f_equal.
  rewrite <- app_assoc, IH, <- app_assoc. done.
Qed.

Lemma thrash_steady st0 i n : ∀ st x xs,
  good_geometry st0 → reachable st0 st →
  Forall is_addr (x :: xs) →
  (∀ a, a ∈ x :: xs → set_index a st0 = i) →
  NoDup ((λ a, tag_of a st0) <$> x :: xs) →
  Z.of_nat (length xs) = E st0 →
  set_tags (Z.to_nat i) st = Some (reverse ((λ a, tag_of a st0) <$> xs)) →
  0 ≤ miss_count st → 0 ≤ eviction_count st →
  miss_count st + Z.of_nat n ≤ INT_MAX →
  eviction_count st + Z.of_nat n ≤ INT_MAX →
  ∃ st', access_all (round_robin n (x :: xs)) st = Some st'
         ∧ hit_count st' = hit_count st
         ∧ miss_count st' = miss_count st + Z.of_nat n
         ∧ eviction_count st' = eviction_count st + Z.of_nat n.
Proof.
  induction n as [|n IH];
    intros st x xs Hg Hr Ha Hidx Hnd Hlen Hts Hm He Hmmax Hemax.
  { exists st. cbn [round_robin access_all]. split; [done|]. split; [done|].
    split; lia. }
  pose proof Hg as (_ & _ & _ & HE1).
  destruct xs as [|y ys]; [simpl in Hlen; lia|].
  pose proof Ha as Ha0. apply Forall_cons in Ha as [Hax Ha].
  unfold INT_MAX in Hmmax, Hemax.
  destruct (set_index_reachable st0 st x Hg Hr) as [Hsi Hta].
  destruct (reachable_geometry st0 st Hg Hr) as (_ & _ & HE & _).
  destruct (access_lru st0 st x Hg Hr Hax)
    as (st1 & ts0 & ts1 & o & _ & _ & Hacc & Hts0 & Hts1 & Hlru & Hcnt).
  rewrite Hsi, (Hidx x) in Hts0, Hts1 by left.
  rewrite Hts in Hts0. injection Hts0 as <-.
  rewrite Hta, HE in Hlru. unfold lru_access in Hlru.
  pose proof Hnd as Hnd0.
  rewrite fmap_cons in Hnd. apply NoDup_cons in Hnd as [Hnew Hnd].
  rewrite bool_decide_false in Hlru by (by rewrite elem_of_reverse).
  assert (¬ (length (reverse ((λ a, tag_of a st0) <$> y :: ys))
              < Z.to_nat (E st0))%nat) as Hfull.
  { rewrite length_reverse, length_fmap. lia. }
  rewrite bool_decide_false in Hlru by exact Hfull.
  injection Hlru as <- <-.
  unfold counters in Hcnt. simpl in Hcnt. injection Hcnt as Hh1 Hm1 He1.
  rewrite to_int_small in Hm1 by lia. rewrite to_int_small in He1 by lia.
  assert (y :: ys ++ [x] ≡ₚ x :: y :: ys) as Hperm.
  { symmetry. apply (Permutation_cons_append (y :: ys) x). }
  destruct (IH st1 y (ys ++ [x])) as (st' & Hall & Hh' & Hm' & He').
  { done. }
  { by eapply reach_access. }
  { by rewrite Hperm. }
  { intros a Hin. apply Hidx. by rewrite <- Hperm. }
  { by rewrite Hperm. }
  { rewrite length_app. cbn [length] in *. lia. }
  { rewrite Hts1, removelast_reverse, fmap_app, reverse_app. reflexivity. }
  { lia. }
  { lia. }
  { unfold INT_MAX. lia. }
  { unfold INT_MAX. lia. }
  exists st'. cbn [round_robin access_all]. rewrite Hacc. bind_step.
  split; [done|]. split; [congruence|]. split; lia.
Qed.

(** X10: a round of [E + 1] blocks, for [0 ≤ s ≤ 30], [0 ≤ b],
    [s + b ≤ 31] and [1 ≤ E].  On such a geometry, going round [E + 1]
    64-bit addresses of one set with different tags, on a new cache
    with the counters at zero, never hits: the first [E] accesses are
    misses without eviction, and every access after them misses and
    evicts the line that is needed next ([E + n] accesses, no more than
    [INT_MAX]). *)
Theorem round_robin_thrashes st0 addrs n :
  good_geometry st0 → counters st0 = (0, 0, 0) →
  Z.of_nat (length addrs) = E st0 + 1 →
  Forall is_addr addrs →
  (∀ a a', a ∈ addrs → a' ∈ addrs → set_index a st0 = set_index a' st0) →
  NoDup ((λ a, tag_of a st0) <$> addrs) →
  E st0 + Z.of_nat n ≤ INT_MAX →
  ∃ st1 st, initCache st0 = Some st1
    ∧ access_all (round_robin (Z.to_nat (E st0) + n) addrs) st1 = Some st
    ∧ counters st = (0, E st0 + Z.of_nat n, Z.of_nat n).
Proof.
  intros Hg Hcnt0 Hlen Ha Hidx Hnd Hmax. unfold INT_MAX in Hmax.
  pose proof Hg as (Hs & Hb & Hsb & HE).
  destruct (initCache_inv st0 Hg)
    as (st1 & sets & Hi & Hinv & Hun & Hcnt1 & Hs1 & Hb1 & HE1 & HS1 & _).
  rewrite Hcnt0 in Hcnt1. unfold counters in Hcnt1.
  injection Hcnt1 as Hh1 Hm1 He1.
  pose proof (reach_init _ _ Hi) as Hr1.
  (* the last address of the round and the ones before it *)
  rewrite <- (take_drop (Z.to_nat (E st0)) addrs) in Ha, Hidx, Hnd |- *.
  set (l1 := take (Z.to_nat (E st0)) addrs) in *.
  assert (length l1 = Z.to_nat (E st0)) as Hl1.
  { unfold l1. rewrite length_take. lia. }
  destruct (drop (Z.to_nat (E st0)) addrs) as [|x [|? ?]] eqn:Hd;
    [apply (f_equal length) in Hd; rewrite length_drop in Hd; simpl in Hd; lia
    | |apply (f_equal length) in Hd; rewrite length_drop in Hd;
       simpl in Hd; lia].
  assert (x :: l1 ≡ₚ l1 ++ [x]) as Hperm by apply Permutation_cons_append.
  rewrite <- Hperm in Ha, Hnd.
  assert (∀ a, a ∈ x :: l1 → set_index a st0 = set_index x st0) as Hidx'.
  { intros a Hin. apply Hidx; rewrite <- Hperm; [done|by left]. }
  clear Hidx. apply Forall_cons in Ha as [Hax Ha1].
  pose proof Hnd as Hnd0. rewrite fmap_cons in Hnd.
  apply NoDup_cons in Hnd as [Hnew Hnd].
  assert (Hix : 0 ≤ set_index x st0 < 2 ^ s st0)
    by (apply set_index_bound; lia).
  destruct (lookup_lt_is_Some_2 sets (Z.to_nat (set_index x st0)))
    as [l Hl].
  { rewrite (wf_len _ _ (proj1 Hinv)), HS1. lia. }
  assert (Hempty : set_tags (Z.to_nat (set_index x st0)) st1 = Some []).
  { rewrite (inv_set_tags _ _ _ _ Hinv Hl). f_equal.
    apply atags_unused. exact (Forall_lookup_1 _ _ _ _ Hun Hl). }
  destruct (fill_set st0 (set_index x st0) l1 st1 [])
    as (st2 & Hall & Hr2 & Hts2 & Hh2 & Hm2 & He2);
    [done|done|done|by intros a Hin; apply Hidx'; right|done
    |by rewrite app_nil_r|simpl; lia|lia|unfold INT_MAX; lia|].
  rewrite app_nil_r in Hts2.
  destruct (thrash_steady st0 (set_index x st0) n st2 x l1)
    as (st & Hrun & Hh & Hm & He);
    [done|done|by constructor|done|done|lia|done|lia|lia
    |unfold INT_MAX; lia|unfold INT_MAX; lia|].
  exists st1, st. split; [done|].
  rewrite <- Hl1, round_robin_app, access_all_app, Hall. bind_step.
  split; [exact Hrun|]. unfold counters. f_equal; [f_equal|]; lia.
Qed.

Lemma round_robin_thrashes_witness :
  ∃ st1 st, initCache (config 1 2 1) = Some st1
    ∧ access_all (round_robin (Z.to_nat (E (config 1 2 1)) + 4) [0; 8; 16])
        st1 = Some st
    ∧ counters st
      = (0, E (config 1 2 1) + Z.of_nat 4, Z.of_nat 4).
Proof.
  apply (round_robin_thrashes (config 1 2 1) [0; 8; 16] 4).
  - vm_compute. repeat split; discriminate.
  - reflexivity.
  - reflexivity.
  - repeat constructor; vm_compute; done.
  - intros a a' Ha Ha'.
    repeat (apply elem_of_cons in Ha as [->|Ha]);
      try (by apply elem_of_nil in Ha);
      repeat (apply elem_of_cons in Ha' as [->|Ha']);
      try (by apply elem_of_nil in Ha'); reflexivity.
  - vm_compute. repeat constructor; set_solver.
  - vm_compute. discriminate.
Defined.

(** ** LRU in closed form *)

Lemma remove_tag_notin t l : t ∉ l → remove_tag t l = l.
Proof.
  induction l as [|x l IH]; [done|]. intros Hn.
  apply not_elem_of_cons in Hn as [Hne Hn]. simpl.
  rewrite (proj2 (Z.eqb_neq x t)) by done. by rewrite IH.
Qed.

Lemma remove_tag_take_in t : ∀ l n,
  t ∈ take n l → remove_tag t (take n l) = take (n - 1) (remove_tag t l).
Proof.
  induction l as [|x l IH]; intros [|n] Hin;
    try (by apply elem_of_nil in Hin).
  replace (S n - 1)%nat with n by lia. cbn [take remove_tag] in *.
  destruct (x =? t) eqn:Ext; [done|]. apply Z.eqb_neq in Ext.
  apply elem_of_cons in Hin as [->|Hin]; [done|].
  rewrite (IH n Hin). destruct n as [|n]; [by apply elem_of_nil in Hin|].
  replace (S n - 1)%nat with n by lia. done.
Qed.

Lemma remove_tag_take_notin t : ∀ l n,
  t ∉ take n l → take (n - 1) (remove_tag t l) = take (n - 1) l.
Proof.
  induction l as [|x l IH]; intros [|n] Hn; try done.
  replace (S n - 1)%nat with n by lia. cbn [take remove_tag] in *.
  apply not_elem_of_cons in Hn as [Hne Hn].
  rewrite (proj2 (Z.eqb_neq x t)) by done.
  destruct n as [|n]; [done|]. cbn [take]. f_equal.
  specialize (IH (S n) Hn). by replace (S n - 1)%nat with n in IH by lia.
Qed.

Lemma lru_access_take n t l ts' o :
  (1 ≤ n)%nat → lru_access n t (take n l) = (ts', o) →
  ts' = take n (t :: remove_tag t l) ∧ (o = Hit ↔ t ∈ take n l).
Proof.
  intros Hn. destruct n as [|n]; [lia|]. unfold lru_access.
  repeat case_bool_decide; intros [= <- <-]; cbn [take].
  - split; [|done]. f_equal. rewrite remove_tag_take_in by done.
    by replace (S n - 1)%nat with n by lia.
  - split; [|split; [discriminate|done]]. f_equal.
    rewrite length_take in *.
    assert (length l ≤ n)%nat by lia.
    rewrite (take_ge l (S n)) in * by lia.
    rewrite remove_tag_notin by done. by rewrite take_ge.
  - split; [|split; [discriminate|done]]. f_equal.
    rewrite length_take in *.
    rewrite removelast_firstn by lia.
    pose proof (remove_tag_take_notin t l (S n)) as Hr.
    replace (S n - 1)%nat with n in Hr by lia. by rewrite Hr.
Qed.

Lemma set_history_cons i st a addrs :
  set_history i st (a :: addrs)
  = if decide (Z.to_nat (set_index a st) = i)
    then tag_of a st :: set_history i st addrs
    else set_history i st addrs.
Proof.
  unfold set_history. rewrite filter_cons.
  by destruct (decide (Z.to_nat (set_index a st) = i)).
Qed.

Lemma set_history_geometry i st st' addrs :
  s st' = s st → b st' = b st →
  set_history i st' addrs = set_history i st addrs.
Proof.
  intros Es Eb. unfold set_history, tag_of, set_index. by rewrite Es, Eb.
Qed.

Lemma mru_step (M : nat → list Z) st sets a :
  inv st sets →
  (∀ i l, sets !! i = Some l → atags l = take (Z.to_nat (E st)) (M i)) →
  ∃ st' sets' o,
    accessData a st = Some st' ∧ inv st' sets'
    ∧ length sets' = length sets
    ∧ s st' = s st ∧ b st' = b st ∧ E st' = E st
    ∧ counters st' = count_outcome o (counters st)
    ∧ (o = Hit ↔ tag_of a st
                  ∈ take (Z.to_nat (E st)) (M (Z.to_nat (set_index a st))))
    ∧ ∀ i l, sets' !! i = Some l →
        atags l = take (Z.to_nat (E st))
                    (if decide (Z.to_nat (set_index a st) = i)
                     then mtf (M i) (tag_of a st) else M i).
Proof.
  intros Hinv HM.
  destruct (access_step _ _ a Hinv)
    as (l & l' & o & st' & Hl & HlE & Hacc & Hinv' & Hlru & Hc
        & Es & Eb & EE & _).
  pose proof (wf_geom _ _ (proj1 Hinv)) as (_ & _ & _ & HE1).
  rewrite (HM _ _ Hl) in Hlru.
  apply lru_access_take in Hlru as [Hl' Ho]; [|lia].
  exists st', (<[Z.to_nat (set_index a st) := l']> sets), o.
  split; [done|]. split; [done|]. split; [by rewrite length_insert|].
  split; [done|]. split; [done|]. split; [done|]. split; [done|].
  split; [done|]. intros i l0 Hl0.
  destruct (decide (Z.to_nat (set_index a st) = i)) as [<-|Hne].
  - rewrite list_lookup_insert_eq in Hl0 by (by eapply lookup_lt_Some).
    injection Hl0 as <-. exact Hl'.
  - rewrite list_lookup_insert_ne in Hl0 by done. by apply HM.
Qed.

Lemma mru_run addrs : ∀ (M : nat → list Z) st sets,
  inv st sets → Forall is_addr addrs →
  (∀ i l, sets !! i = Some l → atags l = take (Z.to_nat (E st)) (M i)) →
  ∃ st' sets',
    access_all addrs st = Some st' ∧ inv st' sets'
    ∧ length sets' = length sets
    ∧ ∀ i l, sets' !! i = Some l →
        atags l = take (Z.to_nat (E st))
                    (foldl mtf (M i) (set_history i st addrs)).
Proof.
  induction addrs as [|a addrs IH]; intros M st sets Hinv Hall HM.
  { exists st, sets. split; [done|]. split; [done|]. split; [done|].
    intros i l Hl. by apply HM. }
  apply Forall_cons in Hall as [_ Hall].
  destruct (mru_step M st sets a Hinv HM)
    as (st1 & sets1 & o & Hacc & Hinv1 & Hlen1 & Es & Eb & EE & _ & _ & HM1).
  rewrite <- EE in HM1.
  destruct (IH _ st1 sets1 Hinv1 Hall HM1)
    as (st' & sets' & Hrun & Hinv' & Hlen' & HM').
  exists st', sets'. cbn [access_all]. rewrite Hacc. bind_step.
  split; [done|]. split; [done|]. split; [congruence|].
  intros i l Hl. rewrite (HM' i l Hl), EE.
  rewrite (set_history_geometry i st st1) by done.
  rewrite set_history_cons.
  by destruct (decide (Z.to_nat (set_index a st) = i)).
Qed.

(** X11: LRU in closed form, for [0 ≤ s ≤ 30], [0 ≤ b], [s + b ≤ 31]
    and [1 ≤ E].  On such a geometry, after any accesses to 64-bit
    addresses on a new cache, the valid tags of a set are the [E] most
    recently used of the different tags that the accesses falling in
    that set carried, the most recent first; and the next access to any
    address is a hit exactly when its tag is among those. *)
Theorem lru_keeps_most_recent st0 addrs :
  good_geometry st0 → Forall is_addr addrs →
  ∃ st1 st,
    initCache st0 = Some st1
    ∧ access_all addrs st1 = Some st
    ∧ (∀ i : nat, Z.of_nat i < 2 ^ s st0 →
         set_tags i st
         = Some (take (Z.to_nat (E st0)) (mru (set_history i st0 addrs))))
    ∧ ∀ a, is_addr a →
        ∃ st2 o,
          accessData a st = Some st2
          ∧ counters st2 = count_outcome o (counters st)
          ∧ (o = Hit ↔
             tag_of a st0
             ∈ take (Z.to_nat (E st0))
                 (mru (set_history (Z.to_nat (set_index a st0)) st0 addrs))).
Proof.
  intros Hg Hall.
  destruct (initCache_inv _ Hg)
    as (st1 & sets & Hi & Hinv & Hun & _ & Es & Eb & EE & HS & _).
  destruct (mru_run addrs (λ _, []) st1 sets Hinv Hall)
    as (st & sets' & Hrun & Hinv' & Hlen & HM).
  { intros i l Hl. rewrite take_nil. apply atags_unused.
    exact (Forall_lookup_1 _ _ _ _ Hun Hl). }
  assert (reachable st0 st) as Hr.
  { destruct (reachable_access_all st0 st1 addrs Hg (reach_init _ _ Hi) Hall)
      as (st'' & Hrun' & Hr). rewrite Hrun in Hrun'. by injection Hrun' as <-. }
  destruct (reachable_geometry _ _ Hg Hr) as (Es' & Eb' & EE' & _).
  assert (∀ i, set_history i st1 addrs = set_history i st0 addrs) as Hh.
  { intros i. by apply set_history_geometry. }
  exists st1, st. split; [done|]. split; [done|]. split.
  - intros i Hi'.
    destruct (lookup_lt_is_Some_2 sets' i) as [l Hl].
    { rewrite Hlen, (wf_len _ _ (proj1 Hinv)), HS. lia. }
    by rewrite (inv_set_tags _ _ _ _ Hinv' Hl), (HM i l Hl), EE, Hh.
  - intros a _.
    destruct (mru_step (λ i, mru (set_history i st0 addrs)) st sets' a Hinv')
      as (st2 & _ & o & Hacc & _ & _ & _ & _ & _ & Hc & Ho & _).
    { intros i l Hl. by rewrite (HM i l Hl), EE, EE', Hh. }
    exists st2, o. split; [done|]. split; [done|].
    rewrite Ho, EE'. unfold tag_of, set_index. by rewrite Es', Eb'.
Qed.

Lemma lru_keeps_most_recent_witness :
  ∃ st1 st,
    initCache (config 1 2 1) = Some st1
    ∧ access_all [0; 8; 2; 16; 8] st1 = Some st
    ∧ (∀ i : nat, Z.of_nat i < 2 ^ s (config 1 2 1) →
         set_tags i st
         = Some (take (Z.to_nat (E (config 1 2 1)))
                   (mru (set_history i (config 1 2 1) [0; 8; 2; 16; 8]))))
    ∧ ∀ a, is_addr a →
        ∃ st2 o,
          accessData a st = Some st2
          ∧ counters st2 = count_outcome o (counters st)
          ∧ (o = Hit ↔
             tag_of a (config 1 2 1)
             ∈ take (Z.to_nat (E (config 1 2 1)))
                 (mru (set_history (Z.to_nat (set_index a (config 1 2 1)))
                         (config 1 2 1) [0; 8; 2; 16; 8]))).
Proof.
  apply lru_keeps_most_recent.
  - vm_compute. repeat split; discriminate.
  - repeat constructor; vm_compute; done.
Defined.

Lemma take_le_subseteq {A} (l : list A) n m x :
  (n ≤ m)%nat → x ∈ take n l → x ∈ take m l.
Proof.
  intros Hnm. rewrite !elem_of_take. intros (i & Hi & Hlt).
  exists i. split; [done|lia].
Qed.

Lemma inclusion_run addrs : ∀ (M : nat → list Z) st1 sets1 st2 sets2,
  inv st1 sets1 → inv st2 sets2 → Forall is_addr addrs →
  s st2 = s st1 → b st2 = b st1 → E st1 ≤ E st2 →
  (∀ i l, sets1 !! i = Some l → atags l = take (Z.to_nat (E st1)) (M i)) →
  (∀ i l, sets2 !! i = Some l → atags l = take (Z.to_nat (E st2)) (M i)) →
  0 ≤ hit_count st1 ≤ hit_count st2 →
  0 ≤ miss_count st2 ≤ miss_count st1 →
  hit_count st1 + miss_count st1 = hit_count st2 + miss_count st2 →
  hit_count st1 + miss_count st1 + Z.of_nat (length addrs) ≤ INT_MAX →
  ∃ st1' st2',
    access_all addrs st1 = Some st1' ∧ access_all addrs st2 = Some st2'
    ∧ hit_count st1' ≤ hit_count st2' ∧ miss_count st2' ≤ miss_count st1'.
Proof.
  induction addrs as [|a addrs IH];
    intros M st1 sets1 st2 sets2 Hinv1 Hinv2 Hall Es Eb HE HM1 HM2
           Hh Hm Hsum Hmax.
  { exists st1, st2. cbn [access_all]. repeat split; lia. }
  apply Forall_cons in Hall as [_ Hall].
  cbn [length] in Hmax. unfold INT_MAX in Hmax.
  destruct (mru_step M st1 sets1 a Hinv1 HM1)
    as (st1' & sets1' & o1 & Hacc1 & Hinv1' & _ & Es1 & Eb1 & EE1 & Hc1
        & Ho1 & HM1').
  destruct (mru_step M st2 sets2 a Hinv2 HM2)
    as (st2' & sets2' & o2 & Hacc2 & Hinv2' & _ & Es2 & Eb2 & EE2 & Hc2
        & Ho2 & HM2').
  assert (set_index a st2 = set_index a st1) as Ei
    by (unfold set_index; by rewrite Es, Eb).
  assert (tag_of a st2 = tag_of a st1) as Et
    by (unfold tag_of; by rewrite Es, Eb).
  rewrite Ei, Et in *.
  assert (o1 = Hit → o2 = Hit) as Himp.
  { intros H1. apply Ho2. apply Ho1 in H1.
    eapply take_le_subseteq; [|exact H1]. lia. }
  unfold counters in Hc1, Hc2.
  assert (0 ≤ hit_count st1' ≤ hit_count st2'
          ∧ 0 ≤ miss_count st2' ≤ miss_count st1'
          ∧ hit_count st1' + miss_count st1'
            = hit_count st2' + miss_count st2'
          ∧ hit_count st1' + miss_count st1'
            = hit_count st1 + miss_count st1 + 1) as (Hh' & Hm' & Hsum' & Hn').
  { destruct o1, o2; try (by specialize (Himp eq_refl));
      cbn in Hc1, Hc2; injection Hc1 as -> -> _; injection Hc2 as -> -> _;
      rewrite ?to_int_small by lia; lia. }
  rewrite <- EE1 in HM1'. rewrite <- EE2 in HM2'.
  destruct (IH (λ i, if decide (Z.to_nat (set_index a st1) = i)
                     then mtf (M i) (tag_of a st1) else M i)
              st1' sets1' st2' sets2' Hinv1' Hinv2' Hall)
    as (st1f & st2f & Hrun1 & Hrun2 & Hhf & Hmf); try done; try lia;
    try congruence.
  { unfold INT_MAX. lia. }
  exists st1f, st2f. cbn [access_all]. rewrite Hacc1, Hacc2. bind_step.
  done.
Qed.

(** X12: more lines per set never cost a miss.  Two caches with the same
    [s] and [b], where [0 ≤ s ≤ 30], [0 ≤ b] and [s + b ≤ 31], and with
    [1 ≤ E ≤ E'] lines per set, replay the same accesses to 64-bit
    addresses (no more than [INT_MAX]) from new, with the counters at
    zero: the second has no more misses and no fewer hits, and the valid
    tags of every set of the first are a prefix of those of the same set
    of the second. *)
Theorem more_lines_never_more_misses st0 st0' addrs :
  good_geometry st0 → good_geometry st0' →
  s st0' = s st0 → b st0' = b st0 → E st0 ≤ E st0' →
  counters st0 = (0, 0, 0) → counters st0' = (0, 0, 0) →
  Forall is_addr addrs → Z.of_nat (length addrs) ≤ INT_MAX →
  ∃ st1 st st1' st',
    initCache st0 = Some st1 ∧ access_all addrs st1 = Some st
    ∧ initCache st0' = Some st1' ∧ access_all addrs st1' = Some st'
    ∧ miss_count st' ≤ miss_count st
    ∧ hit_count st ≤ hit_count st'
    ∧ ∀ i ts, set_tags i st = Some ts →
        ∃ ts', set_tags i st' = Some ts' ∧ ts `prefix_of` ts'.
Proof.
  intros Hg Hg' Es Eb HE Hc Hc' Hall Hmax.
  destruct (initCache_inv _ Hg)
    as (st1 & sets & Hi & Hinv & Hun & Hc1 & Es1 & Eb1 & EE1 & HS1 & _).
  destruct (initCache_inv _ Hg')
    as (st1' & sets' & Hi' & Hinv' & Hun' & Hc1' & Es1' & Eb1' & EE1' & HS1' & _).
  rewrite Hc in Hc1. rewrite Hc' in Hc1'. unfold counters in Hc1, Hc1'.
  injection Hc1 as Hh1 Hm1 _. injection Hc1' as Hh1' Hm1' _.
  assert (∀ (sets : list (list aline)) n, Forall (Forall unused) sets →
            ∀ i l, sets !! i = Some l → atags l = take n ((λ _ : nat, []) i))
    as Hfresh.
  { intros ss n Hu i l Hl. rewrite take_nil. apply atags_unused.
    exact (Forall_lookup_1 _ _ _ _ Hu Hl). }
  destruct (inclusion_run addrs (λ _, []) st1 sets st1' sets' Hinv Hinv' Hall)
    as (st & st' & Hrun & Hrun' & Hhit & Hmiss);
    try (by apply Hfresh); try lia; try congruence.
  destruct (mru_run addrs (λ _, []) st1 sets Hinv Hall (Hfresh _ _ Hun))
    as (st_ & setsf & Hrun_ & Hinvf & Hlenf & HMf).
  destruct (mru_run addrs (λ _, []) st1' sets' Hinv' Hall (Hfresh _ _ Hun'))
    as (st_' & setsf' & Hrun_' & Hinvf' & Hlenf' & HMf').
  rewrite Hrun in Hrun_. injection Hrun_ as <-.
  rewrite Hrun' in Hrun_'. injection Hrun_' as <-.
  exists st1, st, st1', st'. repeat (split; [done|]).
  intros i ts Hts.
  assert (length setsf' = length setsf) as Hlen.
  { rewrite Hlenf, Hlenf', (wf_len _ _ (proj1 Hinv)),
      (wf_len _ _ (proj1 Hinv')), HS1, HS1'. by rewrite Es. }
  destruct (setsf !! i) as [l|] eqn:Hl.
  2:{ unfold set_tags in Hts.
      by rewrite (wf_set_lines_None _ _ _ (proj1 Hinvf) Hl) in Hts. }
  destruct (lookup_lt_is_Some_2 setsf' i) as [l' Hl'].
  { rewrite Hlen. by eapply lookup_lt_Some. }
  rewrite (inv_set_tags _ _ _ _ Hinvf Hl) in Hts. injection Hts as <-.
  exists (atags l'). split; [exact (inv_set_tags _ _ _ _ Hinvf' Hl')|].
  rewrite (HMf _ _ Hl), (HMf' _ _ Hl').
  rewrite (set_history_geometry i st1 st1') by congruence.
  set (h := foldl mtf [] (set_history i st1 addrs)).
  replace (take (Z.to_nat (E st1)) h)
    with (take (Z.to_nat (E st1)) (take (Z.to_nat (E st1')) h)).
  - apply prefix_take.
  - rewrite take_take. f_equal. lia.
Qed.

Lemma more_lines_never_more_misses_witness :
  ∃ st1 st st1' st',
    initCache (config 1 1 1) = Some st1
    ∧ access_all [0; 8; 0; 8] st1 = Some st
    ∧ initCache (config 1 2 1) = Some st1'
    ∧ access_all [0; 8; 0; 8] st1' = Some st'
    ∧ miss_count st' ≤ miss_count st
    ∧ hit_count st ≤ hit_count st'
    ∧ ∀ i ts, set_tags i st = Some ts →
        ∃ ts', set_tags i st' = Some ts' ∧ ts `prefix_of` ts'.
Proof.
  apply more_lines_never_more_misses.
  - vm_compute. repeat split; discriminate.
  - vm_compute. repeat split; discriminate.
  - reflexivity.
  - reflexivity.
  - vm_compute. discriminate.
  - reflexivity.
  - reflexivity.
  - repeat constructor; vm_compute; done.
  - vm_compute. discriminate.
Defined.

(** ** Independence of the sets *)

Lemma count_outcome_comm o1 o2 c :
  count_outcome o1 (count_outcome o2 c) = count_outcome o2 (count_outcome o1 c).
Proof. destruct c as [[h m] e]. by destruct o1, o2. Qed.

Lemma wf_set_lines_all st sets i :
  wf st sets → set_lines i st = (λ l, cells_of l None) <$> sets !! i.
Proof.
  intros Hwf. destruct (sets !! i) as [l|] eqn:Hl.
  - by apply (wf_set_lines _ _ _ _ Hwf).
  - by apply (wf_set_lines_None _ _ _ Hwf).
Qed.

Lemma after_access_fields o c m st :
  s (after_access o c m st) = s st ∧ b (after_access o c m st) = b st
  ∧ E (after_access o c m st) = E st.
Proof.
  unfold after_access. by destruct (count_outcome o (counters st)) as [[? ?] ?].
Qed.

Lemma access_pair st sets a c :
  wf st sets → set_index a st ≠ set_index c st →
  ∃ la la' oa lc lc' oc st2,
    sets !! Z.to_nat (set_index a st) = Some la
    ∧ sets !! Z.to_nat (set_index c st) = Some lc
    ∧ access_list (Z.to_nat (E st - 1)) (tag_of a st) la = (la', oa)
    ∧ access_list (Z.to_nat (E st - 1)) (tag_of c st) lc = (lc', oc)
    ∧ access_all [a; c] st = Some st2
    ∧ wf st2 (<[Z.to_nat (set_index c st) := lc']>
                (<[Z.to_nat (set_index a st) := la']> sets))
    ∧ counters st2 = count_outcome oc (count_outcome oa (counters st)).
Proof.
  intros Hwf Hne.
  pose proof (wf_geom _ _ Hwf) as (Hs & _).
  pose proof (set_index_bound a st ltac:(lia)) as Hba.
  pose proof (set_index_bound c st ltac:(lia)) as Hbc.
  destruct (wf_access _ _ a Hwf) as (la & la' & oa & m1 & Hla & Hala & Hacc1 & Hwf1 & _).
  set (st1 := after_access oa _ m1 st) in *.
  destruct (after_access_fields oa
              (<[Z.to_nat (set_index a st):=ptr_to la' None]> (cache st)) m1 st)
    as (Es & Eb & EE). fold st1 in Es, Eb, EE.
  destruct (wf_access _ _ c Hwf1) as (lc & lc' & oc & m2 & Hlc & Halc & Hacc2 & Hwf2 & _).
  assert (set_index c st1 = set_index c st) as Ei by (unfold set_index; by rewrite Es, Eb).
  assert (tag_of c st1 = tag_of c st) as Et by (unfold tag_of; by rewrite Es, Eb).
  rewrite Ei, Et, EE in *.
  rewrite list_lookup_insert_ne in Hlc by lia.
  exists la, la', oa, lc, lc', oc. eexists.
  split; [done|]. split; [done|]. split; [done|]. split; [done|].
  split; [|split; [exact Hwf2|]].
  - cbn [access_all]. rewrite Hacc1. bind_step. rewrite Hacc2. done.
  - rewrite counters_after_access. unfold st1. by rewrite counters_after_access.
Qed.

(** X13: sets do not interact, for [0 ≤ s ≤ 30], [0 ≤ b], [s + b ≤ 31]
    and [1 ≤ E].  In a state the program can reach on such a geometry,
    two accesses to 64-bit addresses that fall in different sets can be
    made in either order: both orders return, and the counters and the
    lines of every set, in list order, come out the same. *)
Theorem different_sets_commute st0 st a c :
  good_geometry st0 → reachable st0 st → is_addr a → is_addr c →
  set_index a st ≠ set_index c st →
  ∃ st_ac st_ca,
    access_all [a; c] st = Some st_ac
    ∧ access_all [c; a] st = Some st_ca
    ∧ counters st_ac = counters st_ca
    ∧ ∀ i, set_lines i st_ac = set_lines i st_ca.
Proof.
  intros Hg Hr _ _ Hne. destruct (reachable_inv _ _ Hg Hr) as [sets [Hwf _]].
  destruct (access_pair _ _ a c Hwf Hne)
    as (la & la' & oa & lc & lc' & oc & st_ac & Hla & Hlc & Hala & Halc
        & Hrun1 & Hwf1 & Hc1).
  destruct (access_pair _ _ c a Hwf (not_eq_sym Hne))
    as (lc2 & lc2' & oc2 & la2 & la2' & oa2 & st_ca & Hlc2 & Hla2 & Halc2 & Hala2
        & Hrun2 & Hwf2 & Hc2).
  rewrite Hla in Hla2. injection Hla2 as <-.
  rewrite Hlc in Hlc2. injection Hlc2 as <-.
  rewrite Hala in Hala2. injection Hala2 as <- <-.
  rewrite Halc in Halc2. injection Halc2 as <- <-.
  exists st_ac, st_ca. split; [done|]. split; [done|]. split.
  - rewrite Hc1, Hc2. apply count_outcome_comm.
  - intros i. rewrite (wf_set_lines_all _ _ i Hwf1), (wf_set_lines_all _ _ i Hwf2).
    f_equal. f_equal. apply list_insert_insert_ne.
    pose proof (wf_geom _ _ Hwf) as (Hs & _).
    pose proof (set_index_bound a st ltac:(lia)).
    pose proof (set_index_bound c st ltac:(lia)). lia.
Qed.

Lemma different_sets_commute_witness :
  ∃ st_ac st_ca,
    access_all [0; 2] (fresh_cache 1 2 1) = Some st_ac
    ∧ access_all [2; 0] (fresh_cache 1 2 1) = Some st_ca
    ∧ counters st_ac = counters st_ca
    ∧ ∀ i, set_lines i st_ac = set_lines i st_ca.
Proof.
  apply (different_sets_commute (config 1 2 1)).
  - vm_compute. repeat split; discriminate.
  - apply reach_init. vm_compute. reflexivity.
  - vm_compute. done.
  - vm_compute. done.
  - vm_compute. discriminate.
Defined.

(** ** freeCache *)

Lemma free_lines_S fuel start st :
  free_lines (S fuel) start st =
    (sn ← load_next start st;
     if sn is Some _ then
       temp ← load_next start st;
       snn ← load_next temp st;
       st ← store_next start snn st;
       free_lines fuel start st
     else Some st).
Proof. reflexivity. Qed.

Lemma free_lines_sim tl : ∀ st hd fuel,
  seg (mem st) (hd :: tl) None → NoDup (locs (hd :: tl)) →
  (length tl < fuel)%nat →
  ∃ m', free_lines fuel (Some (a_loc hd)) st = Some (set_mem m' st)
        ∧ m' !! a_loc hd = Some (cell_of hd None)
        ∧ length m' = length (mem st)
        ∧ (∀ k, k ≠ a_loc hd → m' !! k = mem st !! k).
Proof.
  induction tl as [|x tl IH]; intros st hd fuel [Hhd Htl] Hnd Hf;
    (destruct fuel as [|fuel]; [simpl in Hf; lia|]); rewrite free_lines_S.
  { rewrite (load_next_Some _ _ _ Hhd). bind_step. cbn [next cell_of ptr_to].
    exists (mem st). by rewrite set_mem_id. }
  pose proof Htl as [Hx Htl'].
  apply NoDup_cons in Hnd as [Hhd_notin Hnd'].
  assert (a_loc hd ≠ a_loc x) as Hne.
  { intros Heq. apply Hhd_notin. rewrite Heq. unfold locs. set_solver. }
  rewrite (load_next_Some _ _ _ Hhd). bind_step. cbn [next cell_of ptr_to].
  rewrite (load_next_Some _ _ _ Hx). bind_step. cbn [next cell_of].
  unfold store_next. rewrite (store_Some _ _ _ _ Hhd). bind_step.
  cbn [valid tag cell_of].
  set (m1 := <[a_loc hd := Line (if a_valid hd then 1 else 0) (a_tag hd)
                              (ptr_to tl None)]> (mem st)).
  assert (a_loc hd < length (mem st))%nat as Hlt by (by eapply lookup_lt_Some).
  destruct (IH (set_mem m1 st) hd fuel) as (m' & Hrun & Hhd' & Hlen & Hfr).
  - split.
    + cbn. unfold m1. by rewrite list_lookup_insert_eq.
    + cbn. unfold m1. apply seg_insert; [|done].
      intros Hin. apply Hhd_notin. unfold locs in *. set_solver.
  - apply NoDup_cons. apply NoDup_cons in Hnd' as [_ Hnd'].
    split; [|done]. intros Hin. apply Hhd_notin. unfold locs in *. set_solver.
  - simpl in Hf. lia.
  - exists m'. split; [exact Hrun|]. split; [done|]. cbn in Hlen, Hfr.
    unfold m1 in Hlen, Hfr. rewrite length_insert in Hlen. split; [done|].
    intros k Hk. rewrite Hfr by done. by rewrite list_lookup_insert_ne.
Qed.

Lemma free_sets_S n i st :
  free_sets (S n) i st =
    (start ← cache_at i st;
     st ← free_lines (S (length (mem st))) start st;
     free_sets n (i + 1) st).
Proof. reflexivity. Qed.

Lemma free_sets_sim (sets : list (list aline)) assoc n : ∀ st i,
  1 ≤ assoc →
  cache st = (λ l, ptr_to l None) <$> sets →
  (i + n ≤ length sets)%nat →
  (∀ j l, sets !! j = Some l → Z.of_nat (length l) = assoc) →
  (∀ j l, sets !! j = Some l → NoDup (locs l)) →
  (∀ j k lj lk x, j ≠ k → sets !! j = Some lj → sets !! k = Some lk →
                  x ∈ locs lj → x ∉ locs lk) →
  (∀ j l, sets !! j = Some l → (i ≤ j)%nat → seg (mem st) l None) →
  (∀ j hd tl, sets !! j = Some (hd :: tl) → (j < i)%nat →
              mem st !! a_loc hd = Some (cell_of hd None)) →
  ∃ m', free_sets n (Z.of_nat i) st = Some (set_mem m' st)
        ∧ length m' = length (mem st)
        ∧ ∀ j hd tl, sets !! j = Some (hd :: tl) → (j < i + n)%nat →
            m' !! a_loc hd = Some (cell_of hd None).
Proof.
  induction n as [|n IH]; intros st i Ha Hc Hn Hsz Hnd Hdj Hseg Hdone.
  { exists (mem st). rewrite set_mem_id. split; [done|]. split; [done|].
    intros j hd tl Hj Hlt. eapply Hdone; [done|lia]. }
  rewrite free_sets_S.
  destruct (lookup_lt_is_Some_2 sets i) as [l Hl]; [lia|].
  destruct l as [|hd tl]; [specialize (Hsz _ _ Hl); simpl in Hsz; lia|].
  assert (cache_at (Z.of_nat i) st = Some (Some (a_loc hd))) as ->.
  { unfold cache_at. rewrite (proj2 (Z.ltb_ge _ _)) by lia.
    rewrite Nat2Z.id, Hc, list_lookup_fmap, Hl. done. }
  bind_step.
  pose proof (Hseg _ _ Hl ltac:(lia)) as Hs.
  destruct (free_lines_sim tl st hd (S (length (mem st))) Hs (Hnd _ _ Hl))
    as (m1 & -> & Hhd1 & Hlen1 & Hfr1).
  { pose proof (seg_length _ _ _ Hs (Hnd _ _ Hl)) as Hle. simpl in Hle. lia. }
  bind_step.
  assert (∀ j l x, sets !! j = Some l → j ≠ i → x ∈ locs l → x ≠ a_loc hd)
    as Hother.
  { intros j l x Hj Hji Hx ->.
    eapply (Hdj j i l (hd :: tl)); [done..|]. unfold locs. set_solver. }
  replace (Z.of_nat i + 1) with (Z.of_nat (S i)) by lia.
  destruct (IH (set_mem m1 st) (S i)) as (m' & Hrun & Hlen & Hall);
    try done.
  - lia.
  - intros j l Hj Hij. cbn. eapply seg_frame; [|eapply Hseg; [done|lia]].
    intros k Hk. apply Hfr1. eapply Hother; [done|lia|done].
  - intros j hd' tl' Hj Hlt. cbn.
    destruct (decide (j = i)) as [->|Hji].
    + rewrite Hl in Hj. injection Hj as <- <-. done.
    + rewrite Hfr1; [eapply Hdone; [done|lia]|].
      eapply Hother; [done..|]. unfold locs. set_solver.
  - exists m'. split; [exact Hrun|]. cbn in Hlen. split; [lia|].
    intros j hd' tl' Hj Hlt. eapply Hall; [done|lia].
Qed.

Lemma freeCache_sim st sets :
  wf st sets →
  ∃ m', freeCache st = Some (set_mem m' (set_S (2 ^ s st) st))
        ∧ length m' = length (mem st)
        ∧ ∀ j hd tl, sets !! j = Some (hd :: tl) →
            m' !! a_loc hd = Some (cell_of hd None).
Proof.
  intros Hwf.
  pose proof (wf_geom _ _ Hwf) as (Hs & _ & _ & HE).
  pose proof (wf_sets _ _ Hwf) as [Hseg Hsz Hnd Hdj].
  pose proof (wf_len _ _ Hwf) as Hlen. rewrite (wf_S _ _ Hwf) in Hlen.
  unfold freeCache. rewrite pow2_int_good by done. bind_step. cbv zeta.
  destruct (free_sets_sim sets (E st) (Z.to_nat (2 ^ s st))
              (set_S (2 ^ s st) st) 0 HE (wf_cache _ _ Hwf))
    as (m' & Hrun & Hlen' & Hall); try done.
  { lia. }
  { intros j l Hj _. by eapply Hseg. }
  { intros j hd tl _ Hlt. lia. }
  change (Z.of_nat 0) with 0 in Hrun. rewrite Hrun.
  exists m'. split; [reflexivity|]. split; [done|].
  intros j hd tl Hj. eapply Hall; [done|].
  apply lookup_lt_Some in Hj. lia.
Qed.

(** X14: [freeCache] on any cache [initCache] built and [accessData]
    used.  It returns: every [start->next] it follows is a line of the
    set, and the loop ends because the list does.  The counters, the
    array of heads and the globals are as before. *)
Theorem freeCache_returns st0 st :
  good_geometry st0 → reachable st0 st →
  ∃ st', freeCache st = Some st'
    ∧ counters st' = counters st
    ∧ cache st' = cache st
    ∧ length (mem st') = length (mem st)
    ∧ s st' = s st ∧ b st' = b st ∧ E st' = E st ∧ S_sets st' = S_sets st.
Proof.
  intros Hg Hr. destruct (reachable_inv _ _ Hg Hr) as [sets [Hwf _]].
  destruct (freeCache_sim _ _ Hwf) as (m' & -> & Hlen' & _).
  eexists. split; [reflexivity|]. cbn.
  split; [done|]. split; [done|]. split; [done|].
  split; [done|]. split; [done|]. split; [done|].
  symmetry. exact (wf_S _ _ Hwf).
Qed.

Lemma freeCache_returns_witness :
  ∃ st', freeCache (fresh_cache 1 2 1) = Some st'
    ∧ counters st' = counters (fresh_cache 1 2 1)
    ∧ cache st' = cache (fresh_cache 1 2 1)
    ∧ length (mem st') = length (mem (fresh_cache 1 2 1))
    ∧ s st' = s (fresh_cache 1 2 1) ∧ b st' = b (fresh_cache 1 2 1)
    ∧ E st' = E (fresh_cache 1 2 1)
    ∧ S_sets st' = S_sets (fresh_cache 1 2 1).
Proof.
  apply (freeCache_returns (config 1 2 1)).
  - vm_compute. repeat split; discriminate.
  - apply reach_init. vm_compute. reflexivity.
Defined.

(** X15: what [freeCache] unlinks.  The loop over a set takes the
    second line out of the list until the first line is alone: when
    [free(cache[i])] is reached the first line still has its [valid] and
    [tag], and its [next] is NULL.  (The heap of the model keeps a freed
    cell as [free] found it.) *)
Theorem freeCache_unlinks st0 st :
  good_geometry st0 → reachable st0 st →
  ∃ st', freeCache st = Some st'
    ∧ ∀ i : nat, Z.of_nat i < 2 ^ s st0 →
        ∃ c rest, set_lines i st = Some (c :: rest)
                  ∧ set_lines i st' = Some [Line (valid c) (tag c) None].
Proof.
  intros Hg Hr. destruct (reachable_inv _ _ Hg Hr) as [sets [Hwf _]].
  destruct (reachable_geometry _ _ Hg Hr) as (Es & _).
  pose proof (wf_geom _ _ Hwf) as (_ & _ & _ & HE).
  pose proof (wf_len _ _ Hwf) as Hlen. rewrite (wf_S _ _ Hwf) in Hlen.
  destruct (freeCache_sim _ _ Hwf) as (m' & -> & Hlen' & Hall).
  eexists. split; [reflexivity|].
  intros i Hi. rewrite <- Es in Hi.
  destruct (lookup_lt_is_Some_2 sets i) as [l Hl]; [lia|].
  destruct l as [|hd tl].
  { pose proof (ok_size _ _ _ (wf_sets _ _ Hwf) _ _ Hl) as Hsz.
    simpl in Hsz. lia. }
  exists (cell_of hd (ptr_to tl None)), (cells_of tl None).
  split; [exact (wf_set_lines _ _ _ _ Hwf Hl)|].
  unfold set_lines. cbn. rewrite (wf_cache _ _ Hwf), list_lookup_fmap, Hl.
  cbn. specialize (Hall i hd tl Hl).
  assert (a_loc hd < length m')%nat as Hlt by (by eapply lookup_lt_Some).
  destruct (length m') as [|fuel]; [lia|]. cbn. rewrite Hall. cbn.
  by destruct fuel.
Qed.

Lemma freeCache_unlinks_witness :
  ∃ st', freeCache (fresh_cache 1 2 1) = Some st'
    ∧ ∀ i : nat, Z.of_nat i < 2 ^ s (config 1 2 1) →
        ∃ c rest, set_lines i (fresh_cache 1 2 1) = Some (c :: rest)
                  ∧ set_lines i st' = Some [Line (valid c) (tag c) None].
Proof.
  apply freeCache_unlinks.
  - vm_compute. repeat split; discriminate.
  - apply reach_init. vm_compute. reflexivity.
Defined.

(** ** replayTrace and the verbose flag *)

Lemma set_verbosity_id st : set_verbosity (verbosity st) st = st.
Proof. by destruct st. Qed.

Lemma accessData_verbosity addr st st' :
  accessData addr st = Some st' → verbosity st' = verbosity st.
Proof.
  intros H. pose proof (accessData_verb (verbosity st) addr st) as Hv.
  rewrite set_verbosity_id, H in Hv. injection Hv as Hv.
  by rewrite Hv.
Qed.

Lemma replay_line_verbose sscanf v ln r r1 out2 :
  verbosity (r_st r) = 0 →
  replay_line sscanf ln r = Some r1 →
  verbosity (r_st r1) = 0 ∧ r_out r1 = r_out r
  ∧ ∃ out',
      replay_line sscanf ln
        (Replay (r_buf r) (r_addr r) (r_len r) (set_verbosity v (r_st r)) out2)
      = Some (Replay (r_buf r1) (r_addr r1) (r_len r1)
                (set_verbosity v (r_st r1)) out').
Proof.
  intros Hv0 H. unfold replay_line in *. cbn [r_buf r_addr r_len r_st r_out].
  destruct (is_access (buf_at (fgets ln (r_buf r)) 1)).
  2:{ injection H as <-. cbn. split; [done|]. split; [done|]. by eexists. }
  destruct (sscanf _ _) as [a l].
  rewrite accessData_verb.
  destruct (accessData (to_ull a) (r_st r)) as [st1|] eqn:H1; [|done].
  cbn [mbind option_bind fmap option_fmap option_map] in *.
  assert (verbosity st1 = 0) as Hv1.
  { by rewrite (accessData_verbosity _ _ _ H1). }
  rewrite Hv0 in H. cbn [Z.eqb] in H.
  destruct (Ascii.eqb _ "M").
  - rewrite accessData_verb.
    destruct (accessData (to_ull a) st1) as [st2|] eqn:H2; [|done].
    cbn [mbind option_bind fmap option_fmap option_map] in *.
    injection H as <-. cbn. rewrite (accessData_verbosity _ _ _ H2).
    split; [done|]. split; [done|]. by eexists.
  - cbn [mbind option_bind] in *. injection H as <-. cbn.
    split; [done|]. split; [done|]. by eexists.
Qed.

(** X16: the verbose flag.  With [verbosity] zero [replayTrace] writes
    nothing; and the same lines replayed with [verbosity] set to any
    [v] succeed as well and leave the same buffer, address, length and
    state (the counters and the cache with them), the field [verbosity]
    apart: only the output differs. *)
Theorem verbose_flag_only_prints sscanf v lines : ∀ r r1 out2,
  verbosity (r_st r) = 0 →
  replay_lines sscanf lines r = Some r1 →
  r_out r1 = r_out r
  ∧ ∃ out',
      replay_lines sscanf lines
        (Replay (r_buf r) (r_addr r) (r_len r) (set_verbosity v (r_st r)) out2)
      = Some (Replay (r_buf r1) (r_addr r1) (r_len r1)
                (set_verbosity v (r_st r1)) out').
Proof.
  induction lines as [|ln lines IH]; intros r r1 out2 Hv0 H.
  { injection H as <-. split; [done|]. by eexists. }
  cbn [replay_lines] in *.
  destruct (replay_line sscanf ln r) as [ra|] eqn:Ha; [|done].
  cbn [mbind option_bind] in H.
  destruct (replay_line_verbose sscanf v ln r ra out2 Hv0 Ha)
    as (Hva & Hout & out' & ->).
  cbn [mbind option_bind].
  destruct (IH ra r1 out' Hva H) as (Hout1 & out'' & Hrun).
  split; [congruence|]. exists out''. exact Hrun.
Qed.

Lemma verbose_flag_only_prints_witness :
  ∃ r1,
    replay_lines scan_llx_u (trace_lines [" L 10,1"; " M 20,1"]%string)
      (fresh_replay 1 1 1) = Some r1
    ∧ r_out r1 = r_out (fresh_replay 1 1 1)
    ∧ ∃ out',
        replay_lines scan_llx_u (trace_lines [" L 10,1"; " M 20,1"]%string)
          (Replay (r_buf (fresh_replay 1 1 1)) (r_addr (fresh_replay 1 1 1))
             (r_len (fresh_replay 1 1 1))
             (set_verbosity 1 (r_st (fresh_replay 1 1 1))) [])
        = Some (Replay (r_buf r1) (r_addr r1) (r_len r1)
                  (set_verbosity 1 (r_st r1)) out').
Proof.
  eexists. split; [vm_compute; reflexivity|].
  apply (verbose_flag_only_prints scan_llx_u 1
           (trace_lines [" L 10,1"; " M 20,1"]%string) (fresh_replay 1 1 1)).
  - vm_compute. reflexivity.
  - vm_compute. reflexivity.
Defined.

Lemma replay_line_accesses sscanf ln r r' :
  ln ≠ [] → replay_line sscanf ln r = Some r' →
  ∃ addrs, Forall is_addr addrs
    ∧ access_all addrs (r_st r) = Some (r_st r')
    ∧ Z.of_nat (length addrs) = line_accesses ln.
Proof.
  intros Hne. unfold replay_line. rewrite (buf_at_fgets _ _ Hne).
  destruct (is_access (second_char ln)) eqn:Hacc.
  2:{ intros [= <-]. exists []. rewrite (line_accesses_unrecognised _ Hacc).
      by repeat split. }
  rewrite (line_accesses_recognised _ Hacc).
  destruct (sscanf _ _) as [a l].
  destruct (accessData (to_ull a) (r_st r)) as [st1|] eqn:H1; [|done].
  bind_step. destruct (Ascii.eqb (second_char ln) "M").
  - destruct (accessData (to_ull a) st1) as [st2|] eqn:H2; [|done].
    bind_step. intros [= <-]. exists [to_ull a; to_ull a].
    split; [repeat constructor; apply is_addr_to_ull|].
    cbn [access_all r_st]. rewrite H1. bind_step. rewrite H2. done.
  - bind_step. intros [= <-]. exists [to_ull a].
    split; [repeat constructor; apply is_addr_to_ull|].
    cbn [access_all r_st]. rewrite H1. done.
Qed.

Lemma replay_lines_accesses sscanf lines : ∀ r r',
  Forall (λ ln, ln ≠ []) lines →
  replay_lines sscanf lines r = Some r' →
  ∃ addrs, Forall is_addr addrs
    ∧ access_all addrs (r_st r) = Some (r_st r')
    ∧ Z.of_nat (length addrs) = trace_accesses lines.
Proof.
  induction lines as [|ln lines IH]; intros r r' Hne H.
  { injection H as <-. by exists []. }
  apply Forall_cons in Hne as [Hln Hne]. cbn [replay_lines] in H.
  destruct (replay_line sscanf ln r) as [r1|] eqn:H1; [|done].
  cbn [mbind option_bind] in H.
  destruct (replay_line_accesses _ _ _ _ Hln H1) as (l1 & Hl1 & Hrun1 & Hn1).
  destruct (IH _ _ Hne H) as (l2 & Hl2 & Hrun2 & Hn2).
  exists (l1 ++ l2). split; [by apply Forall_app|].
  rewrite access_all_app, Hrun1. split; [done|].
  rewrite length_app. cbn [trace_accesses foldr].
  fold (trace_accesses lines). lia.
Qed.

(** ** main from the command line to the summary *)

Lemma replay_lines_reach sscanf st0 lines : ∀ r,
  good_geometry st0 → reachable st0 (r_st r) →
  Forall (λ ln, ln ≠ []) lines →
  ∃ r', replay_lines sscanf lines r = Some r' ∧ reachable st0 (r_st r').
Proof.
  induction lines as [|ln lines IH]; intros r Hg Hr Hne.
  { by exists r. }
  apply Forall_cons in Hne as [Hln Hne].
  destruct (replay_line_mod sscanf st0 r ln Hg Hr Hln) as (r1 & Hr1 & Hreach & _).
  cbn [replay_lines]. rewrite Hr1. bind_step. by apply IH.
Qed.

Lemma parse_args_result prog opts : ∀ st out,
  match parse_args prog opts st out with
  | Running _ o => o = out
  | Exited code _ o => code = 0 ∧ o = out ++ [OutUsage prog]
  | Aborted _ _ => False
  end.
Proof.
  induction opts as [|o opts IH]; intros st out; [done|].
  destruct o; simpl; try done;
    match goal with
    | |- context [parse_args _ _ ?s0 ?o0] =>
        specialize (IH s0 o0); destruct (parse_args prog opts s0 o0);
        exact IH
    end.
Qed.

Lemma parse_args_usage prog opts : ∀ st out,
  Opt_h ∈ opts ∨ Opt_other ∈ opts →
  ∃ st', parse_args prog opts st out = Exited 0 st' (out ++ [OutUsage prog]).
Proof.
  induction opts as [|o opts IH]; intros st out H.
  { destruct H as [H|H]; by apply elem_of_nil in H. }
  assert (o = Opt_h ∨ o = Opt_other ∨ (Opt_h ∈ opts ∨ Opt_other ∈ opts))
    as [->|[->|H']].
  { destruct H as [[->|H]%elem_of_cons|[->|H]%elem_of_cons]; auto. }
  - by eexists.
  - by eexists.
  - destruct o; simpl; try (by apply IH); by eexists.
Qed.

Lemma parse_args_counters prog opts : ∀ st out,
  match parse_args prog opts st out with
  | Running st' _ | Exited _ st' _ | Aborted st' _ =>
      counters st' = counters st
  end.
Proof.
  induction opts as [|o opts IH]; intros st out; [done|].
  destruct o; simpl; try done;
    match goal with
    | |- context [parse_args _ _ ?s0 ?o0] =>
        specialize (IH s0 o0); destruct (parse_args prog opts s0 o0);
        exact IH
    end.
Qed.

(** X17: [-h] and options [getopt] does not know.  As soon as the
    option loop meets one of them, [main] writes the usage text and
    exits with status 0, also for an unknown option, where the [exit(1)]
    that follows [printUsage] is never reached since [printUsage] has
    called [exit(0)].  Nothing has been allocated. *)
Theorem main_usage_exit sscanf fopen fopen_w buf0 prog opts :
  Opt_h ∈ opts ∨ Opt_other ∈ opts →
  ∃ st, main sscanf fopen fopen_w buf0 prog opts
          = Some (Exited 0 st [OutUsage prog])
        ∧ cache st = [] ∧ mem st = [].
Proof.
  intros H. unfold main.
  destruct (parse_args_usage prog opts initial_state [] H) as [st Hp].
  pose proof (parse_args_heap prog opts initial_state []) as Hh.
  rewrite Hp in *. exists st. split; [done|]. by destruct Hh.
Qed.

Lemma main_usage_exit_witness :
  ∃ st, main scan_llx_u (one_file []) writable [] "csim"
          [Opt_s 4; Opt_other; Opt_E 1; Opt_b 4; Opt_t "yi.trace"]
          = Some (Exited 0 st [OutUsage "csim"])
        ∧ cache st = [] ∧ mem st = [].
Proof. apply main_usage_exit. right. set_solver. Defined.

Lemma initCache_trace_file st st1 :
  initCache st = Some st1 → trace_file st1 = trace_file st.
Proof.
  intros Hi. destruct (Z.le_gt_cases (s st) 30) as [Hs|Hs].
  - destruct (initCache_sizes st Hs) as (m' & c' & Hi' & _).
    rewrite Hi in Hi'. by injection Hi' as ->.
  - rewrite initCache_unfold in Hi. unfold pow2_int in Hi.
    rewrite (proj2 (Z.ltb_ge _ _)), (proj2 (Z.leb_gt _ _)) in Hi by lia. done.
Qed.

(** X18: how [main] ends.  Whenever [main] finishes, it has either
    exited with status 0 or 1, or been stopped by the assertion of
    [printSummary].  Status 1 is only given by [replayTrace] when the
    trace file cannot be opened, and then the error line is all that was
    written.  The assertion only stops the program when the file
    [.csim_results] could not be opened for writing, and then the last
    two things written are the summary line and the report of the
    assertion.  When that file can be opened, [main] always ends by an
    exit. *)
Theorem main_exit_status sscanf fopen fopen_w buf0 prog opts r :
  main sscanf fopen fopen_w buf0 prog opts = Some r →
  (∃ code st out, r = Exited code st out
     ∧ (code = 0
        ∨ (code = 1 ∧ ∃ f, trace_file st = Some f ∧ fopen f = None
                           ∧ out = [OutOpenError f])))
  ∨ (fopen_w ".csim_results"%string = false
     ∧ ∃ st out h m e,
         r = Aborted st (out ++ [OutSummary h m e; OutAssertion])).
Proof.
  unfold main. intros H.
  pose proof (parse_args_result prog opts initial_state []) as Hp.
  destruct (parse_args prog opts initial_state [])
    as [st out|code st out|st out];
    [|destruct Hp as [-> _]; injection H as <-; left; eauto 6|done].
  subst out. destruct (missing_arg st) eqn:Hm.
  { injection H as <-. unfold printUsage, then_exit. left. eauto 6. }
  apply orb_false_iff in Hm as [_ Htf]. apply bool_decide_eq_false in Htf.
  destruct (initCache st) as [st1|] eqn:Hi; [|done]. cbn [mbind option_bind] in H.
  apply initCache_trace_file in Hi.
  destruct (trace_file st) as [f|] eqn:Hf; [|done].
  unfold replayTrace in H. rewrite Hi in H.
  change (default EmptyString (Some f)) with f in H.
  destruct (fopen f) as [lines|] eqn:Hopen.
  - destruct (replay_lines sscanf lines (Replay buf0 0 0 st1 [])) as [r1|];
      cbn [mbind option_bind] in H; [|done].
    destruct (freeCache (r_st r1)) as [st2|];
      cbn [mbind option_bind] in H; [|done].
    injection H as <-. unfold printSummary.
    destruct (fopen_w ".csim_results"%string); cbn [then_exit].
    + left. eauto 6.
    + right. split; [done|]. rewrite <- app_assoc. by do 5 eexists.
  - cbn [mbind option_bind] in H. injection H as <-. left.
    do 3 eexists. split; [reflexivity|]. right. split; [done|].
    exists f. by rewrite Hi.
Qed.

Lemma main_exit_status_witness :
  ∃ r, main scan_llx_u (one_file [" L 10,1"]%string) read_only [] "csim"
         [Opt_s 1; Opt_E 1; Opt_b 1; Opt_t "yi.trace"] = Some r
    ∧ ((∃ code st out, r = Exited code st out
          ∧ (code = 0
             ∨ (code = 1 ∧ ∃ f, trace_file st = Some f
                                ∧ one_file [" L 10,1"]%string f = None
                                ∧ out = [OutOpenError f])))
       ∨ (read_only ".csim_results" = false
          ∧ ∃ st out h m e,
              r = Aborted st (out ++ [OutSummary h m e; OutAssertion]))).
Proof.
  eexists. split; [vm_compute; reflexivity|].
  apply (main_exit_status scan_llx_u (one_file [" L 10,1"]%string) read_only
           [] "csim" [Opt_s 1; Opt_E 1; Opt_b 1; Opt_t "yi.trace"]).
  vm_compute. reflexivity.
Defined.

Lemma freeCache_counters st0 st :
  good_geometry st0 → reachable st0 st →
  ∃ st', freeCache st = Some st' ∧ counters st' = counters st.
Proof.
  intros Hg Hr. destruct (reachable_inv _ _ Hg Hr) as [sets [Hwf _]].
  destruct (freeCache_sim _ _ Hwf) as (m' & -> & _). by eexists.
Qed.

(** X19: a complete run.  Let the options give [1 ≤ s ≤ 30], [b ≥ 1],
    [s + b ≤ 31], [E ≥ 1] and a trace file that opens and has no empty
    line.  Then [main] builds the cache and replays the whole trace, and
    what it prints is what [replayTrace] printed on the new cache,
    followed by the summary of the counters as [replayTrace] left them:
    [freeCache] runs in between and changes none of them.  When the
    file [.csim_results] opens for writing, the same three numbers are
    written into it and [main] returns with status 0; when it does not,
    the assertion of [printSummary] stops the program after the summary
    line. *)
Theorem main_prints_replay_counters
    sscanf fopen fopen_w buf0 prog opts st f lines :
  parse_args prog opts initial_state [] = Running st [] →
  good_geometry st → s st ≠ 0 → b st ≠ 0 → trace_file st = Some f →
  fopen f = Some lines → Forall (λ ln, ln ≠ []) lines →
  ∃ st1 r st',
    initCache st = Some st1
    ∧ replay_lines sscanf lines (Replay buf0 0 0 st1 []) = Some r
    ∧ main sscanf fopen fopen_w buf0 prog opts
      = Some (if fopen_w ".csim_results"%string
              then Exited 0 st'
                     (r_out r ++ [OutSummary (hit_count (r_st r))
                                             (miss_count (r_st r))
                                             (eviction_count (r_st r));
                                  OutResults (hit_count (r_st r))
                                             (miss_count (r_st r))
                                             (eviction_count (r_st r))])
              else Aborted st'
                     (r_out r ++ [OutSummary (hit_count (r_st r))
                                             (miss_count (r_st r))
                                             (eviction_count (r_st r));
                                  OutAssertion])).
Proof.
  intros Hp Hg Hs Hb Hf Hopen Hne. unfold main. rewrite Hp.
  assert (missing_arg st = false) as ->.
  { unfold missing_arg. rewrite Hf.
    pose proof Hg as (_ & _ & _ & HE).
    rewrite (proj2 (Z.eqb_neq _ _) Hs), (proj2 (Z.eqb_neq _ _) Hb).
    rewrite (proj2 (Z.eqb_neq (E st) 0)) by lia. done. }
  destruct (initCache_inv _ Hg) as (st1 & sets & Hi & _).
  rewrite Hi. bind_step. exists st1.
  rewrite (initCache_trace_file _ _ Hi), Hf.
  change (default EmptyString (Some f)) with f.
  unfold replayTrace. rewrite Hopen.
  destruct (replay_lines_reach sscanf st (lines) (Replay buf0 0 0 st1 []) Hg
              (reach_init _ _ Hi) Hne) as (r & Hr & Hreach).
  rewrite Hr. bind_step.
  destruct (freeCache_counters _ _ Hg Hreach) as (st' & -> & Hc).
  bind_step. exists r, st'. split; [done|]. split; [done|].
  unfold printSummary, counters in *. injection Hc as -> -> ->.
  destruct (fopen_w ".csim_results"%string); cbn [then_exit];
    by rewrite <- app_assoc.
Qed.

Lemma main_prints_replay_counters_witness :
  ∃ st1 r st',
    initCache (set_trace_file (Some "yi.trace"%string) (config 4 1 4))
      = Some st1
    ∧ replay_lines scan_llx_u
        (trace_lines [" L 10,1"; " M 20,1"; " L 22,1"]%string)
        (Replay [] 0 0 st1 []) = Some r
    ∧ main scan_llx_u
        (one_file [" L 10,1"; " M 20,1"; " L 22,1"]%string) writable
        [] "csim" [Opt_s 4; Opt_E 1; Opt_b 4; Opt_t "yi.trace"]
      = Some (if writable ".csim_results"
              then Exited 0 st'
                     (r_out r ++ [OutSummary (hit_count (r_st r))
                                             (miss_count (r_st r))
                                             (eviction_count (r_st r));
                                  OutResults (hit_count (r_st r))
                                             (miss_count (r_st r))
                                             (eviction_count (r_st r))])
              else Aborted st'
                     (r_out r ++ [OutSummary (hit_count (r_st r))
                                             (miss_count (r_st r))
                                             (eviction_count (r_st r));
                                  OutAssertion])).
Proof.
  apply (main_prints_replay_counters scan_llx_u
           (one_file [" L 10,1"; " M 20,1"; " L 22,1"]%string) writable
           [] "csim" [Opt_s 4; Opt_E 1; Opt_b 4; Opt_t "yi.trace"]
           (set_trace_file (Some "yi.trace"%string) (config 4 1 4))
           "yi.trace").
  - reflexivity.
  - vm_compute. repeat split; discriminate.
  - vm_compute. discriminate.
  - vm_compute. discriminate.
  - reflexivity.
  - reflexivity.
  - repeat constructor; discriminate.
Defined.

(** X20: a trace file that cannot be opened.  With all four arguments
    given, [main] builds the cache, [replayTrace] writes the error line
    naming the file and exits with status 1; no summary is written and
    the counters are still zero. *)
Theorem main_open_error sscanf fopen fopen_w buf0 prog opts st f :
  parse_args prog opts initial_state [] = Running st [] →
  s st ≤ 30 → s st ≠ 0 → E st ≠ 0 → b st ≠ 0 → trace_file st = Some f →
  fopen f = None →
  ∃ st1, initCache st = Some st1
    ∧ main sscanf fopen fopen_w buf0 prog opts
      = Some (Exited 1 st1 [OutOpenError f])
    ∧ counters st1 = (0, 0, 0).
Proof.
  intros Hp Hs30 Hs HE Hb Hf Hopen. unfold main. rewrite Hp.
  assert (missing_arg st = false) as ->.
  { unfold missing_arg. rewrite Hf.
    rewrite (proj2 (Z.eqb_neq _ _) Hs), (proj2 (Z.eqb_neq _ _) Hb).
    rewrite (proj2 (Z.eqb_neq _ _) HE). done. }
  destruct (initCache_sizes st Hs30) as (m' & c' & Hi & _).
  rewrite Hi. bind_step. eexists. split; [reflexivity|].
  cbn [trace_file set_mem set_cache set_S]. rewrite Hf.
  change (default EmptyString (Some f)) with f.
  unfold replayTrace. rewrite Hopen. split; [done|].
  pose proof (parse_args_counters prog opts initial_state []) as Hcnt.
  rewrite Hp in Hcnt. exact Hcnt.
Qed.

Lemma main_open_error_witness :
  ∃ st1, initCache (set_trace_file (Some "none.trace"%string) (config 1 1 1))
           = Some st1
    ∧ main scan_llx_u no_file writable [] "csim"
        [Opt_s 1; Opt_E 1; Opt_b 1; Opt_t "none.trace"]
      = Some (Exited 1 st1 [OutOpenError "none.trace"])
    ∧ counters st1 = (0, 0, 0).
Proof.
  apply (main_open_error scan_llx_u no_file writable [] "csim"
           [Opt_s 1; Opt_E 1; Opt_b 1; Opt_t "none.trace"]
           (set_trace_file (Some "none.trace"%string) (config 1 1 1))
           "none.trace").
  - reflexivity.
  - vm_compute. discriminate.
  - vm_compute. discriminate.
  - vm_compute. discriminate.
  - vm_compute. discriminate.
  - reflexivity.
  - reflexivity.
Defined.

(** X21: the numbers of the summary.  Let the options give
    [1 ≤ s ≤ 30], [b ≥ 1], [s + b ≤ 31], [E ≥ 1] and a trace file that
    opens, has no empty line and holds at most [INT_MAX] accesses (one
    for an L or S line, two for an M line).  Then [main] prints a
    summary, as the last line when the file [.csim_results] opens for
    writing and otherwise followed by the report of the failed
    assertion, and in that summary [hits + misses] is the number of
    accesses of the trace, evictions lie between zero and the misses,
    and there are at most [S * E] more misses than evictions.  When
    [.csim_results] opens, the same three numbers are written into it
    and [main] returns with status 0. *)
Theorem main_summary_accounts sscanf fopen fopen_w buf0 prog opts st f lines :
  parse_args prog opts initial_state [] = Running st [] →
  good_geometry st → s st ≠ 0 → b st ≠ 0 → trace_file st = Some f →
  fopen f = Some lines → Forall (λ ln, ln ≠ []) lines →
  trace_accesses lines ≤ INT_MAX →
  ∃ st' out h m e,
    main sscanf fopen fopen_w buf0 prog opts
      = Some (if fopen_w ".csim_results"%string
              then Exited 0 st' (out ++ [OutSummary h m e; OutResults h m e])
              else Aborted st' (out ++ [OutSummary h m e; OutAssertion]))
    ∧ h + m = trace_accesses lines
    ∧ 0 ≤ h ∧ 0 ≤ e ≤ m
    ∧ m - e ≤ 2 ^ s st * E st.
Proof.
  intros Hp Hg Hs Hb Hf Hopen Hne Hmax. unfold main. rewrite Hp.
  assert (missing_arg st = false) as ->.
  { unfold missing_arg. rewrite Hf.
    pose proof Hg as (_ & _ & _ & HE).
    rewrite (proj2 (Z.eqb_neq _ _) Hs), (proj2 (Z.eqb_neq _ _) Hb).
    rewrite (proj2 (Z.eqb_neq (E st) 0)) by lia. done. }
  pose proof (parse_args_counters prog opts initial_state []) as Hc0.
  rewrite Hp in Hc0.
  destruct (initCache_inv _ Hg)
    as (st1 & sets & Hi & Hinv & Hun & Hc1 & Es & _ & EE & _).
  rewrite Hc0 in Hc1. unfold counters in Hc1. cbn in Hc1.
  injection Hc1 as Hh1 Hm1 He1.
  rewrite Hi. bind_step.
  rewrite (initCache_trace_file _ _ Hi), Hf.
  change (default EmptyString (Some f)) with f.
  unfold replayTrace. rewrite Hopen.
  destruct (replay_lines_reach sscanf st lines (Replay buf0 0 0 st1 []) Hg
              (reach_init _ _ Hi) Hne) as (r & Hr & Hreach).
  rewrite Hr. bind_step.
  destruct (replay_lines_accesses _ _ _ _ Hne Hr) as (addrs & Hall & Hrun & Hn).
  cbn [r_st] in Hrun.
  destruct (access_accounting addrs st1 sets Hinv Hall)
    as (st2 & sets2 & Hrun2 & Hinv2 & Hh & He & Hsum & Hv); try lia.
  { rewrite (valid_lines_fresh _ _ (proj1 Hinv) Hun). lia. }
  rewrite Hrun in Hrun2. injection Hrun2 as <-.
  destruct (freeCache_counters _ _ Hg Hreach) as (st' & -> & Hc).
  bind_step. unfold counters in Hc. injection Hc as -> -> ->.
  exists st', (r_out r), (hit_count (r_st r)), (miss_count (r_st r)),
    (eviction_count (r_st r)).
  split.
  { unfold printSummary. destruct (fopen_w ".csim_results"%string);
      cbn [then_exit]; by rewrite <- app_assoc. }
  split; [lia|]. split; [done|]. split; [done|].
  destruct (reachable_geometry _ _ Hg Hreach) as (Es' & _ & EE' & _).
  rewrite <- Es', <- EE', Hv. exact (valid_lines_bound _ _ (proj1 Hinv2)).
Qed.

Lemma main_summary_accounts_witness :
  ∃ st' out h m e,
    main scan_llx_u
        (one_file [" L 10,1"; " M 20,1"; " L 22,1"]%string) writable
        [] "csim" [Opt_s 4; Opt_E 1; Opt_b 4; Opt_t "yi.trace"]
      = Some (if writable ".csim_results"
              then Exited 0 st' (out ++ [OutSummary h m e; OutResults h m e])
              else Aborted st' (out ++ [OutSummary h m e; OutAssertion]))
    ∧ h + m = trace_accesses
                (trace_lines [" L 10,1"; " M 20,1"; " L 22,1"]%string)
    ∧ 0 ≤ h ∧ 0 ≤ e ≤ m
    ∧ m - e ≤ 2 ^ s (set_trace_file (Some "yi.trace"%string) (config 4 1 4))
              * E (set_trace_file (Some "yi.trace"%string) (config 4 1 4)).
Proof.
  apply (main_summary_accounts scan_llx_u
           (one_file [" L 10,1"; " M 20,1"; " L 22,1"]%string) writable
           [] "csim" [Opt_s 4; Opt_E 1; Opt_b 4; Opt_t "yi.trace"]
           (set_trace_file (Some "yi.trace"%string) (config 4 1 4))
           "yi.trace").
  - reflexivity.
  - vm_compute. repeat split; discriminate.
  - vm_compute. discriminate.
  - vm_compute. discriminate.
  - reflexivity.
  - reflexivity.
  - repeat constructor; discriminate.
  - vm_compute. discriminate.
Defined.

(** * Properties that need no bound on the geometry *)

(** ** What a call counts, whatever the state *)

Lemma store_frame p f st st' :
  store p f st = Some st' → ∃ m, st' = set_mem m st.
Proof.
  unfold store. destruct p as [k|]; [|done]. cbn.
  destruct (mem st !! k); [|done]. intros [= <-]. by eexists.
Qed.

Lemma cache_store_frame i p st st' :
  cache_store i p st = Some st' → ∃ c, st' = set_cache c st.
Proof.
  unfold cache_store. destruct (cache_at i st); [|done].
  intros [= <-]. by eexists.
Qed.

(** Takes a successful run of binds apart, one call after the other. *)
Ltac run_inv H :=
  repeat first
    [ match type of H with
      | (store ?p ?f ?st ≫= _) = Some _ =>
          let st1 := fresh "st" in let m := fresh "m" in
          let Hs := fresh "Hs" in
          destruct (store p f st) as [st1|] eqn:Hs; [|discriminate H];
          apply store_frame in Hs as [m ->]; cbn [mbind option_bind] in H
      | (cache_store ?i ?p ?st ≫= _) = Some _ =>
          let st1 := fresh "st" in let c := fresh "c" in
          let Hs := fresh "Hs" in
          destruct (cache_store i p st) as [st1|] eqn:Hs; [|discriminate H];
          apply cache_store_frame in Hs as [c ->];
          cbn [mbind option_bind] in H
      | (?m ≫= _) = Some _ =>
          destruct m as [?|] eqn:?; [|discriminate H];
          cbn [mbind option_bind] in H
      | (if ?c then _ else _) = Some _ => destruct c eqn:?
      | match ?p with Some _ => _ | None => _ end = Some _ =>
          destruct p eqn:?
      | store ?p ?f ?st = Some _ =>
          let m := fresh "m" in apply store_frame in H as [m ->]
      | cache_store ?i ?p ?st = Some _ =>
          let c := fresh "c" in apply cache_store_frame in H as [c ->]
      end ].

Lemma fill_line_counts i t e check st st' :
  fill_line i t e check st = Some st' →
  hit_count st' = hit_count st ∧ miss_count st' = miss_count st.
Proof.
  unfold fill_line, store_tag, store_valid, store_next. intros H.
  run_inv H; try discriminate; try (injection H as <-); done.
Qed.

Lemma miss_fill_counts i t st st' :
  miss_fill i t st = Some st' →
  hit_count st' = hit_count st
  ∧ miss_count st' = to_int (miss_count st + 1).
Proof.
  rewrite miss_fill_unfold. intros H.
  destruct (cache_at i st) as [check|]; [|done].
  cbn [mbind option_bind] in H. cbv zeta in H.
  destruct (load check (incr_miss st)) as [c|]; [|done].
  cbn [mbind option_bind] in H.
  match type of H with
  | (?m ≫= _) = Some _ => destruct m as [check'|]; [|done]
  end.
  cbn [mbind option_bind] in H.
  by apply fill_line_counts in H.
Qed.







(** A trace with a line of each kind, on [-s 4 -E -1 -b 28]: the
    instruction line and the line with its letter in the first column
    are skipped, the load and the modify are serviced. *)
Example scenario_mixed_lines :
  replay_counts 4 (-1) 28
    ["I 0400d7d4,8"; " L 998,8"; "L 998,8"; " M f0000998,4"]%string
  = Some (1, 2, 0).
Proof. vm_compute. reflexivity. Qed.

(** ** Lines that are not valid, on any geometry *)

(** The loop of [accessData] over a list without a valid line finds
    nothing, in whatever state. *)
Lemma hit_scan_invalid i t n : ∀ fuel k c ls st r,
  walk fuel (Some k) (mem st) = Some (c :: ls) →
  Forall (λ c, valid c ≠ 1) ls →
  hit_scan n i t (Some k) st = Some r → r = (false, st).
Proof.
  induction n as [|n IH]; intros fuel k c ls st r Hw Hall H.
  { by injection H as <-. }
  rewrite hit_scan_S in H.
  destruct fuel as [|fuel]; [done|]. cbn [walk] in Hw.
  destruct (mem st !! k) as [c0|] eqn:Hk; [|done].
  cbn [mbind option_bind] in Hw.
  destruct (walk fuel (next c0) (mem st)) as [rest|] eqn:Hrest; [|done].
  cbn [mbind option_bind] in Hw. injection Hw as -> ->.
  rewrite (load_next_Some _ _ _ Hk) in H. cbn [mbind option_bind] in H.
  destruct (next c) as [k'|] eqn:Hn; [|done].
  destruct fuel as [|fuel]; [done|]. cbn [walk] in Hrest.
  destruct (mem st !! k') as [nx|] eqn:Hk'; [|done].
  cbn [mbind option_bind] in Hrest.
  destruct (walk fuel (next nx) (mem st)) as [rest'|] eqn:Hrest'; [|done].
  cbn [mbind option_bind] in Hrest. injection Hrest as <-.
  rewrite (load_Some _ _ _ Hk') in H. cbn [mbind option_bind] in H.
  apply Forall_cons in Hall as [Hnx Hall].
  rewrite (proj2 (Z.eqb_neq (valid nx) 1) Hnx), andb_false_r in H.
  eapply (IH (S fuel) k' nx rest'); [|done|exact H].
  cbn [walk]. rewrite Hk'. cbn [mbind option_bind]. by rewrite Hrest'.
Qed.

(** A call on a set without a valid line counts a miss and no hit,
    whatever the state and whatever the tags stored in the set. *)
Lemma accessData_invalid_set addr st i ls st' :
  s_bits_of addr st = Some i →
  set_lines (Z.to_nat i) st = Some ls →
  Forall (λ c, valid c ≠ 1) ls →
  accessData addr st = Some st' →
  hit_count st' = hit_count st
  ∧ miss_count st' = to_int (miss_count st + 1).
Proof.
  intros Hi Hls Hall H. rewrite accessData_unfold, Hi in H.
  cbn [mbind option_bind] in H.
  destruct (t_bits_of addr st) as [t|]; [|done].
  cbn [mbind option_bind] in H.
  destruct (cache_at i st) as [line|] eqn:Hc; [|done].
  cbn [mbind option_bind] in H.
  destruct (load line st) as [c|] eqn:Hl; [|done].
  cbn [mbind option_bind] in H. cbv zeta in H.
  unfold cache_at in Hc. destruct (i <? 0); [done|].
  unfold set_lines in Hls. rewrite Hc in Hls. cbn [mbind option_bind] in Hls.
  destruct line as [k|]; [|done]. change (mem st !! k = Some c) in Hl.
  destruct (length (mem st)) as [|fuel] eqn:Hfuel; [done|].
  pose proof Hls as Hw. cbn [walk] in Hls. rewrite Hl in Hls.
  cbn [mbind option_bind] in Hls.
  destruct (walk fuel (next c) (mem st)) as [rest|]; [|done].
  cbn [mbind option_bind] in Hls. injection Hls as <-.
  apply Forall_cons in Hall as [Hc0 Hall].
  rewrite (proj2 (Z.eqb_neq (valid c) 1) Hc0), andb_false_r in H.
  destruct (hit_scan _ _ _ _ _) as [r|] eqn:Hsc; [|done].
  apply (hit_scan_invalid _ _ _ _ _ _ _ _ _ Hw Hall) in Hsc. subst r.
  cbn [mbind option_bind] in H. exact (miss_fill_counts _ _ _ _ H).
Qed.

(** ** The new cache, on any geometry *)

Lemma initCache_s_le st st1 : initCache st = Some st1 → s st ≤ 30.
Proof.
  rewrite initCache_unfold. unfold pow2_int. intros H.
  destruct (s st <? 0) eqn:H0; [lia|].
  destruct (s st <=? 30) eqn:H30; [lia|done].
Qed.

Lemma initCache_no_sets st st1 :
  s st < 0 → initCache st = Some st1 → cache st1 = [].
Proof.
  intros Hs. rewrite initCache_unfold. unfold pow2_int.
  rewrite (proj2 (Z.ltb_lt _ _) Hs). cbn. by intros [= <-].
Qed.

(** What [initCache] builds when [E] is at least one, whatever [b]. *)
Lemma initCache_fresh_pos st0 st1 :
  0 ≤ s st0 → 1 ≤ E st0 → initCache st0 = Some st1 →
  ∃ sets,
    cache st1 = (λ l, ptr_to l None) <$> sets
    ∧ length sets = Z.to_nat (2 ^ s st0)
    ∧ sets_ok (E st0) (mem st1) sets
    ∧ Forall (Forall unused) sets
    ∧ s st1 = s st0 ∧ b st1 = b st0 ∧ E st1 = E st0
    ∧ counters st1 = counters st0.
Proof.
  intros Hs HE Hi. pose proof (initCache_s_le _ _ Hi) as Hs30.
  rewrite initCache_unfold, pow2_int_good in Hi by lia.
  cbn [mbind option_bind] in Hi. cbv zeta in Hi.
  destruct (init_sets_spec (Z.to_nat (2 ^ s st0))
              (set_cache (replicate (Z.to_nat (2 ^ s st0)) None)
                 (set_S (2 ^ s st0) st0)) [])
    as (m' & sets & Hrun & Hlen & Hok & Hun).
  { done. }
  { done. }
  { split; intros; by rewrite ?lookup_nil in *. }
  { done. }
  cbn [length] in Hrun. change (Z.of_nat 0) with 0 in Hrun.
  rewrite Hrun in Hi. injection Hi as <-.
  exists sets. split; [done|]. split; [by rewrite Hlen|].
  split; [done|]. by split.
Qed.

(** The same for every [E]: a set has [E] lines, and one line when [E]
    is below one. *)
Lemma initCache_fresh st0 st1 :
  0 ≤ s st0 → initCache st0 = Some st1 →
  ∃ sets,
    cache st1 = (λ l, ptr_to l None) <$> sets
    ∧ length sets = Z.to_nat (2 ^ s st0)
    ∧ sets_ok (Z.max 1 (E st0)) (mem st1) sets
    ∧ Forall (Forall unused) sets
    ∧ s st1 = s st0 ∧ b st1 = b st0 ∧ E st1 = E st0
    ∧ counters st1 = counters st0.
Proof.
  intros Hs Hi. destruct (Z.le_gt_cases 1 (E st0)) as [HE|HE].
  - rewrite Z.max_r by done. by apply initCache_fresh_pos.
  - rewrite Z.max_l by lia.
    assert (st0 = set_E (E st0) (set_E 1 st0)) as Est by (by destruct st0).
    rewrite Est in Hi. rewrite initCache_assoc in Hi by (cbn; lia).
    destruct (initCache (set_E 1 st0)) as [st1'|] eqn:Hi'; [|done].
    injection Hi as <-.
    destruct (initCache_fresh_pos (set_E 1 st0) st1' Hs (Z.le_refl 1) Hi')
      as (sets & Hc & Hlen & Hok & Hun & Es & Eb & EE & Ec).
    exists sets. split; [done|]. split; [done|]. split; [done|].
    split; [done|]. split; [done|]. split; [done|]. split; [done|].
    unfold counters in *. cbn in *. done.
Qed.

Lemma sets_ok_set_lines assoc st sets i l :
  cache st = (λ l, ptr_to l None) <$> sets →
  sets_ok assoc (mem st) sets →
  sets !! i = Some l → set_lines i st = Some (cells_of l None).
Proof.
  intros Hc Hok Hl. unfold set_lines.
  rewrite Hc, list_lookup_fmap, Hl.
  cbn [fmap option_fmap option_map mbind option_bind].
  apply walk_seg; [by eapply ok_seg|].
  eapply seg_length; [by eapply ok_seg|by eapply ok_nodup].
Qed.

(** Every line of a new cache holds [valid = 0] and [tag = 0]. *)
Lemma initCache_lines_unused st0 st1 i ls :
  initCache st0 = Some st1 → set_lines i st1 = Some ls →
  Forall (λ c, valid c = 0 ∧ tag c = 0) ls.
Proof.
  intros Hi Hls. destruct (Z.lt_ge_cases (s st0) 0) as [Hs|Hs].
  { unfold set_lines in Hls.
    by rewrite (initCache_no_sets _ _ Hs Hi), lookup_nil in Hls. }
  destruct (initCache_fresh _ _ Hs Hi) as (sets & Hc & _ & Hok & Hun & _).
  destruct (sets !! i) as [l|] eqn:Hl.
  - rewrite (sets_ok_set_lines _ _ _ _ _ Hc Hok Hl) in Hls.
    injection Hls as <-. apply cells_of_unused.
    exact (Forall_lookup_1 _ _ _ _ Hun Hl).
  - unfold set_lines in Hls.
    by rewrite Hc, list_lookup_fmap, Hl in Hls.
Qed.

(** ** The decoder on the addresses whose tag is zero *)

Lemma mask_of_sign st :
  1 ≤ s st ≤ 30 → 0 ≤ b st ≤ 31 → 32 ≤ s st + b st →
  mask_of st = Some (Z.shiftl (Z.ones (64 - b st)) (b st)).
Proof.
  intros Hs Hb Hsb. unfold mask_of, shl_int.
  assert (Hps : 2 ≤ 2 ^ s st).
  { change 2 with (2 ^ 1) at 1. apply pow2_le_mono. lia. }
  assert (Hps' : 2 ^ s st ≤ 2 ^ 30) by (apply pow2_le_mono; lia).
  assert (Hpb : 0 < 2 ^ b st) by (apply Z.pow_pos_nonneg; lia).
  assert (Hpb' : 2 ^ b st ≤ 2 ^ 31) by (apply pow2_le_mono; lia).
  assert (Hsum : 2 ^ s st * 2 ^ b st = 2 ^ (s st + b st - 32) * 2 ^ 32).
  { rewrite <- !Z.pow_add_r by lia. f_equal. lia. }
  assert (Hhi : 2 ^ (64 - b st) * 2 ^ b st = 2 ^ 64).
  { rewrite <- Z.pow_add_r by lia. f_equal. lia. }
  replace ((0 <=? s st) && (s st <? 32)) with true
    by (symmetry; apply andb_true_iff; lia).
  replace ((0 <=? b st) && (b st <? 32)) with true
    by (symmetry; apply andb_true_iff; lia).
  cbn [mbind option_bind].
  rewrite Z.shiftl_1_l.
  rewrite (to_int_small (2 ^ s st)) by lia.
  rewrite (to_int_small (2 ^ s st - 1)) by lia.
  rewrite Z.shiftl_mul_pow2 by lia.
  assert (to_int ((2 ^ s st - 1) * 2 ^ b st) = - 2 ^ b st) as ->.
  { unfold to_int.
    replace ((2 ^ s st - 1) * 2 ^ b st + 2 ^ 31)
      with (2 ^ 31 - 2 ^ b st + 2 ^ (s st + b st - 32) * 2 ^ 32) by lia.
    rewrite Z.mod_add by lia. rewrite Z.mod_small by lia. lia. }
  rewrite Z.ones_equiv, Z.shiftl_mul_pow2 by lia.
  f_equal. unfold to_ull.
  replace (- 2 ^ b st) with (2 ^ 64 - 2 ^ b st + (-1) * 2 ^ 64) by lia.
  rewrite Z.mod_add by lia. rewrite Z.mod_small by lia. nia.
Qed.

Lemma shiftr_low addr s0 b0 :
  0 ≤ s0 → 0 ≤ b0 → 0 ≤ addr → Z.shiftr addr (s0 + b0) = 0 →
  0 ≤ Z.shiftr addr b0 < 2 ^ s0.
Proof.
  intros Hs Hb Ha H0.
  assert (Hpb : 0 < 2 ^ b0) by (apply Z.pow_pos_nonneg; lia).
  assert (Hps : 0 < 2 ^ s0) by (apply Z.pow_pos_nonneg; lia).
  rewrite Z.shiftr_div_pow2 in H0 |- * by lia.
  rewrite Z.pow_add_r in H0 by lia.
  apply Z.div_small_iff in H0; [|lia].
  split; [apply Z.div_pos; lia|].
  apply Z.div_lt_upper_bound; lia.
Qed.

(** For an address whose tag is zero the set index is [addr >> b], for
    every [s] and [b] the shifts are defined for: the bits the mask
    fails to clear when [s + b] is above 31 are all zero. *)
Lemma s_bits_of_low addr st :
  0 ≤ s st ≤ 30 → 0 ≤ b st ≤ 31 → is_addr addr → tag_of addr st = 0 →
  s_bits_of addr st = Some (Z.shiftr addr (b st))
  ∧ 0 ≤ Z.shiftr addr (b st) < 2 ^ s st.
Proof.
  intros Hs Hb Ha Ht. unfold tag_of in Ht.
  pose proof (shiftr_low addr (s st) (b st) (proj1 Hs) (proj1 Hb)
                (proj1 Ha) Ht) as Hlow.
  split; [|done].
  destruct (Z.le_gt_cases (s st + b st) 31) as [Hsb|Hsb].
  - rewrite s_bits_of_spec by lia. f_equal. apply Z.mod_small. lia.
  - unfold s_bits_of. rewrite mask_of_sign by lia.
    cbn [mbind option_bind]. unfold shr_ull.
    replace ((0 <=? b st) && (b st <? 64)) with true
      by (symmetry; apply andb_true_iff; lia).
    cbn [mbind option_bind]. f_equal.
    rewrite Z.shiftr_land, Z.shiftr_shiftl_l, Z.sub_diag, Z.shiftl_0_r by lia.
    rewrite Z.land_comm, Z.land_ones by lia.
    assert (Hps' : 2 ^ s st ≤ 2 ^ 30) by (apply pow2_le_mono; lia).
    assert (2 ^ 30 ≤ 2 ^ (64 - b st)) by (apply pow2_le_mono; lia).
    rewrite Z.mod_small by lia. apply to_int_small. lia.
Qed.

Lemma t_bits_of_defined addr st :
  0 ≤ s st ≤ 30 → 0 ≤ b st ≤ 31 →
  t_bits_of addr st = Some (tag_of addr st).
Proof.
  intros Hs Hb. unfold t_bits_of, shr_ull, tag_of.
  rewrite to_int_small by lia.
  replace ((0 <=? s st + b st) && (s st + b st <? 64)) with true
    by (symmetry; apply andb_true_iff; lia).
  done.
Qed.

(** The first access to a set of a new cache returns and is a miss, when
    the address has tag zero: the tag every line holds. *)
Lemma fresh_access_tag_zero st0 st1 addr :
  0 ≤ s st0 → 0 ≤ b st0 ≤ 31 → initCache st0 = Some st1 →
  is_addr addr → tag_of addr st1 = 0 →
  ∃ st2, accessData addr st1 = Some st2
         ∧ hit_count st2 = hit_count st1
         ∧ miss_count st2 = to_int (miss_count st1 + 1).
Proof.
  intros Hs Hb Hi Ha Ht.
  pose proof (initCache_s_le _ _ Hi) as Hs30.
  destruct (initCache_fresh _ _ Hs Hi)
    as (sets & Hc & Hlen & Hok & Hun & Es & Eb & EE & _).
  destruct (s_bits_of_low addr st1) as [Hsb Hidx]; [lia..|done|done|].
  pose proof (t_bits_of_defined addr st1) as Htb.
  rewrite Ht in Htb.
  set (i := Z.shiftr addr (b st1)) in *.
  destruct (lookup_lt_is_Some_2 sets (Z.to_nat i)) as [l Hl].
  { rewrite Hlen, <- Es. lia. }
  (* the same call with [E] at least one *)
  set (st1' := set_E (Z.max 1 (E st1)) st1).
  assert (accessData addr st1 = set_E (E st1) <$> accessData addr st1')
    as ->.
  { rewrite <- accessData_assoc by (cbn; lia). f_equal. by destruct st1. }
  destruct (access_list (Z.to_nat (E st1' - 1)) 0 l) as [l' o] eqn:Hal.
  assert (Hsz : Z.of_nat (length l) = E st1').
  { rewrite (ok_size _ _ _ Hok _ _ Hl). cbn. by rewrite EE. }
  destruct (accessData_sim addr st1' i 0 l l' o) as (m' & Hacc & _).
  { exact Hsb. }
  { apply Htb; lia. }
  { unfold cache_at. destruct (i <? 0) eqn:Hlt; [lia|].
    change (cache st1') with (cache st1).
    by rewrite Hc, list_lookup_fmap, Hl. }
  { by eapply ok_seg. }
  { by eapply ok_nodup. }
  { cbn. lia. }
  { done. }
  { done. }
  rewrite Hacc. cbn [fmap option_fmap option_map]. eexists.
  split; [reflexivity|].
  assert (Hsz' : length l = S (Z.to_nat (E st1' - 1))).
  { assert (1 ≤ E st1') by (cbn; lia). lia. }
  destruct (access_list_spec _ _ _ _ _ Hsz' Hal) as [_ Hlru].
  rewrite (atags_unused l) in Hlru
    by exact (Forall_lookup_1 _ _ _ _ Hun Hl).
  unfold lru_access in Hlru.
  rewrite bool_decide_false in Hlru by apply not_elem_of_nil.
  rewrite bool_decide_true in Hlru by (cbn [length]; lia).
  injection Hlru as _ <-. done.
Qed.

(** C10: a line that is not valid never gives a hit.  [initCache] leaves
    every line of every set with [valid = 0] and [tag = 0], whatever the
    geometry.  In any state at all, a call of [accessData] on a set that
    holds no valid line, whatever the tags stored in it, counts no hit:
    when it returns it has added one to [miss_count] and left
    [hit_count] alone.  And on the new cache an access whose tag is 0,
    the tag every line holds, does return and is such a miss, for every
    [E] and for every [s] and [b] the shifts of [accessData] are defined
    for ([s] not negative, [b] from 0 to 31; [initCache] has returned, so
    [s] is at most 30), [s + b] above 31 included. *)
Theorem invalid_line_never_hits st0 st1 :
  initCache st0 = Some st1 →
  (∀ i ls, set_lines i st1 = Some ls →
     Forall (λ c, valid c = 0 ∧ tag c = 0) ls)
  ∧ (∀ st addr i ls st',
       s_bits_of addr st = Some i →
       set_lines (Z.to_nat i) st = Some ls →
       Forall (λ c, valid c ≠ 1) ls →
       accessData addr st = Some st' →
       hit_count st' = hit_count st
       ∧ miss_count st' = to_int (miss_count st + 1))
  ∧ (0 ≤ s st0 → 0 ≤ b st0 ≤ 31 →
     ∀ addr, is_addr addr → tag_of addr st1 = 0 →
       ∃ st2, accessData addr st1 = Some st2
              ∧ hit_count st2 = hit_count st1
              ∧ miss_count st2 = to_int (miss_count st1 + 1)).
Proof.
  intros Hi. split; [|split].
  - intros i ls. by apply initCache_lines_unused with st0.
  - intros st addr i ls st'. apply accessData_invalid_set.
  - intros Hs Hb addr. by apply fresh_access_tag_zero with st0.
Qed.

Lemma invalid_line_never_hits_witness :
  (∀ i ls, set_lines i (fresh_cache 4 1 28) = Some ls →
     Forall (λ c, valid c = 0 ∧ tag c = 0) ls)
  ∧ (∀ st addr i ls st',
       s_bits_of addr st = Some i →
       set_lines (Z.to_nat i) st = Some ls →
       Forall (λ c, valid c ≠ 1) ls →
       accessData addr st = Some st' →
       hit_count st' = hit_count st
       ∧ miss_count st' = to_int (miss_count st + 1))
  ∧ (0 ≤ s (config 4 1 28) → 0 ≤ b (config 4 1 28) ≤ 31 →
     ∀ addr, is_addr addr → tag_of addr (fresh_cache 4 1 28) = 0 →
       ∃ st2, accessData addr (fresh_cache 4 1 28) = Some st2
              ∧ hit_count st2 = hit_count (fresh_cache 4 1 28)
              ∧ miss_count st2
                = to_int (miss_count (fresh_cache 4 1 28) + 1)).
Proof.
  apply (invalid_line_never_hits (config 4 1 28) (fresh_cache 4 1 28)).
  vm_compute. reflexivity.
Defined.

(** On [-s 4 -E 1 -b 28], where [s + b] is 32, an access to the address
    [998] of set 0 and one to [f0000000] of set 15, both of tag 0. *)
Example wide_geometry_low_addresses :
  ∃ st, access_all [0x998; 0xf0000000; 0x998] (fresh_cache 4 1 28) = Some st
        ∧ counters st = (1, 2, 0).
Proof. eexists. vm_compute. split; reflexivity. Qed.
